(** * StreamVault players: link classification and playback controllers

    A shallow embedding of the link helpers of [src/types.ts] and of the
    event handlers of [src/components/VideoPlayer.tsx] and
    [src/components/AudioPlayer.tsx], with the properties of the
    specification proved about them.

    Conventions of the embedding.
    - A JavaScript string is a [string]: the sequence of its code units
      (bytes of the UTF-8 form for text beyond ASCII).  Every pattern of
      the source is ASCII, so a unit above 127 matches no pattern
      character, with or without the [i] flag.
    - A JavaScript number that the handlers only compare, assign, multiply
      and divide is a rational [Q]; [NaN] ("not known yet") is kept apart
      where the source tests for it.
    - React state is a record, a handler is a function from record to
      record; a [useRef] cell that may be [null] is an [option]. *)

From Stdlib Require Import Ascii String ZArith QArith Qminmax Qround Bool Lia Lqa.
From Stdlib Require Import DecimalString DecimalN.
From stdpp Require Import base option list.

#[local] Open Scope string_scope.

(** ** JavaScript string and regular-expression primitives *)

Module Js.

(** Canonicalisation of a code unit under the [i] flag (no [u] flag):
    the unit is upper-cased; units outside ASCII never canonicalise into
    ASCII, so they are left alone here. *)
Definition canonicalize (c : ascii) : ascii :=
  if (Ascii.leb "a" c && Ascii.leb c "z")%bool
  then ascii_of_nat (nat_of_ascii c - 32)
  else c.

Definition eq_cs (a b : ascii) : bool := Ascii.eqb a b.
Definition eq_ci (a b : ascii) : bool :=
  Ascii.eqb (canonicalize a) (canonicalize b).

(** A literal of a pattern matched at the head of the input: the rest
    of the input after the literal, or [None]. *)
Fixpoint lit (eqc : ascii -> ascii -> bool) (p s : string) : option string :=
  match p with
  | EmptyString => Some s
  | String a p' =>
      match s with
      | EmptyString => None
      | String b s' => if eqc a b then lit eqc p' s' else None
      end
  end.

(** [cls{n}]: exactly [n] units of a character class, captured. *)
Fixpoint class_n (cls : ascii -> bool) (n : nat) (s : string)
  : option (string * string) :=
  match n with
  | O => Some (EmptyString, s)
  | S n' =>
      match s with
      | EmptyString => None
      | String c s' =>
          if cls c
          then match class_n cls n' s' with
               | Some (m, r) => Some (String c m, r)
               | None => None
               end
          else None
      end
  end.

(** An unanchored pattern tries every start index from the left and
    keeps the first success. *)
Fixpoint search {A : Type} (here : string -> option A) (s : string) : option A :=
  match here s with
  | Some r => Some r
  | None =>
      match s with
      | EmptyString => None
      | String _ s' => search here s'
      end
  end.

(** [RegExp.prototype.test]. *)
Definition test {A : Type} (here : string -> option A) (s : string) : bool :=
  match search here s with Some _ => true | None => false end.

(** [String.prototype.includes] with a string argument. *)
Definition includes (s p : string) : bool := test (lit eq_cs p) s.

(** [String.prototype.replace] with a string pattern and a replacement
    free of [$]: only the first occurrence is replaced. *)
Fixpoint replace (s p r : string) : string :=
  match lit eq_cs p s with
  | Some rest => r ++ rest
  | None =>
      match s with
      | EmptyString => EmptyString
      | String c s' => String c (replace s' p r)
      end
  end.

End Js.

(** ** Link classifier ([src/types.ts], and [getYTVideoId] of the video player) *)

Inductive LinkType := youtube | mega | direct.

(** [/(?:youtube\.com|youtu\.be)/i] at one start index. *)
Definition youtube_host_here (s : string) : option string :=
  match Js.lit Js.eq_ci "youtube.com" s with
  | Some r => Some r
  | None => Js.lit Js.eq_ci "youtu.be" s
  end.

Definition isYouTubeLink (url : string) : bool := Js.test youtube_host_here url.

(** [/mega\.nz/i] *)
Definition isMegaLink (url : string) : bool := Js.test (Js.lit Js.eq_ci "mega.nz") url.

Definition getLinkType (url : string) : LinkType :=
  if isYouTubeLink url then youtube
  else if isMegaLink url then mega
  else direct.

(** The class [[a-zA-Z0-9_-]]. *)
Definition id_char (c : ascii) : bool :=
  (Ascii.leb "a" c && Ascii.leb c "z")
  || (Ascii.leb "A" c && Ascii.leb c "Z")
  || (Ascii.leb "0" c && Ascii.leb c "9")
  || Ascii.eqb c "_" || Ascii.eqb c "-".

(** [/(?:youtube\.com\/(?:watch\?v=|embed\/)|youtu\.be\/)([a-zA-Z0-9_-]{11})/]
    at one start index; the result is capture group 1.  The alternatives
    are tried in order, the next one when the rest of the pattern fails. *)
Definition capture11 (s : string) : option string :=
  match Js.class_n id_char 11 s with
  | Some (m, _) => Some m
  | None => None
  end.

Definition youtube_id_here (s : string) : option string :=
  let long :=
    match Js.lit Js.eq_cs "youtube.com/" s with
    | Some r =>
        let watch :=
          match Js.lit Js.eq_cs "watch?v=" r with
          | Some r' => capture11 r'
          | None => None
          end in
        match watch with
        | Some m => Some m
        | None =>
            match Js.lit Js.eq_cs "embed/" r with
            | Some r' => capture11 r'
            | None => None
            end
        end
    | None => None
    end in
  match long with
  | Some m => Some m
  | None =>
      match Js.lit Js.eq_cs "youtu.be/" s with
      | Some r => capture11 r
      | None => None
      end
  end.

(** [types.ts]: [match ? match[1] : ''] *)
Definition getYouTubeVideoId (url : string) : string :=
  match Js.search youtube_id_here url with
  | Some m => m
  | None => EmptyString
  end.

(** [VideoPlayer.tsx]: the same pattern, written a second time. *)
Definition getYTVideoId (url : string) : string :=
  match Js.search youtube_id_here url with
  | Some m => m
  | None => EmptyString
  end.

Inductive MediaMode := mode_video | mode_audio.

Definition getMegaEmbedUrl (url : string) (_mode : MediaMode) : string :=
  if Js.includes url "mega.nz/embed/" then url
  else if Js.includes url "mega.nz/file/"
       then Js.replace url "mega.nz/file/" "mega.nz/embed/"
       else url.

(** ** Playback dispatcher ([VideoPlayer], the main export) *)

Inductive Controller := YouTubePlayer | MegaPlayer | DirectVideoPlayer.

Definition VideoPlayer (link : string) : Controller :=
  if isYouTubeLink link then YouTubePlayer
  else if isMegaLink link then MegaPlayer
  else DirectVideoPlayer.

(** The controller that serves each source kind. *)
Definition controller_of (k : LinkType) : Controller :=
  match k with
  | youtube => YouTubePlayer
  | mega => MegaPlayer
  | direct => DirectVideoPlayer
  end.

(** ** JavaScript numbers as the players use them *)

Module Num.

#[local] Open Scope Q_scope.

(** [a === b] and [a > b] on finite numbers. *)
Definition eqb (a b : Q) : bool := Qeq_bool a b.
Definition gtb (a b : Q) : bool := negb (Qle_bool a b).

(** A number that may be [NaN]: [None] is [NaN]. *)
Definition falsy (d : option Q) : bool :=
  match d with
  | None => true
  | Some q => eqb q 0
  end.

End Num.

(** ** The platform media element ([HTMLMediaElement]) *)

Module Media.

#[local] Open Scope Q_scope.

Record Element := mkElement {
  src : string;
  paused : bool;
  currentTime : Q;
  duration : option Q;      (* [None]: [NaN], no metadata yet *)
  volume : Q;
  muted : bool;
  playbackRate : Q
}.

Definition set_src (x : string) (e : Element) : Element :=
  mkElement x (paused e) (currentTime e) (duration e) (volume e) (muted e) (playbackRate e).
Definition set_paused (x : bool) (e : Element) : Element :=
  mkElement (src e) x (currentTime e) (duration e) (volume e) (muted e) (playbackRate e).
Definition set_currentTime (x : Q) (e : Element) : Element :=
  mkElement (src e) (paused e) x (duration e) (volume e) (muted e) (playbackRate e).
Definition set_duration (x : option Q) (e : Element) : Element :=
  mkElement (src e) (paused e) (currentTime e) x (volume e) (muted e) (playbackRate e).
Definition set_volume (x : Q) (e : Element) : Element :=
  mkElement (src e) (paused e) (currentTime e) (duration e) x (muted e) (playbackRate e).
Definition set_muted (x : bool) (e : Element) : Element :=
  mkElement (src e) (paused e) (currentTime e) (duration e) (volume e) x (playbackRate e).
Definition set_playbackRate (x : Q) (e : Element) : Element :=
  mkElement (src e) (paused e) (currentTime e) (duration e) (volume e) (muted e) x.

(** [el.pause()] *)
Definition pause (e : Element) : Element := set_paused true e.

(** [el.load()]: the resource selection starts over; position and
    duration are forgotten until new metadata arrives. *)
Definition load (e : Element) : Element :=
  set_duration None (set_currentTime 0 (set_paused true e)).

(** [el.play()]: the platform may refuse (blocked autoplay); the source
    swallows the rejection with [.catch(() => {})]. *)
Definition play (allowed : bool) (e : Element) : Element :=
  if allowed then set_paused false e else e.

(** The sound that leaves the element. *)
Definition output (e : Element) : Q := if muted e then 0 else volume e.

End Media.

(** The bounding rectangle of the progress surface, as far as the click
    handlers read it. *)
Record Rect := mkRect { left : Q; width : Q }.

(** [Math.max(0, Math.min(1, (clientX - rect.left) / rect.width))].
    [None] is [NaN] (a zero-width bar clicked at its left edge); a zero
    width elsewhere divides to an infinity, which the clamp brings back to
    0 or 1. *)
Definition click_fraction (clientX : Q) (rect : Rect) : option Q :=
  let dx := (clientX - left rect)%Q in
  if Num.eqb (width rect) 0 then
    if Num.eqb dx 0 then None
    else if Num.gtb dx 0 then Some 1%Q else Some 0%Q
  else Some (Qmax 0 (Qmin 1 (dx / width rect))).

(** Calls into the hosting playlist. *)
Inductive HostCall := onEnded | onNext | onPrev.

(** ** Native playback controller for video ([DirectVideoPlayer]) *)

Module DirectVideo.

#[local] Open Scope Q_scope.

(** The [useState] cells of the component, in source order. *)
Record State := mkState {
  playing : bool;
  currentTime : Q;
  duration : option Q;
  volume : Q;
  prevVolume : Q;
  muted : bool;
  isFullscreen : bool;
  loading : bool;
  showControls : bool;
  buffered : Q;
  showSettings : bool;
  playbackRate : Q;
  hoverTime : option Q;
  hoverPos : Q;
  detectedQuality : string
}.

Definition setPlaying (x : bool) (s : State) : State :=
  mkState x (currentTime s) (duration s) (volume s) (prevVolume s) (muted s)
    (isFullscreen s) (loading s) (showControls s) (buffered s) (showSettings s)
    (playbackRate s) (hoverTime s) (hoverPos s) (detectedQuality s).
Definition setCurrentTime (x : Q) (s : State) : State :=
  mkState (playing s) x (duration s) (volume s) (prevVolume s) (muted s)
    (isFullscreen s) (loading s) (showControls s) (buffered s) (showSettings s)
    (playbackRate s) (hoverTime s) (hoverPos s) (detectedQuality s).
Definition setDuration (x : option Q) (s : State) : State :=
  mkState (playing s) (currentTime s) x (volume s) (prevVolume s) (muted s)
    (isFullscreen s) (loading s) (showControls s) (buffered s) (showSettings s)
    (playbackRate s) (hoverTime s) (hoverPos s) (detectedQuality s).
Definition setVolume (x : Q) (s : State) : State :=
  mkState (playing s) (currentTime s) (duration s) x (prevVolume s) (muted s)
    (isFullscreen s) (loading s) (showControls s) (buffered s) (showSettings s)
    (playbackRate s) (hoverTime s) (hoverPos s) (detectedQuality s).
Definition setPrevVolume (x : Q) (s : State) : State :=
  mkState (playing s) (currentTime s) (duration s) (volume s) x (muted s)
    (isFullscreen s) (loading s) (showControls s) (buffered s) (showSettings s)
    (playbackRate s) (hoverTime s) (hoverPos s) (detectedQuality s).
Definition setMuted (x : bool) (s : State) : State :=
  mkState (playing s) (currentTime s) (duration s) (volume s) (prevVolume s) x
    (isFullscreen s) (loading s) (showControls s) (buffered s) (showSettings s)
    (playbackRate s) (hoverTime s) (hoverPos s) (detectedQuality s).
Definition setLoading (x : bool) (s : State) : State :=
  mkState (playing s) (currentTime s) (duration s) (volume s) (prevVolume s) (muted s)
    (isFullscreen s) x (showControls s) (buffered s) (showSettings s)
    (playbackRate s) (hoverTime s) (hoverPos s) (detectedQuality s).
Definition setBuffered (x : Q) (s : State) : State :=
  mkState (playing s) (currentTime s) (duration s) (volume s) (prevVolume s) (muted s)
    (isFullscreen s) (loading s) (showControls s) x (showSettings s)
    (playbackRate s) (hoverTime s) (hoverPos s) (detectedQuality s).
Definition setShowSettings (x : bool) (s : State) : State :=
  mkState (playing s) (currentTime s) (duration s) (volume s) (prevVolume s) (muted s)
    (isFullscreen s) (loading s) (showControls s) (buffered s) x
    (playbackRate s) (hoverTime s) (hoverPos s) (detectedQuality s).
Definition setDetectedQuality (x : string) (s : State) : State :=
  mkState (playing s) (currentTime s) (duration s) (volume s) (prevVolume s) (muted s)
    (isFullscreen s) (loading s) (showControls s) (buffered s) (showSettings s)
    (playbackRate s) (hoverTime s) (hoverPos s) x.

(** The arguments of the [useState] calls. *)
Definition initial : State :=
  mkState false 0 (Some 0) (75 # 100) (75 # 100) false false true true 0 false 1 None 0 "".

(** [muted ? 0 : volume]: the value shown by the slider and handed to
    the element. *)
Definition effective (s : State) : Q := if muted s then 0 else volume s.

(** The component: its state and [videoRef.current]. *)
Record Player := mkPlayer { st : State; video : option Media.Element }.

(** Effect on [[volume, muted]]:
    [if (v) { v.volume = muted ? 0 : volume; v.muted = false; }],
    run after a render in which one of the two changed. *)
Definition sync_volume (old new : State) (v : option Media.Element)
  : option Media.Element :=
  if Num.eqb (volume old) (volume new) && Bool.eqb (muted old) (muted new)
  then v
  else match v with
       | Some e =>
           Some (Media.set_muted false
                   (Media.set_volume (effective new) e))
       | None => None
       end.

(** Effect on [[playbackRate]]. *)
Definition sync_speed (old new : State) (v : option Media.Element)
  : option Media.Element :=
  if Num.eqb (playbackRate old) (playbackRate new)
  then v
  else match v with
       | Some e => Some (Media.set_playbackRate (playbackRate new) e)
       | None => None
       end.

(** A handler leaves a new state; the render that follows runs the
    effects whose dependencies changed. *)
Definition commit (p : Player) (new : State) : Player :=
  mkPlayer new (sync_speed (st p) new (sync_volume (st p) new (video p))).

(** Effect on [[item.id]]: "Load new video". *)
Definition loadItem (link : string) (p : Player) : Player :=
  match video p with
  | None => p
  | Some v =>
      let s := st p in
      let s' :=
        setDetectedQuality ""
          (setShowSettings false
             (setBuffered 0
                (setDuration (Some 0)
                   (setCurrentTime 0 (setPlaying false (setLoading true s)))))) in
      let v' :=
        Media.set_playbackRate (playbackRate s)
          (Media.set_muted false
             (Media.set_volume (volume s)
                (Media.load (Media.set_src link (Media.pause v))))) in
      mkPlayer s' (Some v')
  end.

Definition handleProgressClick (clientX : Q) (bar : option Rect) (p : Player)
  : Player :=
  match video p, bar with
  | Some v, Some rect =>
      if Num.falsy (Media.duration v) then p
      else match Media.duration v, click_fraction clientX rect with
           | Some d, Some f =>
               let v' := Media.set_currentTime (f * d) v in
               mkPlayer (setCurrentTime (Media.currentTime v') (st p)) (Some v')
           | _, _ => p   (* a [NaN] position: the assignment throws *)
           end
  | _, _ => p
  end.

Definition handleVolumeChange (v : Q) (p : Player) : Player :=
  let s := st p in
  let s1 := setMuted (Num.eqb v 0) (setVolume v s) in
  commit p (if Num.gtb v 0 then setPrevVolume v s1 else s1).

Definition toggleMute (p : Player) : Player :=
  let s := st p in
  if muted s || Num.eqb (volume s) 0 then
    let r := if Num.gtb (prevVolume s) 0 then prevVolume s else 5 # 10 in
    commit p (setMuted false (setVolume r s))
  else
    commit p (setMuted true (setPrevVolume (volume s) s)).

(** Keyboard: [arrowup] and [arrowdown] ([m] is [toggleMute]). *)
Definition keyArrowUp (p : Player) : Player :=
  let s := st p in
  commit p (setMuted false (setVolume (Qmin (volume s + (1 # 10)) 1) s)).

Definition keyArrowDown (p : Player) : Player :=
  let s := st p in
  let n := Qmax (volume s - (1 # 10)) 0 in
  let s1 := setVolume n s in
  commit p (if Num.eqb n 0 then setMuted true s1 else s1).

(** A [<video>] element as the platform creates it. *)
Definition fresh_element : Media.Element :=
  Media.mkElement "" true 0 None 1 false 1.

(** First render: every effect runs once, in source order. *)
Definition mount (link : string) : Player :=
  let p := loadItem link (mkPlayer initial (Some fresh_element)) in
  let s := st p in
  mkPlayer s
    (option_map
       (fun e =>
          Media.set_playbackRate (playbackRate s)
            (Media.set_muted false
               (Media.set_volume (effective s) e)))
       (video p)).

Definition same_volume_fields (s s' : State) : Prop :=
  volume s' = volume s /\ prevVolume s' = prevVolume s /\ muted s' = muted s.

(** The element plays at the effective volume. *)
Definition in_sync (p : Player) : Prop :=
  match video p with
  | Some e => Media.output e == effective (st p)
  | None => True
  end.

(** The reset as the specification words it: every cell back at its
    default, volume, mute and rate alone kept. *)
Definition reset_keeping_preferences (s : State) : State :=
  mkState false 0 (Some 0) (volume s) (prevVolume s) (muted s)
    false true true 0 false (playbackRate s) None 0 "".

(** One event of the mounted player.  The handlers that write a volume
    field are spelled out; [step_other] stands for every other handler
    (media events, seeking, overlay timers, fullscreen, speed menu),
    none of which writes one. *)
Inductive step : Player -> Player -> Prop :=
| step_volume p v : 0 <= v <= 1 -> step p (handleVolumeChange v p)
| step_mute p : step p (toggleMute p)
| step_up p : step p (keyArrowUp p)
| step_down p : step p (keyArrowDown p)
| step_load p link : step p (loadItem link p)
| step_seek p x bar : step p (handleProgressClick x bar p)
| step_other p p' : same_volume_fields (st p) (st p') -> step p p'.

Inductive reachable : Player -> Prop :=
| reach_mount link : reachable (mount link)
| reach_step p p' : reachable p -> step p p' -> reachable p'.

End DirectVideo.

(** ** Native playback controller for audio ([AudioPlayer]) *)

Module Audio.

#[local] Open Scope Q_scope.

Record State := mkState {
  playing : bool;
  currentTime : Q;
  duration : option Q;
  volume : Q;
  prevVolume : Q;
  muted : bool;
  loading : bool;
  buffered : Q;
  repeat : bool;
  speed : Q;
  showSpeed : bool;
  imgLoaded : bool;
  imgError : bool
}.

Definition setPlaying (x : bool) (s : State) : State :=
  mkState x (currentTime s) (duration s) (volume s) (prevVolume s) (muted s)
    (loading s) (buffered s) (repeat s) (speed s) (showSpeed s) (imgLoaded s) (imgError s).
Definition setCurrentTime (x : Q) (s : State) : State :=
  mkState (playing s) x (duration s) (volume s) (prevVolume s) (muted s)
    (loading s) (buffered s) (repeat s) (speed s) (showSpeed s) (imgLoaded s) (imgError s).
Definition setDuration (x : option Q) (s : State) : State :=
  mkState (playing s) (currentTime s) x (volume s) (prevVolume s) (muted s)
    (loading s) (buffered s) (repeat s) (speed s) (showSpeed s) (imgLoaded s) (imgError s).
Definition setVolume (x : Q) (s : State) : State :=
  mkState (playing s) (currentTime s) (duration s) x (prevVolume s) (muted s)
    (loading s) (buffered s) (repeat s) (speed s) (showSpeed s) (imgLoaded s) (imgError s).
Definition setPrevVolume (x : Q) (s : State) : State :=
  mkState (playing s) (currentTime s) (duration s) (volume s) x (muted s)
    (loading s) (buffered s) (repeat s) (speed s) (showSpeed s) (imgLoaded s) (imgError s).
Definition setMuted (x : bool) (s : State) : State :=
  mkState (playing s) (currentTime s) (duration s) (volume s) (prevVolume s) x
    (loading s) (buffered s) (repeat s) (speed s) (showSpeed s) (imgLoaded s) (imgError s).
Definition setLoading (x : bool) (s : State) : State :=
  mkState (playing s) (currentTime s) (duration s) (volume s) (prevVolume s) (muted s)
    x (buffered s) (repeat s) (speed s) (showSpeed s) (imgLoaded s) (imgError s).
Definition setBuffered (x : Q) (s : State) : State :=
  mkState (playing s) (currentTime s) (duration s) (volume s) (prevVolume s) (muted s)
    (loading s) x (repeat s) (speed s) (showSpeed s) (imgLoaded s) (imgError s).
Definition setRepeat (x : bool) (s : State) : State :=
  mkState (playing s) (currentTime s) (duration s) (volume s) (prevVolume s) (muted s)
    (loading s) (buffered s) x (speed s) (showSpeed s) (imgLoaded s) (imgError s).
Definition setShowSpeed (x : bool) (s : State) : State :=
  mkState (playing s) (currentTime s) (duration s) (volume s) (prevVolume s) (muted s)
    (loading s) (buffered s) (repeat s) (speed s) x (imgLoaded s) (imgError s).
Definition setImgLoaded (x : bool) (s : State) : State :=
  mkState (playing s) (currentTime s) (duration s) (volume s) (prevVolume s) (muted s)
    (loading s) (buffered s) (repeat s) (speed s) (showSpeed s) x (imgError s).
Definition setImgError (x : bool) (s : State) : State :=
  mkState (playing s) (currentTime s) (duration s) (volume s) (prevVolume s) (muted s)
    (loading s) (buffered s) (repeat s) (speed s) (showSpeed s) (imgLoaded s) x.

Definition initial : State :=
  mkState false 0 (Some 0) (75 # 100) (75 # 100) false true 0 false 1 false false false.

(** [muted ? 0 : volume]: the value shown by the slider and handed to
    the element. *)
Definition effective (s : State) : Q := if muted s then 0 else volume s.

(** The component: its state and [audioRef.current] ([null] while the
    Mega frame is rendered in place of the [<audio>] element). *)
Record Player := mkPlayer { st : State; audio : option Media.Element }.

(** Effect on [[volume, muted]]: [audio.volume = muted ? 0 : volume]. *)
Definition sync_volume (old new : State) (a : option Media.Element)
  : option Media.Element :=
  if Num.eqb (volume old) (volume new) && Bool.eqb (muted old) (muted new)
  then a
  else match a with
       | Some e => Some (Media.set_volume (effective new) e)
       | None => None
       end.

(** Effect on [[speed]]. *)
Definition sync_speed (old new : State) (a : option Media.Element)
  : option Media.Element :=
  if Num.eqb (speed old) (speed new)
  then a
  else match a with
       | Some e => Some (Media.set_playbackRate (speed new) e)
       | None => None
       end.

Definition commit (p : Player) (new : State) : Player :=
  mkPlayer new (sync_speed (st p) new (sync_volume (st p) new (audio p))).

(** Effect on [[item.id]]: "Reset image state when item changes". *)
Definition resetImage (p : Player) : Player :=
  mkPlayer (setImgError false (setImgLoaded false (st p))) (audio p).

(** Effect on [[item.id]]: "Load new track". *)
Definition loadTrack (link : string) (p : Player) : Player :=
  match audio p with
  | None => p
  | Some a =>
      if isMegaLink link then p
      else
        let s := st p in
        let s' :=
          setShowSpeed false
            (setBuffered 0
               (setDuration (Some 0)
                  (setCurrentTime 0 (setPlaying false (setLoading true s))))) in
        let a' :=
          Media.set_playbackRate (speed s)
            (Media.set_volume (volume s)
               (Media.load (Media.set_src link (Media.pause a)))) in
        mkPlayer s' (Some a')
  end.

(** The item identity changes: both effects on [[item.id]] run, in
    source order. *)
Definition changeItem (link : string) (p : Player) : Player :=
  loadTrack link (resetImage p).

Definition handleProgressClick (clientX : Q) (bar : option Rect) (p : Player)
  : Player :=
  match audio p, bar with
  | Some a, Some rect =>
      if Num.falsy (Media.duration a) then p
      else match Media.duration a, click_fraction clientX rect with
           | Some d, Some f =>
               let a' := Media.set_currentTime (f * d) a in
               mkPlayer (setCurrentTime (Media.currentTime a') (st p)) (Some a')
           | _, _ => p   (* a [NaN] position: the assignment throws *)
           end
  | _, _ => p
  end.

Definition handleVolumeChange (v : Q) (p : Player) : Player :=
  let s := st p in
  let s1 := setMuted (Num.eqb v 0) (setVolume v s) in
  commit p (if Num.gtb v 0 then setPrevVolume v s1 else s1).

Definition toggleMute (p : Player) : Player :=
  let s := st p in
  if muted s || Num.eqb (volume s) 0 then
    let r := if Num.gtb (prevVolume s) 0 then prevVolume s else 5 # 10 in
    commit p (setMuted false (setVolume r s))
  else
    commit p (setMuted true (setPrevVolume (volume s) s)).

(** The [ended] event of the element.  [allowed] is the platform's answer
    to [play()]; the second component lists the calls made to the host. *)
Definition handleEnded (allowed : bool) (p : Player) : Player * list HostCall :=
  if repeat (st p) then
    match audio p with
    | Some a =>
        (mkPlayer (st p) (Some (Media.play allowed (Media.set_currentTime 0 a))), [])
    | None => (p, [])
    end
  else (p, [onEnded]).

Definition fresh_element : Media.Element :=
  Media.mkElement "" true 0 None 1 false 1.

(** First render: the [<audio>] element exists unless the link is a
    Mega link; every effect runs once, in source order. *)
Definition mount (link : string) : Player :=
  let ref := if isMegaLink link then None else Some fresh_element in
  let p := changeItem link (mkPlayer initial ref) in
  let s := st p in
  mkPlayer s
    (option_map
       (fun e =>
          Media.set_playbackRate (speed s)
            (Media.set_volume (effective s) e))
       (audio p)).

Definition same_volume_fields (s s' : State) : Prop :=
  volume s' = volume s /\ prevVolume s' = prevVolume s /\ muted s' = muted s.

(** The element plays at the effective volume. *)
Definition in_sync (p : Player) : Prop :=
  match audio p with
  | Some e => Media.output e == effective (st p)
  | None => True
  end.

(** The reset as the specification words it: every cell back at its
    default, volume, mute and rate alone kept. *)
Definition reset_keeping_preferences (s : State) : State :=
  mkState false 0 (Some 0) (volume s) (prevVolume s) (muted s)
    true 0 false (speed s) false false false.

(** One event of the mounted player; [step_other] stands for the
    handlers that write no volume field. *)
Inductive step : Player -> Player -> Prop :=
| step_volume p v : 0 <= v <= 1 -> step p (handleVolumeChange v p)
| step_mute p : step p (toggleMute p)
| step_change p link : step p (changeItem link p)
| step_seek p x bar : step p (handleProgressClick x bar p)
| step_ended p allowed : step p (fst (handleEnded allowed p))
| step_other p p' : same_volume_fields (st p) (st p') -> step p p'.

Inductive reachable : Player -> Prop :=
| reach_mount link : reachable (mount link)
| reach_step p p' : reachable p -> step p p' -> reachable p'.

End Audio.

(** ** Embedded-player controller ([YouTubePlayer]) *)

Module YouTube.

Record State := mkState {
  ready : bool;
  loading : bool;
  errorState : bool;
  isFullscreen : bool;
  showOverlay : bool;
  currentQuality : string;
  playingSuggestion : bool;
  suggestionTitle : string
}.

Definition setReady (x : bool) (s : State) : State :=
  mkState x (loading s) (errorState s) (isFullscreen s) (showOverlay s)
    (currentQuality s) (playingSuggestion s) (suggestionTitle s).
Definition setLoading (x : bool) (s : State) : State :=
  mkState (ready s) x (errorState s) (isFullscreen s) (showOverlay s)
    (currentQuality s) (playingSuggestion s) (suggestionTitle s).
Definition setErrorState (x : bool) (s : State) : State :=
  mkState (ready s) (loading s) x (isFullscreen s) (showOverlay s)
    (currentQuality s) (playingSuggestion s) (suggestionTitle s).
Definition setCurrentQuality (x : string) (s : State) : State :=
  mkState (ready s) (loading s) (errorState s) (isFullscreen s) (showOverlay s)
    x (playingSuggestion s) (suggestionTitle s).
Definition setPlayingSuggestion (x : bool) (s : State) : State :=
  mkState (ready s) (loading s) (errorState s) (isFullscreen s) (showOverlay s)
    (currentQuality s) x (suggestionTitle s).
Definition setSuggestionTitle (x : string) (s : State) : State :=
  mkState (ready s) (loading s) (errorState s) (isFullscreen s) (showOverlay s)
    (currentQuality s) (playingSuggestion s) x.

Definition initial : State := mkState false true false false true "" false "".

(** The variables closed over by one run of the effect on [[videoId]]:
    [let destroyed = false; let attempts = 0;], and the timer that
    [setTimeout(check, 200)] left pending, with the time it is due. *)
Record Instance := mkInstance {
  videoId : string;
  destroyed : bool;
  attempts : nat;
  timer : option nat
}.

Definition set_destroyed (x : bool) (i : Instance) : Instance :=
  mkInstance (videoId i) x (attempts i) (timer i).
Definition set_attempts (x : nat) (i : Instance) : Instance :=
  mkInstance (videoId i) (destroyed i) x (timer i).
Definition set_timer (x : option nat) (i : Instance) : Instance :=
  mkInstance (videoId i) (destroyed i) (attempts i) x.

(** The component and what surrounds it.  Every run of the effect adds
    an instance to [insts]; [current] is the run whose cleanup is still
    to come; [playerRef] names the run that created the external player
    held in [playerRef.current]. *)
Record World := mkWorld {
  st : State;
  mounted : bool;                (* [ytRef.current] is not [null] *)
  insts : list Instance;
  current : option nat;
  playerRef : option nat;
  memoVideoId : string;          (* [videoId] of the last render *)
  expectedVideoId : string;      (* [expectedVideoId.current] *)
  clock : nat;                   (* milliseconds *)
  hostCalls : list HostCall      (* latest first *)
}.

Definition set_st (x : State) (w : World) : World :=
  mkWorld x (mounted w) (insts w) (current w) (playerRef w) (memoVideoId w)
    (expectedVideoId w) (clock w) (hostCalls w).
Definition set_mounted (x : bool) (w : World) : World :=
  mkWorld (st w) x (insts w) (current w) (playerRef w) (memoVideoId w)
    (expectedVideoId w) (clock w) (hostCalls w).
Definition set_insts (x : list Instance) (w : World) : World :=
  mkWorld (st w) (mounted w) x (current w) (playerRef w) (memoVideoId w)
    (expectedVideoId w) (clock w) (hostCalls w).
Definition set_current (x : option nat) (w : World) : World :=
  mkWorld (st w) (mounted w) (insts w) x (playerRef w) (memoVideoId w)
    (expectedVideoId w) (clock w) (hostCalls w).
Definition set_playerRef (x : option nat) (w : World) : World :=
  mkWorld (st w) (mounted w) (insts w) (current w) x (memoVideoId w)
    (expectedVideoId w) (clock w) (hostCalls w).
Definition set_memoVideoId (x : string) (w : World) : World :=
  mkWorld (st w) (mounted w) (insts w) (current w) (playerRef w) x
    (expectedVideoId w) (clock w) (hostCalls w).
Definition set_expectedVideoId (x : string) (w : World) : World :=
  mkWorld (st w) (mounted w) (insts w) (current w) (playerRef w) (memoVideoId w)
    x (clock w) (hostCalls w).
Definition set_clock (x : nat) (w : World) : World :=
  mkWorld (st w) (mounted w) (insts w) (current w) (playerRef w) (memoVideoId w)
    (expectedVideoId w) x (hostCalls w).
Definition call_host (c : HostCall) (w : World) : World :=
  mkWorld (st w) (mounted w) (insts w) (current w) (playerRef w) (memoVideoId w)
    (expectedVideoId w) (clock w) (c :: hostCalls w).

Definition update (f : State -> State) (w : World) : World := set_st (f (st w)) w.
Definition update_inst (i : nat) (f : Instance -> Instance) (w : World) : World :=
  match insts w !! i with
  | Some inst => set_insts (<[i := f inst]> (insts w)) w
  | None => w
  end.

(** [init] of run [i]. *)
Definition init (i : nat) (w : World) : World :=
  match insts w !! i with
  | None => w
  | Some inst =>
      if destroyed inst || negb (mounted w) then w
      else
        (* [playerRef.current.destroy(); playerRef.current = null;] *)
        let w1 := set_playerRef None w in
        let w2 :=
          update (fun s =>
            setSuggestionTitle ""
              (setPlayingSuggestion false
                 (setCurrentQuality ""
                    (setErrorState false (setReady false (setLoading true s)))))) w1 in
        (* [playerRef.current = new YT.Player(div, ...)] *)
        set_playerRef (Some i) w2
  end.

(** [check] of run [i]; [avail] tells whether [window.YT?.Player] is
    there at this moment. *)
Definition check (avail : bool) (i : nat) (w : World) : World :=
  match insts w !! i with
  | None => w
  | Some inst =>
      if destroyed inst then w
      else if avail then init i w
      else
        let n := S (attempts inst) in
        if Nat.ltb n 50
        then update_inst i (fun x => set_timer (Some (clock w + 200)) (set_attempts n x)) w
        else update (setLoading false) (update_inst i (set_attempts n) w)
  end.

(** The states reported by [onStateChange]. *)
Inductive PlayerState := PLAYING | BUFFERING | ENDED | OTHER.

(** What the external player answers when asked; [None] is a thrown
    exception, an empty string is any falsy answer. *)
Record Replies := mkReplies {
  getPlaybackQuality : option string;
  getVideoUrl : option string;
  getVideoData_title : option string
}.

Definition truthy (s : string) : bool := negb (String.eqb s "").

(** [playerRef.current?.m?.()]: nothing to ask when the ref is [null]. *)
Definition ask (w : World) (r : option string) : option string :=
  match playerRef w with
  | Some _ => r
  | None => Some ""
  end.

Definition onReady (i : nat) (w : World) : World :=
  match insts w !! i with
  | None => w
  | Some inst =>
      if destroyed inst then w
      else update (fun s => setLoading false (setReady true s)) w
  end.

Definition onPlaying (r : Replies) (w : World) : World :=
  let w1 := update (setLoading false) w in
  let w2 :=
    match ask w1 (getPlaybackQuality r) with
    | Some q => if truthy q then update (setCurrentQuality q) w1 else w1
    | None => w1
    end in
  match ask w2 (getVideoUrl r) with
  | None => w2
  | Some nowUrl =>
      let nowId := getYTVideoId nowUrl in
      if truthy nowId && negb (String.eqb nowId (expectedVideoId w2)) then
        let w3 := update (setPlayingSuggestion true) w2 in
        match ask w3 (getVideoData_title r) with
        | None => w3
        | Some t =>
            update (setSuggestionTitle (if truthy t then t else "YouTube Suggestion")) w3
        end
      else update (fun s => setSuggestionTitle "" (setPlayingSuggestion false s)) w2
  end.

Definition onStateChange (i : nat) (e : PlayerState) (r : Replies) (w : World)
  : World :=
  match insts w !! i with
  | None => w
  | Some inst =>
      if destroyed inst then w
      else match e with
           | PLAYING => onPlaying r w
           | BUFFERING => update (setLoading true) w
           | ENDED => call_host onEnded w
           | OTHER => w
           end
  end.

Definition onPlaybackQualityChange (i : nat) (data : string) (w : World) : World :=
  match insts w !! i with
  | None => w
  | Some inst =>
      if negb (destroyed inst) then update (setCurrentQuality data) w else w
  end.

Definition onError (i : nat) (w : World) : World :=
  match insts w !! i with
  | None => w
  | Some inst =>
      if negb (destroyed inst)
      then update (fun s => setErrorState true (setLoading false s)) w
      else w
  end.

(** A pending [setTimeout(check, 200)] of run [i] comes due. *)
Definition timerFires (avail : bool) (i : nat) (w : World) : World :=
  match insts w !! i with
  | None => w
  | Some inst =>
      match timer inst with
      | None => w
      | Some due =>
          check avail i
            (set_clock (Nat.max (clock w) due) (update_inst i (set_timer None) w))
      end
  end.

(** The cleanup returned by the effect. *)
Definition cleanup (w : World) : World :=
  match current w with
  | None => w
  | Some i =>
      set_current None
        (set_playerRef None (update_inst i (set_destroyed true) w))
  end.

(** The body of the effect on [[videoId]], after the cleanup of the
    previous run. *)
Definition effect (avail : bool) (vid : string) (w : World) : World :=
  if negb (truthy vid) then w
  else
    let i := length (insts w) in
    check avail i
      (set_current (Some i) (set_insts (insts w ++ [mkInstance vid false 0 None])%list w)).

(** A render with a new [item]: [useMemo] recomputes [videoId]; when it
    differs, the old run is cleaned up, then the effects on [[videoId]]
    run in source order. *)
Definition itemChange (avail : bool) (link : string) (w : World) : World :=
  let vid := getYTVideoId link in
  if String.eqb vid (memoVideoId w) then w
  else effect avail vid (set_expectedVideoId vid (cleanup (set_memoVideoId vid w))).

Definition unmount (w : World) : World := set_mounted false (cleanup w).

(** "Back to playlist". *)
Definition backToPlaylist (w : World) : World :=
  update (fun s => setSuggestionTitle "" (setPlayingSuggestion false s)) w.

Definition mount (avail : bool) (link : string) : World :=
  let vid := getYTVideoId link in
  effect avail vid (mkWorld initial true [] None None vid vid 0 []).

Inductive Event :=
| ItemChange (avail : bool) (link : string)
| Unmount
| TimerFires (avail : bool) (i : nat)
| OnReady (i : nat)
| OnStateChange (i : nat) (e : PlayerState) (r : Replies)
| OnPlaybackQualityChange (i : nat) (data : string)
| OnError (i : nat)
| BackToPlaylist.

Definition apply (ev : Event) (w : World) : World :=
  match ev with
  | ItemChange avail link => itemChange avail link w
  | Unmount => unmount w
  | TimerFires avail i => timerFires avail i w
  | OnReady i => onReady i w
  | OnStateChange i e r => onStateChange i e r w
  | OnPlaybackQualityChange i data => onPlaybackQualityChange i data w
  | OnError i => onError i w
  | BackToPlaylist => backToPlaylist w
  end.

(** The events in the order they happen. *)
Definition run (evs : list Event) (w : World) : World :=
  fold_left (fun acc ev => apply ev acc) evs w.

(** The asynchronous callbacks that belong to run [i]. *)
Definition callback_of (i : nat) (ev : Event) : Prop :=
  match ev with
  | TimerFires _ j | OnReady j | OnStateChange j _ _
  | OnPlaybackQualityChange j _ | OnError j => j = i
  | ItemChange _ _ | Unmount | BackToPlaylist => False
  end.

(** Run [i] was torn down. *)
Definition torn_down (i : nat) (w : World) : Prop :=
  exists inst, insts w !! i = Some inst /\ destroyed inst = true.

(** What the liveness guards read: the current run and the [destroyed]
    flags of all runs. *)
Definition liveness (w : World) : option nat * list bool :=
  (current w, destroyed <$> insts w).

(** Every run but the current one was torn down. *)
Definition others_torn_down (l : option nat * list bool) : Prop :=
  forall i d, l.2 !! i = Some d -> l.1 <> Some i -> d = true.



End YouTube.

(** ** The remaining helpers of [src/types.ts] *)

(** Truthiness of a string: every string but the empty one. *)
Definition nonempty (s : string) : bool := negb (String.eqb s "").

Definition getYouTubeEmbedUrl (url : string) : string :=
  match Js.search youtube_id_here url with
  | Some m => "https://www.youtube.com/embed/" ++ m ++ "?rel=0&modestbranding=1"
  | None => url
  end.

(** [null] is [None]. *)
Definition getYouTubeThumbnail (url : string) : option string :=
  let id := getYouTubeVideoId url in
  if nonempty id
  then Some ("https://img.youtube.com/vi/" ++ id ++ "/hqdefault.jpg")
  else None.

(** [MediaItem]; an optional field left out of the data is [None]. *)
Module Item.

Record t := mk {
  id : string;
  title : string;
  description : string;
  link : string;
  thumbnail : option string;
  duration : option string;
  category : option string;
  rating : option Q;
  views : option Z;
  plays : option Z;
  publish_date : option string;
  author : option string;
  host : option string;
  tags : option (list string);
  cover : option string
}.

End Item.

(** [o || ''] and [!!o] for an optional string. *)
Definition or_empty (o : option string) : string :=
  match o with
  | Some s => s
  | None => EmptyString
  end.

Definition getThumbnail (item : Item.t) : option string :=
  if nonempty (or_empty (Item.thumbnail item)) then Item.thumbnail item
  else if isYouTubeLink (Item.link item) then getYouTubeThumbnail (Item.link item)
  else None.

(** [toString] of a whole number in the range [0, 10^21), where
    JavaScript prints plain decimal digits. *)
Definition decimal (z : Z) : string :=
  NilEmpty.string_of_uint (N.to_uint (Z.to_N z)).

(** [s.padStart(n, c)] with a one-unit filler [c]. *)
Fixpoint fill (n : nat) (c : ascii) : string :=
  match n with
  | O => EmptyString
  | S n' => String c (fill n' c)
  end.

Definition padStart (n : nat) (c : ascii) (s : string) : string :=
  fill (n - String.length s) c ++ s.

(** [a % b] on finite numbers, [b] not zero: the remainder has the sign
    of [a]. *)
Definition js_rem (a b : Q) : Q :=
  let q := (a / b)%Q in
  (a - b * inject_Z (if Qle_bool 0 q then Qfloor q else Qceiling q))%Q.

(** [formatTime]; [None] is [NaN], [Some x] a finite number.  The
    arithmetic is exact; on double-precision numbers below 2^53 the
    three floors are those of the exact quotients. *)
Definition formatTime (seconds : option Q) : string :=
  match seconds with
  | None => "0:00"
  | Some x =>
      if Num.gtb 0 x then "0:00"
      else
        let h := Qfloor (x / 3600) in
        let m := Qfloor (js_rem x 3600 / 60) in
        let s := Qfloor (js_rem x 60) in
        if (h >? 0)%Z
        then decimal h ++ ":" ++ padStart 2 "0" (decimal m)
                       ++ ":" ++ padStart 2 "0" (decimal s)
        else decimal m ++ ":" ++ padStart 2 "0" (decimal s)
  end.

(** [getResLabel] of the video player; [h] is [videoHeight], a whole
    number. *)
Definition getResLabel (h : Z) : string :=
  if (h >=? 2160)%Z then "2160p (4K)"
  else if (h >=? 1440)%Z then "1440p"
  else if (h >=? 1080)%Z then "1080p"
  else if (h >=? 720)%Z then "720p"
  else if (h >=? 480)%Z then "480p"
  else if (h >=? 360)%Z then "360p"
  else if (h >=? 240)%Z then "240p"
  else if (h >? 0)%Z then decimal h ++ "p" else "".

(** ** The hosting application ([src/App.tsx]): the current index of each list *)

Module App.

Inductive SectionType := video | music | gallery | podcast.

(** An index cell holds a number: a whole number, or [NaN] ([None]). *)
Record State := mkState {
  activeSection : SectionType;
  videoIdx : option Z;
  musicIdx : option Z;
  podcastIdx : option Z
}.

Definition initial : State := mkState video (Some 0%Z) (Some 0%Z) (Some 0%Z).

(** [a % n] on whole numbers: [NaN] when [n] is zero. *)
Definition rem (a n : Z) : option Z :=
  if (n =? 0)%Z then None else Some (Z.rem a n).

(** [p => (p + 1) % length] and [p => (p - 1 + length) % length]. *)
Definition next (len : nat) (p : option Z) : option Z :=
  match p with
  | Some i => rem (i + 1) (Z.of_nat len)
  | None => None
  end.

Definition prev (len : nat) (p : option Z) : option Z :=
  match p with
  | Some i => rem (i - 1 + Z.of_nat len) (Z.of_nat len)
  | None => None
  end.

(** [list[idx]]: [undefined] ([None]) off the list or at [NaN]. *)
Definition at_index {A : Type} (l : list A) (p : option Z) : option A :=
  match p with
  | Some i => if (i <? 0)%Z then None else l !! Z.to_nat i
  | None => None
  end.

Definition nextVideo (videos : nat) (s : State) : State :=
  mkState (activeSection s) (next videos (videoIdx s)) (musicIdx s) (podcastIdx s).
Definition prevVideo (videos : nat) (s : State) : State :=
  mkState (activeSection s) (prev videos (videoIdx s)) (musicIdx s) (podcastIdx s).
Definition nextMusic (music : nat) (s : State) : State :=
  mkState (activeSection s) (videoIdx s) (next music (musicIdx s)) (podcastIdx s).
Definition prevMusic (music : nat) (s : State) : State :=
  mkState (activeSection s) (videoIdx s) (prev music (musicIdx s)) (podcastIdx s).
Definition nextPodcast (podcasts : nat) (s : State) : State :=
  mkState (activeSection s) (videoIdx s) (musicIdx s) (next podcasts (podcastIdx s)).
Definition prevPodcast (podcasts : nat) (s : State) : State :=
  mkState (activeSection s) (videoIdx s) (musicIdx s) (prev podcasts (podcastIdx s)).

Definition handleGalleryNavigate (section : SectionType) (index : Z) (s : State)
  : State :=
  match section with
  | video => mkState section (Some index) (musicIdx s) (podcastIdx s)
  | music => mkState section (videoIdx s) (Some index) (podcastIdx s)
  | podcast => mkState section (videoIdx s) (musicIdx s) (Some index)
  | gallery => mkState section (videoIdx s) (musicIdx s) (podcastIdx s)
  end.

End App.

(** ** The playlist and the gallery ([src/components/Playlist.tsx], gallery file) *)

Section Lists.

(** [String.prototype.toLowerCase], a platform function. *)
Variable toLowerCase : string -> string.

(** [field.toLowerCase().includes(q)] *)
Definition field_has (q field : string) : bool := Js.includes (toLowerCase field) q.

Definition tags_have (q : string) (tags : option (list string)) : bool :=
  match tags with
  | Some ts => existsb (field_has q) ts
  | None => false
  end.

Definition matchCat (selectedCategory : string) (item : Item.t) : bool :=
  String.eqb selectedCategory "All"
  || match Item.category item with
     | Some c => String.eqb c selectedCategory
     | None => false
     end.

Definition playlist_matchSearch (search : string) (item : Item.t) : bool :=
  let q := toLowerCase search in
  negb (nonempty q)
  || field_has q (Item.title item)
  || field_has q (Item.description item)
  || tags_have q (Item.tags item)
  || field_has q (or_empty (Item.author item))
  || field_has q (or_empty (Item.host item)).

(** [filtered] of the playlist. *)
Definition playlist_filtered (items : list Item.t) (search selectedCategory : string)
  : list Item.t :=
  List.filter
    (fun item => playlist_matchSearch search item && matchCat selectedCategory item)
    items.

(** [Array.from(new Set(l))]: first occurrences, in order. *)
Definition set_from (l : list string) : list string :=
  fold_left (fun acc c => if existsb (String.eqb c) acc then acc else (acc ++ [c])%list)
    l [].

(** [items.map(i => i.category).filter(c => !!c)] *)
Definition item_categories (items : list Item.t) : list string :=
  List.filter nonempty (List.map (fun i => or_empty (Item.category i)) items).

Definition categories (items : list Item.t) : list string :=
  "All" :: set_from (item_categories items).

(** The row of chips, rendered under [categories.length > 2]: one chip
    for each entry of [categories], or none at all. *)
Definition chips (items : list Item.t) : list string :=
  if Nat.ltb 2 (length (categories items)) then categories items else [].

(** [Array.prototype.findIndex]: [-1] when nothing is found. *)
Fixpoint findIndex_from {A : Type} (f : A -> bool) (l : list A) (k : Z) : Z :=
  match l with
  | [] => (-1)%Z
  | x :: l' => if f x then k else findIndex_from f l' (k + 1)%Z
  end.

Definition findIndex {A : Type} (f : A -> bool) (l : list A) : Z :=
  findIndex_from f l 0%Z.

(** The index that a click on the row of [item] hands to [onSelect]. *)
Definition row_index (items : list Item.t) (item : Item.t) : Z :=
  findIndex (fun i => String.eqb (Item.id i) (Item.id item)) items.

(** The gallery. *)
Inductive MediaType := type_video | type_music | type_podcast.

Record GalleryItem := mkGalleryItem {
  base : Item.t;
  mediaType : MediaType;
  originalIndex : nat
}.

Definition allItems (videos music podcasts : list Item.t) : list GalleryItem :=
  (imap (fun i v => mkGalleryItem v type_video i) videos
   ++ imap (fun i m => mkGalleryItem m type_music i) music
   ++ imap (fun i p => mkGalleryItem p type_podcast i) podcasts)%list.

Definition type_eqb (a b : MediaType) : bool :=
  match a, b with
  | type_video, type_video | type_music, type_music | type_podcast, type_podcast => true
  | _, _ => false
  end.

Definition gallery_matchSearch (search : string) (item : GalleryItem) : bool :=
  let q := toLowerCase search in
  let i := base item in
  negb (nonempty q)
  || field_has q (Item.title i)
  || field_has q (Item.description i)
  || field_has q (or_empty (Item.category i))
  || tags_have q (Item.tags i)
  || field_has q (or_empty (Item.author i))
  || field_has q (or_empty (Item.host i)).

(** [typeFilter]: ['all'] is [None]. *)
Definition gallery_filtered (all : list GalleryItem) (search : string)
  (typeFilter : option MediaType) : list GalleryItem :=
  List.filter
    (fun item =>
       match typeFilter with
       | None => true
       | Some ty => type_eqb (mediaType item) ty
       end
       && gallery_matchSearch search item)
    all.

Definition sectionMap (ty : MediaType) : App.SectionType :=
  match ty with
  | type_video => App.video
  | type_music => App.music
  | type_podcast => App.podcast
  end.

(** [handleClick] of a tile, with [onNavigate] bound to
    [handleGalleryNavigate] as the application does. *)
Definition gallery_handleClick (item : GalleryItem) (s : App.State) : App.State :=
  App.handleGalleryNavigate (sectionMap (mediaType item))
    (Z.of_nat (originalIndex item)) s.

Definition gallery_isActive (s : App.State) (item : GalleryItem) : bool :=
  let same (p : option Z) :=
    match p with
    | Some i => (Z.of_nat (originalIndex item) =? i)%Z
    | None => false
    end in
  match mediaType item with
  | type_video => same (App.videoIdx s)
  | type_music => same (App.musicIdx s)
  | type_podcast => same (App.podcastIdx s)
  end.

End Lists.

(** ** Fullscreen and orientation helpers ([VideoPlayer.tsx]) *)

Module Fullscreen.

(** What the platform does with a method of an element, of [document] or
    of [screen.orientation]: the method may be missing (a falsy
    property); the call may throw at once; it may return a promise that
    rejects; or it may return anything else (a promise that resolves, or
    a plain value). *)
Inductive Method := missing | throws | rejects | resolves.

(** [try { await el.m(); return true; } catch { }] against
    [try { el.m(); return true; } catch { }]: a call that throws at once
    is caught either way; a rejection is caught only when the call is
    awaited, and otherwise the call is taken for a success. *)
Definition accepted (awaited : bool) (m : Method) : bool :=
  match m with
  | missing => false
  | throws => false
  | rejects => negb awaited
  | resolves => true
  end.

(** The request methods of an element, in the order [requestFS] tries
    them. *)
Record Target := mkTarget {
  requestFullscreen : Method;
  webkitRequestFullscreen : Method;
  webkitRequestFullScreen : Method;
  mozRequestFullScreen : Method;
  msRequestFullscreen : Method
}.

(** A [<video>] element has two entry methods of its own besides. *)
Record VideoTarget := mkVideoTarget {
  webkitEnterFullscreen : Method;
  webkitEnterFullScreen : Method;
  as_target : Target
}.

(** The exit methods of [document], in the order [exitFS] tries them. *)
Record Document := mkDocument {
  exitFullscreen : Method;
  webkitExitFullscreen : Method;
  webkitCancelFullScreen : Method;
  mozCancelFullScreen : Method;
  msExitFullscreen : Method
}.

(** [screen.orientation]. *)
Record Orientation := mkOrientation { lock : Method; unlock : Method }.

Inductive Who := the_container | the_video | the_iframe | the_document | the_screen.

(** A call that was made: on what, and which method. *)
Definition Call : Type := Who * string.

(** [if (el.m) { try { [await] el.m(); return true; } catch { } }], one
    after the other, then [return false]: the answer and the calls made.
    Each entry tells the name of the method, whether its call is awaited,
    and what the platform does with it. *)
Fixpoint try_each (who : Who) (ms : list (string * bool * Method))
  : bool * list Call :=
  match ms with
  | [] => (false, [])
  | (name, awaited, m) :: rest =>
      match m with
      | missing => try_each who rest
      | _ =>
          if accepted awaited m then (true, [(who, name)])
          else let r := try_each who rest in (fst r, (who, name) :: snd r)
      end
  end.

(** Only the standard method is awaited. *)
Definition request_methods (t : Target) : list (string * bool * Method) :=
  [("requestFullscreen", true, requestFullscreen t);
   ("webkitRequestFullscreen", false, webkitRequestFullscreen t);
   ("webkitRequestFullScreen", false, webkitRequestFullScreen t);
   ("mozRequestFullScreen", false, mozRequestFullScreen t);
   ("msRequestFullscreen", false, msRequestFullscreen t)].

Definition exit_methods (d : Document) : list (string * bool * Method) :=
  [("exitFullscreen", true, exitFullscreen d);
   ("webkitExitFullscreen", false, webkitExitFullscreen d);
   ("webkitCancelFullScreen", false, webkitCancelFullScreen d);
   ("mozCancelFullScreen", false, mozCancelFullScreen d);
   ("msExitFullscreen", false, msExitFullscreen d)].

Definition requestFS (who : Who) (t : Target) : bool * list Call :=
  try_each who (request_methods t).

Definition exitFS (d : Document) : bool * list Call :=
  try_each the_document (exit_methods d).

(** [if (el.m) { try { el.m(); success = true; } catch { } }] on the
    running pair of [success] and the calls made so far; the call is not
    awaited. *)
Definition try_set (who : Who) (name : string) (m : Method) (s : bool * list Call)
  : bool * list Call :=
  match m with
  | missing => s
  | _ =>
      (if accepted false m then true else fst s, (snd s ++ [(who, name)])%list)
  end.

(** [lockLandscape] and [unlockOrientation]: the call is made when the
    method is there; what comes of it is ignored ([lock] is awaited
    inside a [try], [unlock] is called inside a [try]). *)
Definition lockLandscape (o : option Orientation) : list Call :=
  match o with
  | Some or =>
      match lock or with
      | missing => []
      | _ => [(the_screen, "lock")]
      end
  | None => []
  end.

Definition unlockOrientation (o : option Orientation) : list Call :=
  match o with
  | Some or =>
      match unlock or with
      | missing => []
      | _ => [(the_screen, "unlock")]
      end
  | None => []
  end.

(** [enterFullscreen(container, videoEl)]; [frame] is what
    [container.querySelector('iframe')] finds. *)
Definition enterFullscreen
  (container : Target) (videoEl : option VideoTarget) (frame : option Target)
  (o : option Orientation) : bool * list Call :=
  let s := requestFS the_container container in
  let s :=
    if negb (fst s) then
      match videoEl with
      | Some v =>
          let s := try_set the_video "webkitEnterFullscreen" (webkitEnterFullscreen v) s in
          let s :=
            if negb (fst s)
            then try_set the_video "webkitEnterFullScreen" (webkitEnterFullScreen v) s
            else s in
          if negb (fst s)
          then let r := requestFS the_video (as_target v) in
               (fst r, (snd s ++ snd r)%list)
          else s
      | None => s
      end
    else s in
  let s :=
    if negb (fst s) then
      match frame with
      | Some f => let r := requestFS the_iframe f in (fst r, (snd s ++ snd r)%list)
      | None => s
      end
    else s in
  if fst s then (true, (snd s ++ lockLandscape o)%list) else s.

Definition doExitFullscreen (d : Document) (o : option Orientation)
  : bool * list Call :=
  let r := exitFS d in
  if fst r then (true, (snd r ++ unlockOrientation o)%list) else r.

(** An attempt: the call, whether it is awaited, and what the platform
    does with it. *)
Definition Attempt : Type := Call * bool * Method.

Definition tagged (who : Who) (ms : list (string * bool * Method)) : list Attempt :=
  List.map (fun nm => ((who, fst (fst nm)), snd (fst nm), snd nm)) ms.

(** Every attempt [enterFullscreen] can make, in order. *)
Definition attempts
  (container : Target) (videoEl : option VideoTarget) (frame : option Target)
  : list Attempt :=
  (tagged the_container (request_methods container)
   ++ match videoEl with
      | Some v =>
          ((the_video, "webkitEnterFullscreen"), false, webkitEnterFullscreen v)
          :: ((the_video, "webkitEnterFullScreen"), false, webkitEnterFullScreen v)
          :: tagged the_video (request_methods (as_target v))
      | None => []
      end
   ++ match frame with
      | Some f => tagged the_iframe (request_methods f)
      | None => []
      end)%list.

Definition is_accepted (a : Attempt) : bool := accepted (snd (fst a)) (snd a).

Definition is_missing (a : Attempt) : bool :=
  match snd a with missing => true | _ => false end.

(** The calls made when the attempts are gone through until one is
    accepted: the missing methods are skipped, the others are called,
    and the first accepted call ends it. *)
Fixpoint until_accepted (l : list Attempt) : list Call :=
  match l with
  | [] => []
  | a :: rest =>
      if is_missing a then until_accepted rest
      else if is_accepted a then [fst (fst a)]
      else fst (fst a) :: until_accepted rest
  end.

Definition any_accepted (l : list Attempt) : bool := existsb is_accepted l.

(** Going through a list of attempts: whether one is accepted, and the
    calls made. *)
Definition through (l : list Attempt) : bool * list Call :=
  (any_accepted l, until_accepted l).

End Fullscreen.

(** ** Skipping ten seconds ([DirectVideoPlayer]) *)

Module Skip.

(** [v.duration || 0] *)
Definition duration_or_zero (d : option Q) : Q :=
  match d with
  | Some q => if Num.eqb q 0 then 0%Q else q
  | None => 0%Q
  end.

(** [if (v) v.currentTime = Math.min(v.currentTime + 10, v.duration || 0)] *)
Definition skipFwd (p : DirectVideo.Player) : DirectVideo.Player :=
  match DirectVideo.video p with
  | Some v =>
      DirectVideo.mkPlayer (DirectVideo.st p)
        (Some (Media.set_currentTime
                 (Qmin (Media.currentTime v + 10) (duration_or_zero (Media.duration v)))
                 v))
  | None => p
  end.

(** [if (v) v.currentTime = Math.max(v.currentTime - 10, 0)] *)
Definition skipBwd (p : DirectVideo.Player) : DirectVideo.Player :=
  match DirectVideo.video p with
  | Some v =>
      DirectVideo.mkPlayer (DirectVideo.st p)
        (Some (Media.set_currentTime (Qmax (Media.currentTime v - 10) 0) v))
  | None => p
  end.

(** The position of the element, when it is mounted. *)
Definition position (p : DirectVideo.Player) : option Q :=
  option_map Media.currentTime (DirectVideo.video p).

End Skip.

(** ** What stays true of the embedded-player controller *)

Module YouTubeInv.

(** A run of the effect is in order: it checked at most fifty times, a
    pending timer means fewer than fifty checks so far, the current run
    was started for the identifier of the current item, and the run that
    owns the external player is the current one, alive, with no timer
    pending. *)
Definition ok_inst (w : YouTube.World) (i : nat) (inst : YouTube.Instance) : Prop :=
  YouTube.attempts inst <= 50
  /\ (YouTube.timer inst <> None -> YouTube.attempts inst < 50)
  /\ (YouTube.current w = Some i -> YouTube.videoId inst = YouTube.memoVideoId w)
  /\ (YouTube.playerRef w = Some i ->
      YouTube.destroyed inst = false
      /\ YouTube.timer inst = None
      /\ YouTube.current w = Some i).

Definition insts_ok (w : YouTube.World) : Prop :=
  (forall i inst, YouTube.insts w !! i = Some inst -> ok_inst w i inst)
  /\ (forall i, YouTube.playerRef w = Some i -> is_Some (YouTube.insts w !! i))
  /\ YouTube.others_torn_down (YouTube.liveness w).

Definition good (w : YouTube.World) : Prop :=
  insts_ok w /\ YouTube.expectedVideoId w = YouTube.memoVideoId w.

(** An event other than a change of item. *)
Definition keeps_item (ev : YouTube.Event) : Prop :=
  match ev with
  | YouTube.ItemChange _ _ => False
  | _ => True
  end.

(** No run of the effect is alive and no player is held. *)
Definition idle (w : YouTube.World) : Prop :=
  YouTube.current w = None
  /\ YouTube.playerRef w = None
  /\ forall i inst, YouTube.insts w !! i = Some inst -> YouTube.destroyed inst = true.

(** The link of the item shown after the events: that of the last change
    of item, or the one the component was mounted with. *)
Definition latest_link (link : string) (evs : list YouTube.Event) : string :=
  fold_left (fun l ev => match ev with YouTube.ItemChange _ l' => l' | _ => l end)
            evs link.

End YouTubeInv.

(** ** Vocabulary of the statements *)

(** [m] is the literal [p] up to the comparison [eqc], unit by unit. *)
Fixpoint same_under (eqc : ascii -> ascii -> bool) (p m : string) : bool :=
  match p, m with
  | EmptyString, EmptyString => true
  | String a p', String b m' => eqc a b && same_under eqc p' m'
  | _, _ => false
  end.

Fixpoint all_units (cls : ascii -> bool) (s : string) : bool :=
  match s with
  | EmptyString => true
  | String c s' => cls c && all_units cls s'
  end.

(** The three accepted shapes of a scripted-embed link: what stands
    right before the identifier. *)
Definition id_markers : list string :=
  ["youtube.com/watch?v="; "youtu.be/"; "youtube.com/embed/"].

(** An identifier: eleven units of the class [[a-zA-Z0-9_-]]. *)
Definition valid_id (id : string) : Prop :=
  String.length id = 11 /\ all_units id_char id = true.

(** [url] shows one of the shapes right after [pre], carrying [id]. *)
Definition shape_at (url pre id : string) : Prop :=
  exists marker suf,
    In marker id_markers /\ valid_id id /\ url = pre ++ marker ++ id ++ suf.

(** No shape starts earlier in [url] than after [pre]. *)
Definition leftmost_shape (url pre : string) : Prop :=
  forall pre' id', shape_at url pre' id' -> String.length pre <= String.length pre'.

(** What a click at fraction [f] of the progress surface is to leave as
    position [t] on an item of duration [D]. *)
Definition seek_result (f D t : Q) : Prop :=
  ((f <= 0)%Q -> (t == 0)%Q)
  /\ ((1 <= f)%Q -> (t == D)%Q)
  /\ ((0 <= f <= 1)%Q -> (t == f * D)%Q).

(** The labels that name a threshold of [getResLabel]. *)
Definition res_labels : list string :=
  ["2160p (4K)"; "1440p"; "1080p"; "720p"; "480p"; "360p"; "240p"].

(** Reading a clock string back: the fields between colons, each a
    run of decimal digits, as a number of seconds. *)
Fixpoint split_colon (s : string) : list string :=
  match s with
  | EmptyString => [EmptyString]
  | String c s' =>
      if Ascii.eqb c ":" then EmptyString :: split_colon s'
      else match split_colon s' with
           | f :: fs => String c f :: fs
           | [] => [String c EmptyString]
           end
  end.

Definition parse_field (s : string) : option Z :=
  match NilEmpty.uint_of_string s with
  | Some d => Some (Z.of_N (N.of_uint d))
  | None => None
  end.

Definition parse_clock (s : string) : option Z :=
  match List.map parse_field (split_colon s) with
  | [Some m; Some sec] => Some (m * 60 + sec)%Z
  | [Some h; Some m; Some sec] => Some ((h * 60 + m) * 60 + sec)%Z
  | _ => None
  end.

Definition not_colon (c : ascii) : bool := negb (Ascii.eqb c ":").

(** The three index cells of [App], each with the two callbacks that
    write it. *)
Inductive Cell := video_cell | music_cell | podcast_cell.

Definition idx_of (c : Cell) (s : App.State) : option Z :=
  match c with
  | video_cell => App.videoIdx s
  | music_cell => App.musicIdx s
  | podcast_cell => App.podcastIdx s
  end.

Definition next_of (c : Cell) : nat -> App.State -> App.State :=
  match c with
  | video_cell => App.nextVideo
  | music_cell => App.nextMusic
  | podcast_cell => App.nextPodcast
  end.

Definition prev_of (c : Cell) : nat -> App.State -> App.State :=
  match c with
  | video_cell => App.prevVideo
  | music_cell => App.prevMusic
  | podcast_cell => App.prevPodcast
  end.

(** Any unit but the letter y. *)
Definition no_y (c : ascii) : bool := negb (Ascii.eqb c "y").

(** A host pattern occurs in [url], in any letter case. *)
Definition hosts_ci (hosts : list string) (url : string) : Prop :=
  exists pre m suf host,
    In host hosts /\ same_under Js.eq_ci host m = true /\ url = pre ++ m ++ suf.

(** ** Facts about the numbers *)

Module NumFacts.

#[local] Open Scope Q_scope.

Lemma gtb_lt (a b : Q) : Num.gtb a b = true <-> b < a.
Proof.
  unfold Num.gtb. rewrite negb_true_iff. split.
  - intros H. apply Qnot_le_lt. intros Hle.
    apply Qle_bool_iff in Hle. congruence.
  - intros H. destruct (Qle_bool a b) eqn:E; [|reflexivity].
    apply Qle_bool_iff in E. exfalso. apply (Qlt_not_le _ _ H E).
Qed.

Lemma gtb_false (a b : Q) : Num.gtb a b = false <-> a <= b.
Proof.
  unfold Num.gtb. rewrite negb_false_iff. apply Qle_bool_iff.
Qed.

Lemma eqb_eq (a b : Q) : Num.eqb a b = true <-> a == b.
Proof. apply Qeq_bool_iff. Qed.

Lemma eqb_neq (a b : Q) : Num.eqb a b = false <-> ~ a == b.
Proof.
  rewrite <- eqb_eq. destruct (Num.eqb a b); split; congruence.
Qed.

Lemma eqb_refl (a : Q) : Num.eqb a a = true.
Proof. apply eqb_eq. reflexivity. Qed.

Lemma pos_nonzero (a : Q) : 0 < a -> Num.eqb a 0 = false.
Proof.
  intros H. apply eqb_neq. intros E. rewrite E in H.
  apply (Qlt_irrefl _ H).
Qed.

(** The clamp of the click handlers, by cases. *)
Lemma clamp_low (f : Q) : f <= 0 -> Qmax 0 (Qmin 1 f) == 0.
Proof.
  intros H. rewrite Q.max_l; [reflexivity|].
  apply Qle_trans with f; [apply Q.le_min_r | assumption].
Qed.

Lemma clamp_high (f : Q) : 1 <= f -> Qmax 0 (Qmin 1 f) == 1.
Proof.
  intros H. rewrite Q.min_l by assumption. rewrite Q.max_r; [reflexivity|].
  discriminate.
Qed.

Lemma clamp_mid (f : Q) : 0 <= f <= 1 -> Qmax 0 (Qmin 1 f) == f.
Proof.
  intros [H0 H1]. rewrite Q.min_r by assumption. now rewrite Q.max_r.
Qed.

End NumFacts.

(** ** Facts about the string primitives *)

Module JsFacts.

Lemma app_assoc (a b c : string) : (a ++ b) ++ c = a ++ (b ++ c).
Proof. induction a as [|x a IH]; simpl; [reflexivity | now rewrite IH]. Qed.

Lemma app_length (a b : string) :
  String.length (a ++ b) = String.length a + String.length b.
Proof. induction a as [|x a IH]; simpl; [reflexivity | now rewrite IH]. Qed.

Lemma app_empty_r (a : string) : a ++ "" = a.
Proof. induction a as [|x a IH]; simpl; [reflexivity | now rewrite IH]. Qed.

Lemma lit_cs_Some (p s r : string) :
  Js.lit Js.eq_cs p s = Some r <-> s = p ++ r.
Proof.
  revert s. induction p as [|a p IH]; intros s; simpl.
  - split; [now intros [= ->] | now intros ->].
  - destruct s as [|b s]; [split; discriminate|].
    unfold Js.eq_cs at 1. destruct (Ascii.eqb_spec a b) as [->|Hne].
    + rewrite IH. split; [now intros -> | now intros [= ->]].
    + split; [discriminate | intros [= Hab _]; congruence].
Qed.

Lemma lit_under (eqc : ascii -> ascii -> bool) (p s r : string) :
  Js.lit eqc p s = Some r <->
  exists m, s = m ++ r /\ same_under eqc p m = true.
Proof.
  revert s. induction p as [|a p IH]; intros s; simpl.
  - split.
    + intros [= ->]. now exists "".
    + intros (m & -> & Hm). destruct m; [reflexivity | discriminate].
  - destruct s as [|b s].
    + split; [discriminate|]. intros (m & Hs & Hm).
      destruct m; [discriminate | simpl in Hs; discriminate].
    + destruct (eqc a b) eqn:Hab.
      * rewrite IH. split.
        -- intros (m & -> & Hm). exists (String b m). simpl. now rewrite Hab.
        -- intros (m & Hs & Hm). destruct m as [|c m]; [discriminate|].
           simpl in Hs. injection Hs as -> ->.
           apply andb_true_iff in Hm as [_ Hm]. now exists m.
      * split; [discriminate|]. intros (m & Hs & Hm).
        destruct m as [|c m]; [discriminate|].
        simpl in Hs. injection Hs as -> ->.
        rewrite Hab in Hm. discriminate.
Qed.

Section Search.
Context {A : Type} (here : string -> option A).

(** The start index found is the leftmost one at which the pattern
    matches. *)
Lemma search_Some (s : string) (r : A) :
  Js.search here s = Some r <->
  exists pre rest,
    s = pre ++ rest /\ here rest = Some r /\
    forall pre' rest', s = pre' ++ rest' ->
      String.length pre' < String.length pre -> here rest' = None.
Proof.
  induction s as [|c s IH]; simpl.
  - destruct (here "") eqn:H0.
    + split.
      * intros [= ->]. exists "", "". repeat split; [assumption|].
        intros ? ? _ Hlt. simpl in Hlt. lia.
      * intros (pre & rest & Hs & Hr & _).
        destruct pre; [|discriminate]. simpl in Hs. subst rest. congruence.
    + split; [discriminate|].
      intros (pre & rest & Hs & Hr & _).
      destruct pre; [|discriminate]. simpl in Hs. subst rest. congruence.
  - destruct (here (String c s)) eqn:H0.
    + split.
      * intros [= ->]. exists "", (String c s). repeat split; [assumption|].
        intros ? ? _ Hlt. simpl in Hlt. lia.
      * intros (pre & rest & Hs & Hr & Hfirst).
        destruct pre as [|x pre].
        -- simpl in Hs. subst rest. congruence.
        -- specialize (Hfirst "" (String c s) eq_refl). simpl in Hfirst.
           rewrite Hfirst in H0 by lia. discriminate.
    + rewrite IH. split.
      * intros (pre & rest & -> & Hr & Hfirst).
        exists (String c pre), rest. repeat split; [assumption|].
        intros pre' rest' Hs Hlt. destruct pre' as [|x pre'].
        -- simpl in Hs. subst rest'. assumption.
        -- simpl in Hs. injection Hs as -> Hs.
           apply (Hfirst pre' rest' Hs). simpl in Hlt. lia.
      * intros (pre & rest & Hs & Hr & Hfirst).
        destruct pre as [|x pre].
        -- simpl in Hs. subst rest. congruence.
        -- simpl in Hs. injection Hs as -> ->.
           exists pre, rest. repeat split; [assumption|].
           intros pre' rest' Hs Hlt.
           apply (Hfirst (String x pre') rest'); simpl; [now rewrite Hs | lia].
Qed.

Lemma search_None (s : string) :
  Js.search here s = None <->
  forall pre rest, s = pre ++ rest -> here rest = None.
Proof.
  induction s as [|c s IH]; simpl.
  - destruct (here "") eqn:H0.
    + split; [discriminate|]. intros H. specialize (H "" "" eq_refl). congruence.
    + split; [|reflexivity]. intros _ pre rest Hs.
      destruct pre; [|discriminate]. simpl in Hs. now subst rest.
  - destruct (here (String c s)) eqn:H0.
    + split; [discriminate|]. intros H.
      specialize (H "" (String c s) eq_refl). congruence.
    + rewrite IH. split.
      * intros H pre rest Hs. destruct pre as [|x pre].
        -- simpl in Hs. now subst rest.
        -- simpl in Hs. injection Hs as -> ->. now apply (H pre).
      * intros H pre rest ->. now apply (H (String c pre)).
Qed.

Lemma test_true (s : string) :
  Js.test here s = true <->
  exists pre rest, s = pre ++ rest /\ is_Some (here rest).
Proof.
  unfold Js.test. destruct (Js.search here s) eqn:Hs.
  - apply search_Some in Hs as (pre & rest & -> & Hr & _).
    split; [|reflexivity]. intros _. exists pre, rest. split; [reflexivity|].
    now exists a.
  - split; [discriminate|]. intros (pre & rest & Hsplit & [r Hr]).
    rewrite search_None in Hs. rewrite (Hs _ _ Hsplit) in Hr. discriminate.
Qed.
End Search.

Lemma includes_true (s p : string) :
  Js.includes s p = true <-> exists pre suf, s = pre ++ p ++ suf.
Proof.
  unfold Js.includes. rewrite test_true. split.
  - intros (pre & rest & -> & [r Hr]). apply lit_cs_Some in Hr as ->.
    now exists pre, r.
  - intros (pre & suf & ->). exists pre, (p ++ suf). split; [reflexivity|].
    exists suf. now apply lit_cs_Some.
Qed.

(** After [replace], the replacement stands where the first occurrence
    of the pattern stood. *)
Lemma replace_includes (s p r : string) :
  Js.includes s p = true -> Js.includes (Js.replace s p r) r = true.
Proof.
  intros H. apply includes_true. induction s as [|c s IH]; simpl.
  - destruct (Js.lit Js.eq_cs p "") eqn:Hl.
    + now exists "", s.
    + unfold Js.includes, Js.test in H. simpl in H. rewrite Hl in H. discriminate.
  - destruct (Js.lit Js.eq_cs p (String c s)) eqn:Hl.
    + now exists "", s0.
    + unfold Js.includes, Js.test in H. simpl in H. rewrite Hl in H.
      destruct (IH H) as (pre & suf & Heq).
      exists (String c pre), suf. simpl. now rewrite Heq.
Qed.

Lemma replace_absent (s p r : string) :
  Js.includes s p = false -> Js.replace s p r = s.
Proof.
  intros H. induction s as [|c s IH]; simpl.
  - unfold Js.includes, Js.test in H. simpl in H.
    destruct (Js.lit Js.eq_cs p "") eqn:Hl; [discriminate | reflexivity].
  - unfold Js.includes, Js.test in H. simpl in H.
    destruct (Js.lit Js.eq_cs p (String c s)) eqn:Hl; [discriminate|].
    now rewrite IH.
Qed.

End JsFacts.

(** ** The link classifier and the dispatcher *)

Module Classifier.

Import JsFacts.

Lemma isYouTubeLink_hosts (url : string) :
  isYouTubeLink url = true <-> hosts_ci ["youtube.com"; "youtu.be"] url.
Proof.
  unfold isYouTubeLink. rewrite test_true. split.
  - intros (pre & rest & -> & [r Hr]). unfold youtube_host_here in Hr.
    destruct (Js.lit Js.eq_ci "youtube.com" rest) eqn:H1.
    + apply lit_under in H1 as (m & -> & Hm).
      exists pre, m, s, "youtube.com". simpl. auto.
    + apply lit_under in Hr as (m & -> & Hm).
      exists pre, m, r, "youtu.be". simpl. auto.
  - intros (pre & m & suf & host & Hin & Hm & ->).
    exists pre, (m ++ suf). split; [reflexivity|]. unfold youtube_host_here.
    destruct Hin as [<-|[<-|[]]].
    + assert (H : Js.lit Js.eq_ci "youtube.com" (m ++ suf) = Some suf)
        by (apply lit_under; eauto).
      rewrite H. now exists suf.
    + assert (H : Js.lit Js.eq_ci "youtu.be" (m ++ suf) = Some suf)
        by (apply lit_under; eauto).
      rewrite H. destruct (Js.lit Js.eq_ci "youtube.com" (m ++ suf)); eauto.
Qed.

Lemma isMegaLink_hosts (url : string) :
  isMegaLink url = true <-> hosts_ci ["mega.nz"] url.
Proof.
  unfold isMegaLink. rewrite test_true. split.
  - intros (pre & rest & -> & [r Hr]).
    apply lit_under in Hr as (m & -> & Hm).
    exists pre, m, r, "mega.nz". simpl. auto.
  - intros (pre & m & suf & host & Hin & Hm & ->).
    exists pre, (m ++ suf). split; [reflexivity|].
    destruct Hin as [<-|[]]. exists suf. apply lit_under. eauto.
Qed.

(** C1. Every link gets exactly one of the three source kinds: the
    scripted embed when a YouTube host occurs in it (in any letter
    case), else the passive embed when the Mega host occurs in it, else
    direct.  The dispatcher mounts the controller of that kind, so a
    link that shows both hosts goes to the scripted-embed controller. *)
Theorem getLinkType_dispatch (url : string) :
  (getLinkType url = youtube <-> hosts_ci ["youtube.com"; "youtu.be"] url)
  /\ (getLinkType url = mega <->
      ~ hosts_ci ["youtube.com"; "youtu.be"] url /\ hosts_ci ["mega.nz"] url)
  /\ (getLinkType url = direct <->
      ~ hosts_ci ["youtube.com"; "youtu.be"] url /\ ~ hosts_ci ["mega.nz"] url)
  /\ VideoPlayer url = controller_of (getLinkType url)
  /\ (hosts_ci ["youtube.com"; "youtu.be"] url -> hosts_ci ["mega.nz"] url ->
      getLinkType url = youtube /\ VideoPlayer url = YouTubePlayer).
Proof.
  rewrite <- isYouTubeLink_hosts, <- isMegaLink_hosts.
  unfold getLinkType, VideoPlayer.
  destruct (isYouTubeLink url), (isMegaLink url); simpl;
    repeat split; try congruence; try tauto;
    intros; repeat match goal with H : _ /\ _ |- _ => destruct H end;
    congruence.
Qed.

Lemma getLinkType_dispatch_witness :
  getLinkType "https://youtube.com/redirect?q=https://mega.nz/file/a" = youtube
  /\ VideoPlayer "https://youtube.com/redirect?q=https://mega.nz/file/a" = YouTubePlayer.
Proof.
  apply (getLinkType_dispatch "https://youtube.com/redirect?q=https://mega.nz/file/a").
  - exists "https://", "youtube.com", "/redirect?q=https://mega.nz/file/a", "youtube.com".
    repeat split; simpl; auto.
  - exists "https://youtube.com/redirect?q=https://", "mega.nz", "/file/a", "mega.nz".
    repeat split; simpl; auto.
Defined.

(** C3. [getMegaEmbedUrl] is idempotent in every mode; a link that
    already has the embed form, and a link with neither form, come back
    unchanged. *)
Theorem getMegaEmbedUrl_idempotent (url : string) (m1 m2 : MediaMode) :
  getMegaEmbedUrl (getMegaEmbedUrl url m1) m2 = getMegaEmbedUrl url m1
  /\ ((exists pre suf, url = pre ++ "mega.nz/embed/" ++ suf) ->
      getMegaEmbedUrl url m1 = url)
  /\ (~ (exists pre suf, url = pre ++ "mega.nz/embed/" ++ suf) ->
      ~ (exists pre suf, url = pre ++ "mega.nz/file/" ++ suf) ->
      getMegaEmbedUrl url m1 = url).
Proof.
  rewrite <- !includes_true. unfold getMegaEmbedUrl.
  destruct (Js.includes url "mega.nz/embed/") eqn:He.
  - rewrite He. repeat split; congruence.
  - destruct (Js.includes url "mega.nz/file/") eqn:Hf.
    + rewrite (replace_includes _ _ "mega.nz/embed/" Hf).
      repeat split; congruence.
    + rewrite He, Hf. repeat split; congruence.
Qed.

Lemma getMegaEmbedUrl_idempotent_witness :
  getMegaEmbedUrl "https://mega.nz/embed/AbC#k" mode_audio = "https://mega.nz/embed/AbC#k".
Proof.
  apply (proj1 (proj2
    (getMegaEmbedUrl_idempotent "https://mega.nz/embed/AbC#k" mode_audio mode_video))).
  now exists "https://", "AbC#k".
Defined.

Lemma class_n_spec (cls : ascii -> bool) (n : nat) (s m r : string) :
  Js.class_n cls n s = Some (m, r) <->
  s = m ++ r /\ String.length m = n /\ all_units cls m = true.
Proof.
  revert s m r. induction n as [|n IH]; intros s m r; simpl.
  - split.
    + intros [= <- <-]. auto.
    + intros (-> & Hl & _). destruct m; [reflexivity | discriminate].
  - destruct s as [|c s].
    + split; [discriminate|]. intros (Hs & Hl & _).
      destruct m; discriminate.
    + destruct (cls c) eqn:Hc.
      * destruct (Js.class_n cls n s) as [[m' r']|] eqn:Hn.
        -- apply IH in Hn as (-> & Hl & Hall). split.
           ++ intros [= <- <-]. simpl. rewrite Hc, Hall. auto.
           ++ intros (Hs & Hl' & Hall'). destruct m as [|x m]; [discriminate|].
              simpl in *. injection Hs as <- Hs. injection Hl' as Hl'.
              apply andb_true_iff in Hall' as [_ Hall'].
              assert (Hn : Js.class_n cls n (m' ++ r') = Some (m, r))
                by (apply IH; subst n; auto).
              assert (Hn' : Js.class_n cls n (m' ++ r') = Some (m', r'))
                by (apply IH; auto).
              congruence.
        -- split; [discriminate|]. intros (Hs & Hl & Hall).
           destruct m as [|x m]; [discriminate|].
           simpl in *. injection Hs as <- ->. injection Hl as Hl.
           apply andb_true_iff in Hall as [_ Hall].
           assert (Hn' : Js.class_n cls n (m ++ r) = Some (m, r))
             by (apply IH; auto).
           congruence.
      * split; [discriminate|]. intros (Hs & Hl & Hall).
        destruct m as [|x m]; [discriminate|].
        simpl in *. injection Hs as <- ->. rewrite Hc in Hall. discriminate.
Qed.

Lemma capture11_spec (s id : string) :
  capture11 s = Some id <-> valid_id id /\ exists suf, s = id ++ suf.
Proof.
  unfold capture11, valid_id.
  destruct (Js.class_n id_char 11 s) as [[m r]|] eqn:Hc.
  - apply class_n_spec in Hc as (-> & Hl & Hall). split.
    + intros [= <-]. eauto.
    + intros ((Hl' & Hall') & suf & Hs).
      assert (H1 : Js.class_n id_char 11 (m ++ r) = Some (m, r))
        by (apply class_n_spec; auto).
      assert (H2 : Js.class_n id_char 11 (m ++ r) = Some (id, suf))
        by (apply class_n_spec; auto).
      congruence.
  - split; [discriminate|]. intros ((Hl & Hall) & suf & ->).
    assert (H : Js.class_n id_char 11 (id ++ suf) = Some (id, suf))
      by (apply class_n_spec; auto).
    congruence.
Qed.

Lemma capture11_app (id suf : string) :
  valid_id id -> capture11 (id ++ suf) = Some id.
Proof. intros H. apply capture11_spec. eauto. Qed.

(** The pattern matches at the head of [rest] exactly when one of the
    three shapes stands there. *)
Lemma youtube_id_here_spec (rest id : string) :
  youtube_id_here rest = Some id <-> shape_at rest "" id.
Proof.
  unfold shape_at, id_markers. split.
  - unfold youtube_id_here. intros H.
    destruct (Js.lit Js.eq_cs "youtube.com/" rest) as [r|] eqn:H1.
    + apply lit_cs_Some in H1 as ->.
      destruct (Js.lit Js.eq_cs "watch?v=" r) as [r'|] eqn:H2.
      * apply lit_cs_Some in H2 as ->.
        destruct (capture11 r') as [m|] eqn:H3.
        -- injection H as <-. apply capture11_spec in H3 as (Hv & suf & ->).
           exists "youtube.com/watch?v=", suf. simpl. auto.
        -- simpl in H. discriminate.
      * destruct (Js.lit Js.eq_cs "embed/" r) as [r'|] eqn:H3.
        -- apply lit_cs_Some in H3 as ->.
           destruct (capture11 r') as [m|] eqn:H4.
           ++ injection H as <-. apply capture11_spec in H4 as (Hv & suf & ->).
              exists "youtube.com/embed/", suf. simpl. auto.
           ++ simpl in H. discriminate.
        -- simpl in H. discriminate.
    + destruct (Js.lit Js.eq_cs "youtu.be/" rest) as [r|] eqn:H2; [|discriminate].
      apply lit_cs_Some in H2 as ->.
      apply capture11_spec in H as (Hv & suf & ->).
      exists "youtu.be/", suf. simpl. auto.
  - intros (marker & suf & Hin & Hv & ->).
    destruct Hin as [<-|[<-|[<-|[]]]]; unfold youtube_id_here; simpl;
      now rewrite (capture11_app _ suf Hv).
Qed.

Lemma shape_at_split (url pre id : string) :
  shape_at url pre id <-> exists rest, url = pre ++ rest /\ shape_at rest "" id.
Proof.
  unfold shape_at. split.
  - intros (marker & suf & Hin & Hv & ->).
    exists (marker ++ id ++ suf). split; [reflexivity|]. now exists marker, suf.
  - intros (rest & -> & marker & suf & Hin & Hv & ->). now exists marker, suf.
Qed.

Lemma valid_id_nonempty (id : string) : valid_id id -> id <> "".
Proof. intros [Hl _] ->. discriminate. Qed.

(** The identifier returned is the one of the leftmost shape. *)
Lemma search_id_leftmost (url pre id : string) :
  shape_at url pre id -> leftmost_shape url pre ->
  Js.search youtube_id_here url = Some id.
Proof.
  intros Hs Hleft. apply shape_at_split in Hs as (rest & -> & Hs).
  apply search_Some. exists pre, rest. repeat split.
  - now apply youtube_id_here_spec.
  - intros pre' rest' Heq Hlt.
    destruct (youtube_id_here rest') as [id'|] eqn:Hh; [|reflexivity].
    apply youtube_id_here_spec in Hh.
    assert (Hs' : shape_at (pre ++ rest) pre' id')
      by (apply shape_at_split; eauto).
    apply Hleft in Hs'. lia.
Qed.

Lemma search_id_none (url : string) :
  (forall pre id, ~ shape_at url pre id) ->
  Js.search youtube_id_here url = None.
Proof.
  intros Hno. apply search_None. intros pre rest ->.
  destruct (youtube_id_here rest) as [id|] eqn:Hh; [|reflexivity].
  apply youtube_id_here_spec in Hh. exfalso. apply (Hno pre id).
  apply shape_at_split. eauto.
Qed.

(** A shape starts with the letter y, so none starts inside a prefix
    that has no y. *)
Lemma shape_starts_with_y (rest id : string) :
  shape_at rest "" id -> exists t, rest = String "y" t.
Proof.
  intros (marker & suf & Hin & _ & ->).
  destruct Hin as [<-|[<-|[<-|[]]]]; simpl; eauto.
Qed.

Lemma leftmost_after_no_y (pre rest : string) :
  all_units no_y pre = true -> leftmost_shape (pre ++ rest) pre.
Proof.
  intros Hy pre' id' Hs. apply shape_at_split in Hs as (rest' & Heq & Hs).
  apply shape_starts_with_y in Hs as (t & ->).
  revert pre' Heq. induction pre as [|c pre IH]; intros pre' Heq; simpl; [lia|].
  simpl in Hy. apply andb_true_iff in Hy as [Hc Hy].
  destruct pre' as [|c' pre'].
  - simpl in Heq. injection Heq as -> _. discriminate.
  - simpl in Heq. injection Heq as _ Heq. specialize (IH Hy pre' Heq).
    simpl. lia.
Qed.

(** C2. A link that shows one of the three accepted shapes (watch page,
    short link, embed) yields the identifier that the leftmost shape
    carries, a non-empty one, from both copies of the function; so the
    usual watch, short and embed addresses of one identifier all yield
    that identifier.  A link that shows none of the shapes yields the
    empty string. *)
Theorem getYTVideoId_shapes (url : string) :
  (forall pre id,
      shape_at url pre id -> leftmost_shape url pre ->
      getYTVideoId url = id /\ getYouTubeVideoId url = id /\ id <> "")
  /\ ((forall pre id, ~ shape_at url pre id) ->
      getYTVideoId url = "" /\ getYouTubeVideoId url = "")
  /\ (forall id suf,
      valid_id id ->
      url = "https://www.youtube.com/watch?v=" ++ id ++ suf
      \/ url = "https://youtu.be/" ++ id ++ suf
      \/ url = "https://www.youtube.com/embed/" ++ id ++ suf ->
      getYTVideoId url = id /\ getYouTubeVideoId url = id).
Proof.
  unfold getYTVideoId, getYouTubeVideoId. split; [|split].
  - intros pre id Hs Hleft. rewrite (search_id_leftmost _ _ _ Hs Hleft).
    destruct Hs as (_ & _ & _ & Hv & _). auto using valid_id_nonempty.
  - intros Hno. now rewrite (search_id_none _ Hno).
  - intros id suf Hv [-> | [-> | ->]].
    + rewrite (search_id_leftmost _ "https://www." id); [auto| |].
      * exists "youtube.com/watch?v=", suf. simpl. auto.
      * now apply (leftmost_after_no_y "https://www.").
    + rewrite (search_id_leftmost _ "https://" id); [auto| |].
      * exists "youtu.be/", suf. simpl. auto.
      * now apply (leftmost_after_no_y "https://").
    + rewrite (search_id_leftmost _ "https://www." id); [auto| |].
      * exists "youtube.com/embed/", suf. simpl. auto.
      * now apply (leftmost_after_no_y "https://www.").
Qed.

Lemma getYTVideoId_shapes_witness :
  getYTVideoId "https://m.youtube.com/watch?v=dQw4w9WgXcQ&t=42" = "dQw4w9WgXcQ"
  /\ getYouTubeVideoId "https://m.youtube.com/watch?v=dQw4w9WgXcQ&t=42" = "dQw4w9WgXcQ"
  /\ "dQw4w9WgXcQ" <> "".
Proof.
  apply (proj1 (getYTVideoId_shapes "https://m.youtube.com/watch?v=dQw4w9WgXcQ&t=42")
           "https://m." "dQw4w9WgXcQ").
  - exists "youtube.com/watch?v=", "&t=42". repeat split; simpl; auto.
  - apply (leftmost_after_no_y "https://m." "youtube.com/watch?v=dQw4w9WgXcQ&t=42").
    reflexivity.
Defined.

End Classifier.

(** ** The native players: volume and mute *)

Module VideoFacts.

Import DirectVideo NumFacts.
#[local] Open Scope Q_scope.

Lemma video_st_volume_pos (v : Q) (p : Player) :
  0 < v ->
  st (handleVolumeChange v p) = setPrevVolume v (setMuted false (setVolume v (st p))).
Proof.
  intros Hv. unfold handleVolumeChange.
  now rewrite (proj2 (gtb_lt v 0) Hv), (pos_nonzero v Hv).
Qed.

Lemma video_st_volume_zero (p : Player) :
  st (handleVolumeChange 0 p) = setMuted true (setVolume 0 (st p)).
Proof. reflexivity. Qed.

Lemma video_st_unmute (p : Player) :
  muted (st p) || Num.eqb (volume (st p)) 0 = true ->
  st (toggleMute p) =
  setMuted false
    (setVolume (if Num.gtb (prevVolume (st p)) 0 then prevVolume (st p) else 5 # 10)
       (st p)).
Proof. intros H. unfold toggleMute. now rewrite H. Qed.

Lemma video_st_mute (p : Player) :
  muted (st p) || Num.eqb (volume (st p)) 0 = false ->
  st (toggleMute p) = setMuted true (setPrevVolume (volume (st p)) (st p)).
Proof. intros H. unfold toggleMute. now rewrite H. Qed.

(** A handler that flips the mute flag and leaves the rate alone makes
    the effect hand the effective volume to the element. *)
Lemma video_commit_flip (p : Player) (new : State) :
  muted new = negb (muted (st p)) ->
  playbackRate new = playbackRate (st p) ->
  video (commit p new) =
  option_map (fun e => Media.set_muted false (Media.set_volume (effective new) e))
    (video p).
Proof.
  intros Hm Hr. unfold commit, sync_volume, sync_speed. simpl.
  rewrite Hm, Hr, eqb_refl.
  replace (Bool.eqb (muted (st p)) (negb (muted (st p)))) with false
    by (now destruct (muted (st p))).
  rewrite andb_false_r. now destruct (video p).
Qed.

(** No handler mounts or unmounts the element. *)
Lemma video_commit_present {A : Type} (p : Player) (new : State) (x : A) :
  option_map (fun _ => x) (video (commit p new))
  = option_map (fun _ => x) (video p).
Proof.
  unfold commit, sync_speed, sync_volume. simpl.
  destruct (video p); repeat (destruct (_ : bool); simpl); reflexivity.
Qed.

Lemma video_toggleMute_present {A : Type} (p : Player) (x : A) :
  option_map (fun _ => x) (video (toggleMute p))
  = option_map (fun _ => x) (video p).
Proof.
  unfold toggleMute. destruct (_ || _); apply video_commit_present.
Qed.

Lemma video_handleVolumeChange_present {A : Type} (v : Q) (p : Player) (x : A) :
  option_map (fun _ => x) (video (handleVolumeChange v p))
  = option_map (fun _ => x) (video p).
Proof. apply video_commit_present. Qed.

(** Unmuting hands the restored volume to the element. *)
Lemma video_unmute (p : Player) :
  muted (st p) = true ->
  video (toggleMute p) =
  option_map
    (fun e => Media.set_muted false
                (Media.set_volume (effective (st (toggleMute p))) e))
    (video p).
Proof.
  intros Hm. rewrite video_st_unmute by (now rewrite Hm).
  unfold toggleMute. rewrite Hm. simpl.
  apply video_commit_flip; simpl; [now rewrite Hm | reflexivity].
Qed.

(** The effect keeps the element at the effective volume. *)
Lemma video_commit_in_sync (p : Player) (new : State) :
  in_sync p -> in_sync (commit p new).
Proof.
  unfold in_sync, commit, sync_volume, sync_speed. simpl.
  destruct (video p) as [e|]; [|now repeat destruct (_ : bool)].
  intros Hs.
  destruct (Num.eqb (volume (st p)) (volume new)) eqn:Hv;
    destruct (Bool.eqb (muted (st p)) (muted new)) eqn:Hm; simpl;
    destruct (Num.eqb (playbackRate (st p)) (playbackRate new)); simpl;
    try reflexivity.
  all: apply eqb_eq in Hv; apply eqb_prop in Hm.
  all: unfold Media.output in *; simpl; rewrite Hs; unfold effective;
    rewrite <- Hm; destruct (muted (st p)); [reflexivity | exact Hv].
Qed.

(** In every state the player can reach, the remembered volume is
    positive: the five-tenths default of [toggleMute] is never used. *)
Lemma video_reachable_prevVolume (p : Player) :
  reachable p -> 0 < prevVolume (st p) /\ 0 <= volume (st p).
Proof.
  induction 1 as [link | p p' _ [IHp IHv] Hstep].
  - unfold mount, loadItem. simpl. split; reflexivity || discriminate.
  - destruct Hstep as [p v [Hv0 Hv1] | p | p | p | p link | p x bar | p p' (Hv & Hp & Hm)].
    + unfold handleVolumeChange. simpl.
      destruct (Num.gtb v 0) eqn:Hg; simpl; [|now split].
      apply gtb_lt in Hg. now split.
    + unfold toggleMute.
      destruct (muted (st p) || Num.eqb (volume (st p)) 0) eqn:Hc; simpl.
      * rewrite (proj2 (gtb_lt _ 0) IHp). split; [assumption | now apply Qlt_le_weak].
      * apply orb_false_iff in Hc as [_ Hc]. apply eqb_neq in Hc.
        split; [|assumption].
        apply Qle_lt_or_eq in IHv as [Hlt|Heq]; [assumption|].
        exfalso. apply Hc. now symmetry.
    + unfold keyArrowUp. simpl. split; [assumption|].
      apply Q.min_glb; [|discriminate].
      apply Qle_trans with (volume (st p) + 0); [now rewrite Qplus_0_r|].
      apply Qplus_le_r. discriminate.
    + unfold keyArrowDown. simpl.
      destruct (Num.eqb (Qmax (volume (st p) - (1 # 10)) 0) 0); simpl;
        (split; [assumption | apply Q.le_max_r]).
    + unfold loadItem. destruct (video p); simpl; now split.
    + unfold handleProgressClick.
      destruct (video p) as [e|], bar as [rect|]; try now split.
      destruct (Num.falsy (Media.duration e)); [now split|].
      destruct (Media.duration e), (click_fraction x rect); simpl; now split.
    + rewrite Hv, Hp. now split.
Qed.

End VideoFacts.

Module AudioFacts.

Import Audio NumFacts.
#[local] Open Scope Q_scope.

Lemma audio_st_volume_pos (v : Q) (p : Player) :
  0 < v ->
  st (handleVolumeChange v p) = setPrevVolume v (setMuted false (setVolume v (st p))).
Proof.
  intros Hv. unfold handleVolumeChange.
  now rewrite (proj2 (gtb_lt v 0) Hv), (pos_nonzero v Hv).
Qed.

Lemma audio_st_volume_zero (p : Player) :
  st (handleVolumeChange 0 p) = setMuted true (setVolume 0 (st p)).
Proof. reflexivity. Qed.

Lemma audio_st_unmute (p : Player) :
  muted (st p) || Num.eqb (volume (st p)) 0 = true ->
  st (toggleMute p) =
  setMuted false
    (setVolume (if Num.gtb (prevVolume (st p)) 0 then prevVolume (st p) else 5 # 10)
       (st p)).
Proof. intros H. unfold toggleMute. now rewrite H. Qed.

Lemma audio_st_mute (p : Player) :
  muted (st p) || Num.eqb (volume (st p)) 0 = false ->
  st (toggleMute p) = setMuted true (setPrevVolume (volume (st p)) (st p)).
Proof. intros H. unfold toggleMute. now rewrite H. Qed.

Lemma audio_commit_flip (p : Player) (new : State) :
  muted new = negb (muted (st p)) ->
  speed new = speed (st p) ->
  audio (commit p new) =
  option_map (fun e => Media.set_volume (effective new) e) (audio p).
Proof.
  intros Hm Hr. unfold commit, sync_volume, sync_speed. simpl.
  rewrite Hm, Hr, eqb_refl.
  replace (Bool.eqb (muted (st p)) (negb (muted (st p)))) with false
    by (now destruct (muted (st p))).
  rewrite andb_false_r. now destruct (audio p).
Qed.

Lemma audio_commit_present {A : Type} (p : Player) (new : State) (x : A) :
  option_map (fun _ => x) (audio (commit p new))
  = option_map (fun _ => x) (audio p).
Proof.
  unfold commit, sync_speed, sync_volume. simpl.
  destruct (audio p); repeat (destruct (_ : bool); simpl); reflexivity.
Qed.

Lemma audio_toggleMute_present {A : Type} (p : Player) (x : A) :
  option_map (fun _ => x) (audio (toggleMute p))
  = option_map (fun _ => x) (audio p).
Proof.
  unfold toggleMute. destruct (_ || _); apply audio_commit_present.
Qed.

Lemma audio_handleVolumeChange_present {A : Type} (v : Q) (p : Player) (x : A) :
  option_map (fun _ => x) (audio (handleVolumeChange v p))
  = option_map (fun _ => x) (audio p).
Proof. apply audio_commit_present. Qed.

Lemma audio_unmute (p : Player) :
  muted (st p) = true ->
  audio (toggleMute p) =
  option_map
    (fun e => Media.set_volume (effective (st (toggleMute p))) e)
    (audio p).
Proof.
  intros Hm. rewrite audio_st_unmute by (now rewrite Hm).
  unfold toggleMute. rewrite Hm. simpl.
  apply audio_commit_flip; simpl; [now rewrite Hm | reflexivity].
Qed.

(** Nothing in the audio player writes the element's own [muted]
    attribute; while it is off, the effect keeps the element at the
    effective volume. *)
Lemma audio_commit_in_sync (p : Player) (new : State) :
  in_sync p ->
  match audio p with Some e => Media.muted e = false | None => True end ->
  in_sync (commit p new).
Proof.
  unfold in_sync, commit, sync_volume, sync_speed. simpl.
  destruct (audio p) as [e|]; [|now repeat destruct (_ : bool)].
  intros Hs He.
  destruct (Num.eqb (volume (st p)) (volume new)) eqn:Hv;
    destruct (Bool.eqb (muted (st p)) (muted new)) eqn:Hm; simpl;
    destruct (Num.eqb (speed (st p)) (speed new)); simpl.
  all: unfold Media.output in *; simpl; rewrite ?He in *; try reflexivity.
  all: apply eqb_eq in Hv; apply eqb_prop in Hm.
  all: rewrite Hs; unfold effective;
    rewrite <- Hm; destruct (muted (st p)); [reflexivity | exact Hv].
Qed.

Lemma audio_reachable_prevVolume (p : Player) :
  reachable p -> 0 < prevVolume (st p) /\ 0 <= volume (st p).
Proof.
  induction 1 as [link | p p' _ [IHp IHv] Hstep].
  - unfold mount, changeItem, loadTrack, resetImage. simpl.
    destruct (isMegaLink link); simpl; split; reflexivity || discriminate.
  - destruct Hstep as [p v [Hv0 Hv1] | p | p link | p x bar | p allowed | p p' (Hv & Hp & Hm)].
    + unfold handleVolumeChange. simpl.
      destruct (Num.gtb v 0) eqn:Hg; simpl; [|now split].
      apply gtb_lt in Hg. now split.
    + unfold toggleMute.
      destruct (muted (st p) || Num.eqb (volume (st p)) 0) eqn:Hc; simpl.
      * rewrite (proj2 (gtb_lt _ 0) IHp). split; [assumption | now apply Qlt_le_weak].
      * apply orb_false_iff in Hc as [_ Hc]. apply eqb_neq in Hc.
        split; [|assumption].
        apply Qle_lt_or_eq in IHv as [Hlt|Heq]; [assumption|].
        exfalso. apply Hc. now symmetry.
    + unfold changeItem, loadTrack, resetImage. simpl.
      destruct (audio p); simpl; [|now split].
      destruct (isMegaLink link); simpl; now split.
    + unfold handleProgressClick.
      destruct (audio p) as [e|], bar as [rect|]; try now split.
      destruct (Num.falsy (Media.duration e)); [now split|].
      destruct (Media.duration e), (click_fraction x rect); simpl; now split.
    + unfold handleEnded. destruct (repeat (st p)); [|now split].
      destruct (audio p); simpl; now split.
    + rewrite Hv, Hp. now split.
Qed.

End AudioFacts.

Module NativePlayers.

Import NumFacts.
#[local] Open Scope Q_scope.

(** C4. In both native players, from any state: the volume handler at
    seven tenths, then the mute toggle twice, leave the volume at exactly
    seven tenths with the mute flag off.  In between the player is muted
    with the seven tenths kept; at the end the element has been handed
    seven tenths. *)
Theorem volume_mute_roundtrip (pv : DirectVideo.Player) (pa : Audio.Player) :
  let pv1 := DirectVideo.handleVolumeChange (7 # 10) pv in
  let pv2 := DirectVideo.toggleMute pv1 in
  let pv3 := DirectVideo.toggleMute pv2 in
  let pa1 := Audio.handleVolumeChange (7 # 10) pa in
  let pa2 := Audio.toggleMute pa1 in
  let pa3 := Audio.toggleMute pa2 in
  (DirectVideo.muted (DirectVideo.st pv2) = true
   /\ DirectVideo.effective (DirectVideo.st pv2) = 0
   /\ DirectVideo.volume (DirectVideo.st pv3) = 7 # 10
   /\ DirectVideo.muted (DirectVideo.st pv3) = false
   /\ DirectVideo.effective (DirectVideo.st pv3) = 7 # 10
   /\ option_map Media.output (DirectVideo.video pv3)
      = option_map (fun _ => 7 # 10) (DirectVideo.video pv))
  /\ (Audio.muted (Audio.st pa2) = true
      /\ Audio.effective (Audio.st pa2) = 0
      /\ Audio.volume (Audio.st pa3) = 7 # 10
      /\ Audio.muted (Audio.st pa3) = false
      /\ Audio.effective (Audio.st pa3) = 7 # 10
      /\ option_map Media.volume (Audio.audio pa3)
         = option_map (fun _ => 7 # 10) (Audio.audio pa)).
Proof.
  intros pv1 pv2 pv3 pa1 pa2 pa3. split.
  - assert (H1 : DirectVideo.st pv1 =
                 DirectVideo.setPrevVolume (7 # 10)
                   (DirectVideo.setMuted false
                      (DirectVideo.setVolume (7 # 10) (DirectVideo.st pv))))
      by (now apply VideoFacts.video_st_volume_pos).
    assert (H2 : DirectVideo.st pv2 =
                 DirectVideo.setMuted true
                   (DirectVideo.setPrevVolume (7 # 10) (DirectVideo.st pv1)))
      by (unfold pv2; rewrite VideoFacts.video_st_mute; now rewrite H1).
    assert (H3 : DirectVideo.st pv3 =
                 DirectVideo.setMuted false
                   (DirectVideo.setVolume (7 # 10) (DirectVideo.st pv2)))
      by (unfold pv3; rewrite VideoFacts.video_st_unmute; now rewrite H2).
    assert (Hv : DirectVideo.video pv3 =
                 option_map
                   (fun e => Media.set_muted false (Media.set_volume (7 # 10) e))
                   (DirectVideo.video pv2)).
    { unfold pv3. rewrite VideoFacts.video_unmute by (now rewrite H2).
      fold pv3. now rewrite H3. }
    rewrite H3, H2, Hv. repeat split.
    rewrite <- (VideoFacts.video_handleVolumeChange_present (7 # 10) pv).
    fold pv1. rewrite <- (VideoFacts.video_toggleMute_present pv1). fold pv2.
    now destruct (DirectVideo.video pv2).
  - assert (H1 : Audio.st pa1 =
                 Audio.setPrevVolume (7 # 10)
                   (Audio.setMuted false (Audio.setVolume (7 # 10) (Audio.st pa))))
      by (now apply AudioFacts.audio_st_volume_pos).
    assert (H2 : Audio.st pa2 =
                 Audio.setMuted true (Audio.setPrevVolume (7 # 10) (Audio.st pa1)))
      by (unfold pa2; rewrite AudioFacts.audio_st_mute; now rewrite H1).
    assert (H3 : Audio.st pa3 =
                 Audio.setMuted false (Audio.setVolume (7 # 10) (Audio.st pa2)))
      by (unfold pa3; rewrite AudioFacts.audio_st_unmute; now rewrite H2).
    assert (Hv : Audio.audio pa3 =
                 option_map (fun e => Media.set_volume (7 # 10) e) (Audio.audio pa2)).
    { unfold pa3. rewrite AudioFacts.audio_unmute by (now rewrite H2).
      fold pa3. now rewrite H3. }
    rewrite H3, H2, Hv. repeat split.
    rewrite <- (AudioFacts.audio_handleVolumeChange_present (7 # 10) pa).
    fold pa1. rewrite <- (AudioFacts.audio_toggleMute_present pa1). fold pa2.
    now destruct (Audio.audio pa2).
Qed.

(** Counterexample to C5 as worded.  On a freshly mounted player no
    volume was ever recorded by the user, yet setting the volume to zero
    and unmuting restores three quarters, the initial remembered volume,
    and not one half. *)
Lemma fresh_unmute_restores_three_quarters :
  let pv :=
    DirectVideo.toggleMute
      (DirectVideo.handleVolumeChange 0
         (DirectVideo.mount "https://cdn.example.org/a.mp4")) in
  let pa :=
    Audio.toggleMute
      (Audio.handleVolumeChange 0 (Audio.mount "https://cdn.example.org/a.mp3")) in
  DirectVideo.volume (DirectVideo.st pv) = 75 # 100
  /\ ~ DirectVideo.volume (DirectVideo.st pv) == 5 # 10
  /\ Audio.volume (Audio.st pa) = 75 # 100
  /\ ~ Audio.volume (Audio.st pa) == 5 # 10.
Proof. vm_compute. repeat split; discriminate. Qed.

Lemma video_zero_then_unmute (p : DirectVideo.Player) :
  DirectVideo.volume
    (DirectVideo.st (DirectVideo.toggleMute (DirectVideo.handleVolumeChange 0 p)))
  = if Num.gtb (DirectVideo.prevVolume (DirectVideo.st p)) 0
    then DirectVideo.prevVolume (DirectVideo.st p) else 5 # 10.
Proof.
  rewrite VideoFacts.video_st_unmute by (now rewrite VideoFacts.video_st_volume_zero).
  now rewrite VideoFacts.video_st_volume_zero.
Qed.

Lemma audio_zero_then_unmute (p : Audio.Player) :
  Audio.volume (Audio.st (Audio.toggleMute (Audio.handleVolumeChange 0 p)))
  = if Num.gtb (Audio.prevVolume (Audio.st p)) 0
    then Audio.prevVolume (Audio.st p) else 5 # 10.
Proof.
  rewrite AudioFacts.audio_st_unmute by (now rewrite AudioFacts.audio_st_volume_zero).
  now rewrite AudioFacts.audio_st_volume_zero.
Qed.

(** C5, amended.  In both native players, setting the volume to zero
    sets the mute flag and makes the effective volume zero (the element
    stays in step), and leaves the remembered volume alone.  Unmuting
    then restores the remembered volume, which is positive in every
    state the player can reach and is three quarters on a fresh player;
    one half is restored only from a state whose remembered volume is
    not positive, and no reachable state is one. *)
Theorem unmute_after_zero_restores_remembered
  (pv : DirectVideo.Player) (pa : Audio.Player) :
  DirectVideo.reachable pv -> Audio.reachable pa ->
  let pv1 := DirectVideo.handleVolumeChange 0 pv in
  let pa1 := Audio.handleVolumeChange 0 pa in
  (DirectVideo.volume (DirectVideo.st pv1) = 0
   /\ DirectVideo.muted (DirectVideo.st pv1) = true
   /\ DirectVideo.effective (DirectVideo.st pv1) = 0
   /\ (DirectVideo.in_sync pv -> DirectVideo.in_sync pv1)
   /\ DirectVideo.prevVolume (DirectVideo.st pv1) = DirectVideo.prevVolume (DirectVideo.st pv)
   /\ 0 < DirectVideo.prevVolume (DirectVideo.st pv)
   /\ DirectVideo.volume (DirectVideo.st (DirectVideo.toggleMute pv1))
      = DirectVideo.prevVolume (DirectVideo.st pv)
   /\ DirectVideo.muted (DirectVideo.st (DirectVideo.toggleMute pv1)) = false)
  /\ (Audio.volume (Audio.st pa1) = 0
      /\ Audio.muted (Audio.st pa1) = true
      /\ Audio.effective (Audio.st pa1) = 0
      /\ Audio.prevVolume (Audio.st pa1) = Audio.prevVolume (Audio.st pa)
      /\ 0 < Audio.prevVolume (Audio.st pa)
      /\ Audio.volume (Audio.st (Audio.toggleMute pa1)) = Audio.prevVolume (Audio.st pa)
      /\ Audio.muted (Audio.st (Audio.toggleMute pa1)) = false)
  /\ (forall link,
        DirectVideo.volume
          (DirectVideo.st
             (DirectVideo.toggleMute
                (DirectVideo.handleVolumeChange 0 (DirectVideo.mount link))))
        = 75 # 100
        /\ Audio.volume
             (Audio.st (Audio.toggleMute (Audio.handleVolumeChange 0 (Audio.mount link))))
           = 75 # 100)
  /\ (forall qv : DirectVideo.Player,
        ~ 0 < DirectVideo.prevVolume (DirectVideo.st qv) ->
        DirectVideo.volume
          (DirectVideo.st (DirectVideo.toggleMute (DirectVideo.handleVolumeChange 0 qv)))
        = 5 # 10)
  /\ (forall qa : Audio.Player,
        ~ 0 < Audio.prevVolume (Audio.st qa) ->
        Audio.volume (Audio.st (Audio.toggleMute (Audio.handleVolumeChange 0 qa)))
        = 5 # 10).
Proof.
  intros Hv Ha pv1 pa1.
  apply VideoFacts.video_reachable_prevVolume in Hv as [Hv _].
  apply AudioFacts.audio_reachable_prevVolume in Ha as [Ha _].
  split; [|split; [|split; [|split]]].
  - unfold pv1. rewrite video_zero_then_unmute, (proj2 (gtb_lt _ 0) Hv).
    rewrite VideoFacts.video_st_unmute by (now rewrite VideoFacts.video_st_volume_zero).
    rewrite VideoFacts.video_st_volume_zero. simpl. repeat split; try assumption.
    apply VideoFacts.video_commit_in_sync.
  - unfold pa1. rewrite audio_zero_then_unmute, (proj2 (gtb_lt _ 0) Ha).
    rewrite AudioFacts.audio_st_unmute by (now rewrite AudioFacts.audio_st_volume_zero).
    rewrite AudioFacts.audio_st_volume_zero. simpl. repeat split; assumption.
  - intros link. rewrite video_zero_then_unmute, audio_zero_then_unmute.
    split.
    + unfold DirectVideo.mount, DirectVideo.loadItem. reflexivity.
    + unfold Audio.mount, Audio.changeItem, Audio.loadTrack, Audio.resetImage.
      simpl. now destruct (isMegaLink link).
  - intros qv Hq. rewrite video_zero_then_unmute.
    destruct (Num.gtb _ 0) eqn:Hg; [|reflexivity].
    apply gtb_lt in Hg. contradiction.
  - intros qa Hq. rewrite audio_zero_then_unmute.
    destruct (Num.gtb _ 0) eqn:Hg; [|reflexivity].
    apply gtb_lt in Hg. contradiction.
Qed.

Lemma unmute_after_zero_restores_remembered_witness :
  DirectVideo.volume
    (DirectVideo.st
       (DirectVideo.toggleMute
          (DirectVideo.handleVolumeChange 0 (DirectVideo.mount "a.mp4"))))
  = DirectVideo.prevVolume (DirectVideo.st (DirectVideo.mount "a.mp4")).
Proof.
  apply (unmute_after_zero_restores_remembered
           (DirectVideo.mount "a.mp4") (Audio.mount "a.mp3")
           (DirectVideo.reach_mount "a.mp4") (Audio.reach_mount "a.mp3")).
Defined.

Lemma click_fraction_wide (clientX : Q) (rect : Rect) :
  0 < width rect ->
  click_fraction clientX rect
  = Some (Qmax 0 (Qmin 1 ((clientX - left rect) / width rect))).
Proof.
  intros Hw. unfold click_fraction. now rewrite (pos_nonzero _ Hw).
Qed.

Lemma seek_result_clamp (f D : Q) : seek_result f D (Qmax 0 (Qmin 1 f) * D).
Proof.
  repeat split.
  - intros H. rewrite (clamp_low f H). apply Qmult_0_l.
  - intros H. rewrite (clamp_high f H). apply Qmult_1_l.
  - intros H. now rewrite (clamp_mid f H).
Qed.

Lemma falsy_cases (d : option Q) :
  Num.falsy d = true <-> d = None \/ exists q, d = Some q /\ q == 0.
Proof.
  destruct d as [q|]; simpl.
  - rewrite eqb_eq. split.
    + intros H. right. now exists q.
    + intros [H|(q' & [= ->] & H)]; [discriminate | assumption].
  - split; auto.
Qed.

(** C6. In both native players, a click on the progress surface (of
    positive width) at horizontal fraction [f], on an item whose
    duration [D] is known and positive, sets the elapsed time of the
    element and of the state to the clamped fraction of [D]: zero left
    of the surface, [D] right of it, [f * D] inside, so fifty seconds at
    the midpoint of a hundred seconds.  While the duration is zero or
    not known the click changes nothing. *)
Theorem progress_click_seeks
  (pv : DirectVideo.Player) (pa : Audio.Player) (clientX : Q) (rect : Rect) :
  0 < width rect ->
  let f := (clientX - left rect) / width rect in
  let pv' := DirectVideo.handleProgressClick clientX (Some rect) pv in
  let pa' := Audio.handleProgressClick clientX (Some rect) pa in
  (forall e D,
      DirectVideo.video pv = Some e -> Media.duration e = Some D -> 0 < D ->
      let t := DirectVideo.currentTime (DirectVideo.st pv') in
      seek_result f D t
      /\ (f == 1 # 2 -> D == 100 -> t == 50)
      /\ DirectVideo.video pv' = Some (Media.set_currentTime t e)
      /\ DirectVideo.st pv' = DirectVideo.setCurrentTime t (DirectVideo.st pv))
  /\ (forall e D,
      Audio.audio pa = Some e -> Media.duration e = Some D -> 0 < D ->
      let t := Audio.currentTime (Audio.st pa') in
      seek_result f D t
      /\ (f == 1 # 2 -> D == 100 -> t == 50)
      /\ Audio.audio pa' = Some (Media.set_currentTime t e)
      /\ Audio.st pa' = Audio.setCurrentTime t (Audio.st pa))
  /\ (forall e,
      DirectVideo.video pv = Some e ->
      Media.duration e = None \/ (exists q, Media.duration e = Some q /\ q == 0) ->
      pv' = pv)
  /\ (forall e,
      Audio.audio pa = Some e ->
      Media.duration e = None \/ (exists q, Media.duration e = Some q /\ q == 0) ->
      pa' = pa).
Proof.
  intros Hw f pv' pa'. split; [|split; [|split]].
  - intros e D He Hd HD t. unfold t, pv', DirectVideo.handleProgressClick.
    rewrite He, Hd, (click_fraction_wide _ _ Hw). simpl.
    rewrite (pos_nonzero _ HD). simpl. repeat split; try apply seek_result_clamp.
    intros Hf HD'. fold f. rewrite Hf, HD'. reflexivity.
  - intros e D He Hd HD t. unfold t, pa', Audio.handleProgressClick.
    rewrite He, Hd, (click_fraction_wide _ _ Hw). simpl.
    rewrite (pos_nonzero _ HD). simpl. repeat split; try apply seek_result_clamp.
    intros Hf HD'. fold f. rewrite Hf, HD'. reflexivity.
  - intros e He Hd. apply falsy_cases in Hd.
    unfold pv', DirectVideo.handleProgressClick. now rewrite He, Hd.
  - intros e He Hd. apply falsy_cases in Hd.
    unfold pa', Audio.handleProgressClick. now rewrite He, Hd.
Qed.

Lemma progress_click_seeks_witness :
  DirectVideo.currentTime
    (DirectVideo.st
       (DirectVideo.handleProgressClick 170 (Some (mkRect 20 300))
          (DirectVideo.mkPlayer DirectVideo.initial
             (Some (Media.mkElement "a.mp4" false 12 (Some 100) 1 false 1)))))
  == 50.
Proof.
  apply (proj1 (progress_click_seeks
           (DirectVideo.mkPlayer DirectVideo.initial
              (Some (Media.mkElement "a.mp4" false 12 (Some 100) 1 false 1)))
           (Audio.mkPlayer Audio.initial None) 170 (mkRect 20 300) eq_refl)
         (Media.mkElement "a.mp4" false 12 (Some 100) 1 false 1) 100
         eq_refl eq_refl eq_refl);
    reflexivity.
Defined.

(** Counterexample to C7 as worded.  A video player in fullscreen and an
    audio player with repeat on keep those cells across an item change:
    the state after the change is not the reset that keeps volume, mute
    and rate alone. *)
Lemma item_change_keeps_fullscreen_and_repeat :
  let sv :=
    DirectVideo.mkState true 30 (Some 100) (75 # 100) (75 # 100) false
      true false true 40 false 1 None 0 "1080p" in
  let pv :=
    DirectVideo.mkPlayer sv
      (Some (Media.mkElement "a.mp4" false 30 (Some 100) (75 # 100) false 1)) in
  let sa :=
    Audio.mkState true 30 (Some 100) (75 # 100) (75 # 100) false
      false 40 true 1 false true false in
  let pa :=
    Audio.mkPlayer sa
      (Some (Media.mkElement "a.mp3" false 30 (Some 100) (75 # 100) false 1)) in
  DirectVideo.isFullscreen (DirectVideo.st (DirectVideo.loadItem "b.mp4" pv)) = true
  /\ DirectVideo.st (DirectVideo.loadItem "b.mp4" pv)
     <> DirectVideo.reset_keeping_preferences sv
  /\ Audio.repeat (Audio.st (Audio.changeItem "b.mp3" pa)) = true
  /\ Audio.st (Audio.changeItem "b.mp3" pa) <> Audio.reset_keeping_preferences sa.
Proof. vm_compute. repeat split; discriminate. Qed.

(** C7, amended.  When the item changes while the same native player
    stays mounted with its media element (video: the new link is a direct
    link, so that [VideoPlayer] keeps the direct player; audio: the new
    link is not a Mega link), the loading flag is raised, playback stops,
    and elapsed time, duration, buffered fraction, the open menu and
    (video) the quality label go back to their defaults; the element is
    paused, given the new source, the volume cell and the current rate,
    and starts over.  Volume, mute flag, remembered volume and rate are
    kept, and so is every other cell: fullscreen, overlay and hover cells
    of the video player, the repeat toggle of the audio player. *)
Theorem item_change_resets_session
  (pv : DirectVideo.Player) (pa : Audio.Player)
  (ev ea : Media.Element) (linkv linka : string) :
  DirectVideo.video pv = Some ev ->
  VideoPlayer linkv = DirectVideoPlayer ->
  Audio.audio pa = Some ea ->
  isMegaLink linka = false ->
  let sv := DirectVideo.st pv in
  let sa := Audio.st pa in
  (DirectVideo.st (DirectVideo.loadItem linkv pv)
   = DirectVideo.mkState false 0 (Some 0)
       (DirectVideo.volume sv) (DirectVideo.prevVolume sv) (DirectVideo.muted sv)
       (DirectVideo.isFullscreen sv) true (DirectVideo.showControls sv) 0 false
       (DirectVideo.playbackRate sv) (DirectVideo.hoverTime sv)
       (DirectVideo.hoverPos sv) ""
   /\ exists ev',
       DirectVideo.video (DirectVideo.loadItem linkv pv) = Some ev'
       /\ Media.src ev' = linkv /\ Media.paused ev' = true
       /\ Media.currentTime ev' = 0 /\ Media.duration ev' = None
       /\ Media.volume ev' = DirectVideo.volume sv
       /\ Media.playbackRate ev' = DirectVideo.playbackRate sv)
  /\ (Audio.st (Audio.changeItem linka pa)
      = Audio.mkState false 0 (Some 0)
          (Audio.volume sa) (Audio.prevVolume sa) (Audio.muted sa)
          true 0 (Audio.repeat sa) (Audio.speed sa) false false false
      /\ exists ea',
          Audio.audio (Audio.changeItem linka pa) = Some ea'
          /\ Media.src ea' = linka /\ Media.paused ea' = true
          /\ Media.currentTime ea' = 0 /\ Media.duration ea' = None
          /\ Media.volume ea' = Audio.volume sa
          /\ Media.playbackRate ea' = Audio.speed sa).
Proof.
  intros Hv _ Ha Hm sv sa. split.
  - unfold DirectVideo.loadItem. rewrite Hv. simpl. split; [reflexivity|].
    eexists. split; [reflexivity|]. simpl. repeat split; reflexivity.
  - unfold Audio.changeItem, Audio.loadTrack, Audio.resetImage. simpl.
    rewrite Ha, Hm. simpl. split; [reflexivity|].
    eexists. split; [reflexivity|]. simpl. repeat split; reflexivity.
Qed.

Lemma item_change_resets_session_witness :
  DirectVideo.st
    (DirectVideo.loadItem "https://cdn.example.org/b.mp4"
       (DirectVideo.mkPlayer
          (DirectVideo.mkState true 30 (Some 100) (4 # 10) (4 # 10) true
             true false false 40 true (3 # 2) None 0 "1080p")
          (Some (Media.mkElement "https://cdn.example.org/a.mp4"
                   false 30 (Some 100) 0 false (3 # 2)))))
  = DirectVideo.mkState false 0 (Some 0) (4 # 10) (4 # 10) true
      true true false 0 false (3 # 2) None 0 ""
  /\ Audio.st
       (Audio.changeItem "https://cdn.example.org/b.mp3"
          (Audio.mkPlayer
             (Audio.mkState true 30 (Some 100) (4 # 10) (4 # 10) false
                false 40 true (3 # 2) true true false)
             (Some (Media.mkElement "https://cdn.example.org/a.mp3"
                      false 30 (Some 100) (4 # 10) false (3 # 2)))))
     = Audio.mkState false 0 (Some 0) (4 # 10) (4 # 10) false
         true 0 true (3 # 2) false false false.
Proof.
  pose proof
    (item_change_resets_session
       (DirectVideo.mkPlayer
          (DirectVideo.mkState true 30 (Some 100) (4 # 10) (4 # 10) true
             true false false 40 true (3 # 2) None 0 "1080p")
          (Some (Media.mkElement "https://cdn.example.org/a.mp4"
                   false 30 (Some 100) 0 false (3 # 2))))
       (Audio.mkPlayer
          (Audio.mkState true 30 (Some 100) (4 # 10) (4 # 10) false
             false 40 true (3 # 2) true true false)
          (Some (Media.mkElement "https://cdn.example.org/a.mp3"
                   false 30 (Some 100) (4 # 10) false (3 # 2))))
       (Media.mkElement "https://cdn.example.org/a.mp4"
          false 30 (Some 100) 0 false (3 # 2))
       (Media.mkElement "https://cdn.example.org/a.mp3"
          false 30 (Some 100) (4 # 10) false (3 # 2))
       "https://cdn.example.org/b.mp4" "https://cdn.example.org/b.mp3"
       eq_refl eq_refl eq_refl eq_refl) as P.
  cbv zeta in P. destruct P as [[Pv _] [Pa _]].
  split; [exact Pv | exact Pa].
Defined.

(** C10. In the audio player the [ended] event, with repeat on, makes no
    call to the host: the state is kept, and the element (when mounted)
    is sent back to position zero on the same source and asked to play,
    which starts it unless the platform refuses.  With repeat off the
    event calls [onEnded] once and changes nothing. *)
Theorem handleEnded_repeat (allowed : bool) (p : Audio.Player) :
  (Audio.repeat (Audio.st p) = true ->
   snd (Audio.handleEnded allowed p) = []
   /\ Audio.st (fst (Audio.handleEnded allowed p)) = Audio.st p
   /\ forall a,
       Audio.audio p = Some a ->
       exists a',
         Audio.audio (fst (Audio.handleEnded allowed p)) = Some a'
         /\ Media.currentTime a' = 0%Q
         /\ Media.src a' = Media.src a
         /\ (allowed = true -> Media.paused a' = false))
  /\ (Audio.repeat (Audio.st p) = false ->
      Audio.handleEnded allowed p = (p, [onEnded])).
Proof.
  unfold Audio.handleEnded. split; intros Hr; rewrite Hr; [|reflexivity].
  destruct (Audio.audio p) as [a|] eqn:Ha; simpl; repeat split.
  - intros a0 [= <-]. eexists. split; [reflexivity|].
    destruct allowed; simpl; repeat split; congruence.
  - intros a0. rewrite Ha. discriminate.
Qed.

Lemma handleEnded_repeat_witness :
  snd (Audio.handleEnded true
         (Audio.mkPlayer (Audio.setRepeat true Audio.initial)
            (Some (Media.mkElement "a.mp3" true 100 (Some 100) 1 false 1))))
  = [].
Proof.
  apply (proj1 (handleEnded_repeat true
           (Audio.mkPlayer (Audio.setRepeat true Audio.initial)
              (Some (Media.mkElement "a.mp3" true 100 (Some 100) 1 false 1))))
         eq_refl).
Defined.

End NativePlayers.

(** ** The embedded-player controller: liveness and polling *)

Module YouTubeFacts.

Import YouTube.

Lemma update_inst_lookup (i : nat) (f : Instance -> Instance) (w : World) (x : Instance) :
  insts w !! i = Some x -> insts (update_inst i f w) !! i = Some (f x).
Proof.
  intros H. unfold update_inst. rewrite H. simpl.
  apply list_lookup_insert_eq. now apply lookup_lt_Some in H.
Qed.

Lemma update_inst_liveness (i : nat) (f : Instance -> Instance) (w : World) :
  (forall x, destroyed (f x) = destroyed x) ->
  liveness (update_inst i f w) = liveness w.
Proof.
  intros Hf. unfold liveness, update_inst.
  destruct (insts w !! i) as [x|] eqn:Hx; [|reflexivity]. simpl.
  rewrite list_fmap_insert, Hf. f_equal.
  apply list_insert_id. now rewrite list_lookup_fmap, Hx.
Qed.

Lemma init_liveness (i : nat) (w : World) : liveness (init i w) = liveness w.
Proof.
  unfold init. destruct (insts w !! i) as [x|]; [|reflexivity].
  now destruct (destroyed x || negb (mounted w)).
Qed.

Lemma check_liveness (avail : bool) (i : nat) (w : World) :
  liveness (check avail i w) = liveness w.
Proof.
  unfold check. destruct (insts w !! i) as [x|]; [|reflexivity].
  destruct (destroyed x); [reflexivity|].
  destruct avail; [apply init_liveness|].
  destruct (Nat.ltb (S (attempts x)) 50).
  - now apply update_inst_liveness.
  - change (liveness (update_inst i (set_attempts (S (attempts x))) w) = liveness w).
    now apply update_inst_liveness.
Qed.

Lemma timerFires_liveness (avail : bool) (i : nat) (w : World) :
  liveness (timerFires avail i w) = liveness w.
Proof.
  unfold timerFires. destruct (insts w !! i) as [x|]; [|reflexivity].
  destruct (timer x); [|reflexivity].
  rewrite check_liveness.
  change (liveness (update_inst i (set_timer None) w) = liveness w).
  now apply update_inst_liveness.
Qed.

Lemma onPlaying_liveness (r : Replies) (w : World) :
  liveness (onPlaying r w) = liveness w.
Proof.
  unfold onPlaying, ask. simpl.
  destruct (playerRef w); simpl;
    repeat (match goal with
            | |- context [match ?x with _ => _ end] => destruct x; simpl
            end); reflexivity.
Qed.

(** A callback of a run never touches the liveness data. *)
Lemma callback_liveness (i : nat) (ev : Event) (w : World) :
  callback_of i ev -> liveness (apply ev w) = liveness w.
Proof.
  destruct ev; simpl; try contradiction; intros _.
  - apply timerFires_liveness.
  - unfold onReady. destruct (insts w !! i0) as [x|]; [|reflexivity].
    now destruct (destroyed x).
  - unfold onStateChange. destruct (insts w !! i0) as [x|]; [|reflexivity].
    destruct (destroyed x); [reflexivity|].
    destruct e; try reflexivity. apply onPlaying_liveness.
  - unfold onPlaybackQualityChange. destruct (insts w !! i0) as [x|]; [|reflexivity].
    now destruct (destroyed x).
  - unfold onError. destruct (insts w !! i0) as [x|]; [|reflexivity].
    now destruct (destroyed x).
Qed.

(** The guard: a callback of a torn-down run changes neither the state
    of the component, nor the player it holds, nor the identifier it
    expects, and calls nothing. *)
Lemma torn_down_callback (i : nat) (ev : Event) (w : World) :
  torn_down i w -> callback_of i ev ->
  st (apply ev w) = st w
  /\ hostCalls (apply ev w) = hostCalls w
  /\ playerRef (apply ev w) = playerRef w
  /\ expectedVideoId (apply ev w) = expectedVideoId w.
Proof.
  intros (x & Hx & Hd) Hcb.
  destruct ev; simpl in *; try contradiction; subst i0.
  - unfold timerFires. rewrite Hx. destruct (timer x); [|auto].
    unfold check.
    assert (Hl : insts (set_clock (Nat.max (clock w) n)
                          (update_inst i (set_timer None) w)) !! i
                 = Some (set_timer None x))
      by (now apply update_inst_lookup).
    rewrite Hl. simpl. rewrite Hd. unfold update_inst. now rewrite Hx.
  - unfold onReady. now rewrite Hx, Hd.
  - unfold onStateChange. now rewrite Hx, Hd.
  - unfold onPlaybackQualityChange. now rewrite Hx, Hd.
  - unfold onError. now rewrite Hx, Hd.
Qed.

Lemma cleanup_all_torn_down (w : World) :
  others_torn_down (liveness w) ->
  current (cleanup w) = None
  /\ forall i d, (destroyed <$> insts (cleanup w)) !! i = Some d -> d = true.
Proof.
  intros Hinv. unfold cleanup. destruct (current w) as [c|] eqn:Hc; simpl.
  - split; [reflexivity|]. intros i d.
    unfold update_inst. destruct (insts w !! c) as [x|] eqn:Hx; simpl.
    + rewrite list_lookup_fmap. destruct (decide (i = c)) as [->|Hne].
      * rewrite list_lookup_insert_eq by (now apply lookup_lt_Some in Hx).
        now intros [= <-].
      * rewrite list_lookup_insert_ne by congruence.
        rewrite <- list_lookup_fmap. intros Hi.
        apply (Hinv i d); simpl; [assumption | congruence].
    + intros Hi. apply (Hinv i d); simpl; [assumption|].
      intros Heq. rewrite Hc in Heq. injection Heq as <-.
      rewrite list_lookup_fmap, Hx in Hi. discriminate.
  - split; [assumption|]. intros i d Hi.
    apply (Hinv i d); simpl; [assumption | congruence].
Qed.

Lemma effect_others_torn_down (avail : bool) (vid : string) (w : World) :
  current w = None ->
  (forall i d, (destroyed <$> insts w) !! i = Some d -> d = true) ->
  others_torn_down (liveness (effect avail vid w)).
Proof.
  intros Hc Hall. unfold effect. destruct (negb (truthy vid)).
  - intros i d Hi _. now apply (Hall i d).
  - rewrite check_liveness. intros i d. unfold liveness. simpl.
    rewrite fmap_app. simpl. intros Hi Hne.
    destruct (decide (i < length (insts w))) as [Hlt|Hge].
    + rewrite lookup_app_l in Hi by (now rewrite length_fmap).
      now apply (Hall i d).
    + rewrite lookup_app_r in Hi by (rewrite length_fmap; lia).
      rewrite length_fmap in Hi.
      destruct (i - length (insts w)) as [|k] eqn:Hk; [|now destruct k].
      exfalso. apply Hne. f_equal. lia.
Qed.

Lemma mount_others_torn_down (avail : bool) (link : string) :
  others_torn_down (liveness (mount avail link)).
Proof.
  unfold mount. apply effect_others_torn_down; [reflexivity|].
  intros i d Hi. now destruct i.
Qed.

Lemma apply_others_torn_down (ev : Event) (w : World) :
  others_torn_down (liveness w) -> others_torn_down (liveness (apply ev w)).
Proof.
  intros Hinv.
  destruct ev as [avail link| |avail i|i|i e r|i data|i|];
    try (rewrite (callback_liveness i); [assumption | reflexivity]).
  - simpl. unfold itemChange.
    destruct (String.eqb (getYTVideoId link) (memoVideoId w)); [assumption|].
    destruct (cleanup_all_torn_down (set_memoVideoId (getYTVideoId link) w) Hinv)
      as [Hc Hall].
    now apply effect_others_torn_down.
  - simpl. unfold unmount.
    destruct (cleanup_all_torn_down w Hinv) as [Hc Hall].
    intros i d Hi _. now apply (Hall i d).
  - assumption.
Qed.

Lemma run_others_torn_down (evs : list Event) (w : World) :
  others_torn_down (liveness w) -> others_torn_down (liveness (run evs w)).
Proof.
  revert w. induction evs as [|ev evs IH]; intros w Hinv; simpl; [assumption|].
  apply IH. now apply apply_others_torn_down.
Qed.

Lemma previous_runs_torn_down (avail : bool) (link : string) (evs : list Event) (i : nat) :
  let w := run evs (mount avail link) in
  i < length (insts w) -> current w <> Some i -> torn_down i w.
Proof.
  intros w Hi Hne. destruct (lookup_lt_is_Some_2 _ _ Hi) as [x Hx].
  exists x. split; [assumption|].
  apply (run_others_torn_down evs (mount avail link)
           (mount_others_torn_down avail link) i (destroyed x)); [|assumption].
  unfold liveness. simpl. fold w. now rewrite list_lookup_fmap, Hx.
Qed.

(** C9. Whatever happened since the controller was mounted, every run
    of the effect other than the current one has its liveness flag set
    (by the item change or the unmount that ended it); and a callback
    that belongs to a torn-down run ([onReady], [onStateChange],
    [onPlaybackQualityChange], [onError] or a poll tick) leaves the
    state of the component unchanged, calls nothing in the host, and
    keeps the player and the expected identifier of the new item. *)
Theorem late_callbacks_ignored
  (avail : bool) (link : string) (evs : list Event) (i : nat) (ev : Event) :
  let w := run evs (mount avail link) in
  i < length (insts w) -> current w <> Some i -> callback_of i ev ->
  torn_down i w
  /\ st (apply ev w) = st w
  /\ hostCalls (apply ev w) = hostCalls w
  /\ playerRef (apply ev w) = playerRef w
  /\ expectedVideoId (apply ev w) = expectedVideoId w
  /\ liveness (apply ev w) = liveness w.
Proof.
  intros w Hi Hne Hcb.
  assert (Ht : torn_down i w) by (now apply previous_runs_torn_down).
  split; [assumption|].
  destruct (torn_down_callback i ev w Ht Hcb) as (H1 & H2 & H3 & H4).
  repeat split; try assumption. now apply (callback_liveness i).
Qed.

Lemma late_callbacks_ignored_witness :
  let w :=
    run [ItemChange true "https://youtu.be/BBBBBBBBBBB"]
      (mount true "https://youtu.be/AAAAAAAAAAA") in
  st (apply (OnReady 0) w) = st w.
Proof.
  intros w.
  assert (Hi : 0 < length (insts w)) by (vm_compute; lia).
  assert (Hc : current w <> Some 0) by (vm_compute; discriminate).
  exact (proj1 (proj2
    (late_callbacks_ignored true "https://youtu.be/AAAAAAAAAAA"
       [ItemChange true "https://youtu.be/BBBBBBBBBBB"] 0 (OnReady 0)
       Hi Hc eq_refl))).
Defined.

End YouTubeFacts.

Module Polling.

Import YouTube.








End Polling.

(** ** More on the link helpers *)

Module LinkHelpers.

Import JsFacts Classifier.

Lemma search_id_valid (url m : string) :
  Js.search youtube_id_here url = Some m ->
  exists pre, shape_at url pre m /\ leftmost_shape url pre.
Proof.
  intros H. apply search_Some in H as (pre & rest & -> & Hr & Hfirst).
  apply youtube_id_here_spec in Hr. exists pre. split.
  - apply shape_at_split. eauto.
  - intros pre' id' Hs. apply shape_at_split in Hs as (rest' & Heq & Hs).
    destruct (Nat.le_gt_cases (String.length pre) (String.length pre')) as [|Hlt];
      [assumption|].
    apply youtube_id_here_spec in Hs. rewrite (Hfirst _ _ Heq Hlt) in Hs.
    discriminate.
Qed.

(** Every shape shows one of the two hosts. *)
Lemma shape_shows_host (url pre m : string) :
  shape_at url pre m -> isYouTubeLink url = true.
Proof.
  intros (marker & suf & Hin & _ & ->). apply isYouTubeLink_hosts.
  destruct Hin as [<-|[<-|[<-|[]]]].
  - exists pre, "youtube.com", ("/watch?v=" ++ m ++ suf), "youtube.com".
    repeat split; simpl; auto.
  - exists pre, "youtu.be", ("/" ++ m ++ suf), "youtu.be".
    repeat split; simpl; auto.
  - exists pre, "youtube.com", ("/embed/" ++ m ++ suf), "youtube.com".
    repeat split; simpl; auto.
Qed.

Lemma id_shows_host (url : string) :
  getYouTubeVideoId url <> "" -> isYouTubeLink url = true.
Proof.
  unfold getYouTubeVideoId. destruct (Js.search youtube_id_here url) as [m|] eqn:Hs.
  - intros _. apply search_id_valid in Hs as (pre & Hs & _).
    now apply (shape_shows_host url pre m).
  - intros H. now contradiction H.
Qed.

Lemma search_embed (m suf : string) :
  valid_id m ->
  Js.search youtube_id_here ("https://www.youtube.com/embed/" ++ m ++ suf) = Some m.
Proof.
  intros Hv. apply (search_id_leftmost _ "https://www." m).
  - exists "youtube.com/embed/", suf. simpl. auto.
  - now apply (leftmost_after_no_y "https://www.").
Qed.

(** X1. The embed address built by [getYouTubeEmbedUrl] carries the
    identifier of the link it was built from, and building it a second
    time changes nothing; a link without identifier is returned as it
    is. *)
Theorem getYouTubeEmbedUrl_keeps_id (url : string) :
  getYouTubeVideoId (getYouTubeEmbedUrl url) = getYouTubeVideoId url
  /\ getYouTubeEmbedUrl (getYouTubeEmbedUrl url) = getYouTubeEmbedUrl url
  /\ (getYouTubeVideoId url = "" -> getYouTubeEmbedUrl url = url).
Proof.
  unfold getYouTubeEmbedUrl, getYouTubeVideoId.
  destruct (Js.search youtube_id_here url) as [m|] eqn:Hs.
  - destruct (search_id_valid _ _ Hs) as (pre & (_ & _ & _ & Hv & _) & _).
    rewrite (search_embed m "?rel=0&modestbranding=1" Hv).
    repeat split. intros ->. destruct Hv as [Hl _]. discriminate.
  - rewrite Hs. auto.
Qed.

(** X2. A link from which an identifier is extracted is always classified
    as a scripted embed and dispatched to the YouTube controller, and it
    has a thumbnail address built from that identifier. *)
Theorem extracted_id_is_youtube (url : string) :
  getYouTubeVideoId url <> "" ->
  getLinkType url = youtube
  /\ VideoPlayer url = YouTubePlayer
  /\ getYouTubeThumbnail url
     = Some ("https://img.youtube.com/vi/" ++ getYouTubeVideoId url ++ "/hqdefault.jpg").
Proof.
  intros H. pose proof (id_shows_host url H) as Hy.
  unfold getLinkType, VideoPlayer, getYouTubeThumbnail. rewrite Hy.
  repeat split. unfold nonempty.
  destruct (String.eqb_spec (getYouTubeVideoId url) ""); [contradiction | reflexivity].
Qed.

Lemma extracted_id_is_youtube_witness :
  getLinkType "https://youtu.be/dQw4w9WgXcQ" = youtube.
Proof.
  assert (H : getYouTubeVideoId "https://youtu.be/dQw4w9WgXcQ" <> "")
    by (vm_compute; discriminate).
  exact (proj1 (extracted_id_is_youtube "https://youtu.be/dQw4w9WgXcQ" H)).
Defined.

(** X3. [getThumbnail] returns the explicit thumbnail whenever it is a
    non-empty string; otherwise it returns what [getYouTubeThumbnail]
    returns for the link (the host test in between never changes the
    result); so there is no thumbnail exactly when the explicit one is
    missing or empty and no identifier can be extracted from the link. *)
Theorem getThumbnail_cases (item : Item.t) :
  (forall t, Item.thumbnail item = Some t -> t <> "" -> getThumbnail item = Some t)
  /\ (or_empty (Item.thumbnail item) = "" ->
      getThumbnail item = getYouTubeThumbnail (Item.link item))
  /\ (getThumbnail item = None <->
      or_empty (Item.thumbnail item) = ""
      /\ getYouTubeVideoId (Item.link item) = "").
Proof.
  assert (Hfall : or_empty (Item.thumbnail item) = "" ->
                  getThumbnail item = getYouTubeThumbnail (Item.link item)).
  { intros He. unfold getThumbnail. rewrite He. simpl.
    destruct (isYouTubeLink (Item.link item)) eqn:Hy; [reflexivity|].
    unfold getYouTubeThumbnail, nonempty.
    destruct (String.eqb_spec (getYouTubeVideoId (Item.link item)) "") as [|Hne];
      [reflexivity|].
    apply id_shows_host in Hne. congruence. }
  split; [|split; [exact Hfall|]].
  - intros t Ht Hne. unfold getThumbnail, nonempty. rewrite Ht. simpl.
    now destruct (String.eqb_spec t "").
  - split.
    + intros Hn.
      assert (He : or_empty (Item.thumbnail item) = "").
      { unfold getThumbnail, nonempty in Hn.
        destruct (String.eqb_spec (or_empty (Item.thumbnail item)) "") as [|Hne];
          [assumption|]. simpl in Hn.
        destruct (Item.thumbnail item); [discriminate | now contradiction Hne]. }
      split; [assumption|]. rewrite (Hfall He) in Hn.
      unfold getYouTubeThumbnail, nonempty in Hn.
      now destruct (String.eqb_spec (getYouTubeVideoId (Item.link item)) "").
    + intros [He Hid]. rewrite (Hfall He).
      unfold getYouTubeThumbnail. now rewrite Hid.
Qed.

Lemma getThumbnail_cases_witness :
  getThumbnail
    (Item.mk "v1" "T" "D" "https://cdn.example.org/a.mp4" (Some "thumb.jpg")
       None None None None None None None None None None)
  = Some "thumb.jpg".
Proof.
  apply (proj1 (getThumbnail_cases
    (Item.mk "v1" "T" "D" "https://cdn.example.org/a.mp4" (Some "thumb.jpg")
       None None None None None None None None None None)) "thumb.jpg" eq_refl).
  discriminate.
Defined.

End LinkHelpers.

(** ** Resolution labels *)

Module ResLabel.

#[local] Open Scope Z_scope.

(** Below the lowest threshold the label spells the height, which never
    collides with a threshold label. *)
Lemma small_heights_checked :
  forallb
    (fun n =>
       let z := Z.of_nat n in
       String.eqb (getResLabel z) (decimal z ++ "p")
       && negb (existsb (String.eqb (getResLabel z)) res_labels)
       && nonempty (getResLabel z))
    (seq 1 239) = true.
Proof. vm_compute. reflexivity. Qed.

Lemma small_heights (h : Z) :
  0 < h < 240 ->
  getResLabel h = decimal h ++ "p"
  /\ ~ In (getResLabel h) res_labels
  /\ getResLabel h <> "".
Proof.
  intros Hh. pose proof small_heights_checked as Hc.
  rewrite forallb_forall in Hc. specialize (Hc (Z.to_nat h)).
  rewrite Z2Nat.id in Hc by lia.
  assert (Hin : In (Z.to_nat h) (seq 1 239)) by (apply in_seq; lia).
  apply Hc in Hin. apply andb_true_iff in Hin as [Hin Hne].
  apply andb_true_iff in Hin as [Heq Hnot].
  apply String.eqb_eq in Heq. split; [assumption|]. split.
  - intros Hl. apply negb_true_iff in Hnot.
    assert (Hex : existsb (String.eqb (getResLabel h)) res_labels = true).
    { apply existsb_exists. exists (getResLabel h). split; [assumption|].
      apply String.eqb_refl. }
    congruence.
  - intros He. unfold nonempty in Hne. rewrite He in Hne. discriminate.
Qed.

Ltac geb_cases :=
  repeat match goal with
         | |- context [?a >=? ?b] => destruct (Z.geb_spec a b)
         | |- context [?a >? ?b] => destruct (Z.gtb_spec a b)
         end.

(** X4. The resolution label tells the band of the height: each of the
    seven threshold labels is returned exactly on the interval from its
    threshold up to the next one, the empty label exactly for a height
    that is not positive, and a positive height under 240 is spelled in
    digits followed by p. *)
Theorem getResLabel_bands (h : Z) :
  (getResLabel h = "" <-> h <= 0)
  /\ (getResLabel h = "2160p (4K)" <-> 2160 <= h)
  /\ (getResLabel h = "1440p" <-> 1440 <= h < 2160)
  /\ (getResLabel h = "1080p" <-> 1080 <= h < 1440)
  /\ (getResLabel h = "720p" <-> 720 <= h < 1080)
  /\ (getResLabel h = "480p" <-> 480 <= h < 720)
  /\ (getResLabel h = "360p" <-> 360 <= h < 480)
  /\ (getResLabel h = "240p" <-> 240 <= h < 360)
  /\ (0 < h < 240 -> getResLabel h = decimal h ++ "p").
Proof.
  destruct (Z_lt_le_dec 0 h) as [Hpos|Hneg];
    [destruct (Z_lt_le_dec h 240) as [Hsmall|Hbig]|].
  - destruct (small_heights h (conj Hpos Hsmall)) as (Hd & Hnot & Hne).
    repeat match goal with |- _ /\ _ => split end;
      try (intros _; assumption);
      (split; intros Hx; [exfalso | lia]);
      try (apply Hne; assumption);
      apply Hnot; rewrite Hx; simpl; tauto.
  - unfold getResLabel. geb_cases;
      repeat match goal with |- _ /\ _ => split end;
      try (intros Hx; lia);
      (split; intros Hx; try lia; try discriminate; try reflexivity).
  - unfold getResLabel. geb_cases;
      repeat match goal with |- _ /\ _ => split end;
      try (intros Hx; lia);
      (split; intros Hx; try lia; try discriminate; try reflexivity).
Qed.

Lemma getResLabel_bands_witness : getResLabel 144 = decimal 144 ++ "p".
Proof. apply (getResLabel_bands 144). lia. Defined.

End ResLabel.

(** ** Clock strings *)

Module Clock.

#[local] Open Scope Q_scope.

Lemma Qfloor_unique (q : Q) (z : Z) :
  inject_Z z <= q -> q < inject_Z (z + 1) -> Qfloor q = z.
Proof.
  intros Hle Hlt.
  assert (H1 : (z <= Qfloor q)%Z).
  { rewrite <- (Qfloor_Z z). now apply Qfloor_resp_le. }
  assert (H2 : (Qfloor q < z + 1)%Z).
  { rewrite Zlt_Qlt. apply Qle_lt_trans with q; [apply Qfloor_le | assumption]. }
  lia.
Qed.

Lemma inject_pos (c : Z) : (0 < c)%Z -> 0 < inject_Z c.
Proof. intros H. unfold Qlt. simpl. lia. Qed.

Lemma inject_nonneg (c : Z) : (0 <= c)%Z -> 0 <= inject_Z c.
Proof. intros H. unfold Qle. simpl. lia. Qed.

Lemma floor_div (x : Q) (c : Z) :
  0 <= x -> (0 < c)%Z -> Qfloor (x / inject_Z c) = (Qfloor x / c)%Z.
Proof.
  intros Hx Hc.
  pose proof (Qfloor_le x) as Hlo. pose proof (Qlt_floor x) as Hhi.
  assert (HC : 0 < inject_Z c) by (now apply inject_pos).
  apply Qfloor_unique.
  - apply Qle_shift_div_l; [assumption|].
    rewrite <- inject_Z_mult.
    apply Qle_trans with (inject_Z (Qfloor x)); [|assumption].
    rewrite <- Zle_Qle. pose proof (Z.mul_div_le (Qfloor x) c Hc). lia.
  - apply Qlt_shift_div_r; [assumption|].
    rewrite <- inject_Z_mult.
    apply Qlt_le_trans with (inject_Z (Qfloor x + 1)); [assumption|].
    rewrite <- Zle_Qle.
    pose proof (Z.mul_succ_div_gt (Qfloor x) c Hc). lia.
Qed.

Lemma div_nonneg (x : Q) (c : Z) :
  0 <= x -> (0 < c)%Z -> Qle_bool 0 (x / inject_Z c) = true.
Proof.
  intros Hx Hc. apply Qle_bool_iff. apply Qle_shift_div_l.
  - now apply inject_pos.
  - now rewrite Qmult_0_l.
Qed.

Lemma js_rem_floor (x : Q) (c : Z) :
  0 <= x -> (0 < c)%Z ->
  js_rem x (inject_Z c) = x - inject_Z c * inject_Z (Qfloor x / c).
Proof.
  intros Hx Hc. unfold js_rem.
  now rewrite (div_nonneg x c Hx Hc), (floor_div x c Hx Hc).
Qed.

Lemma js_rem_bounds (x : Q) (c : Z) :
  0 <= x -> (0 < c)%Z ->
  inject_Z (Qfloor x mod c) <= js_rem x (inject_Z c)
  /\ js_rem x (inject_Z c) < inject_Z (Qfloor x mod c + 1).
Proof.
  intros Hx Hc. rewrite (js_rem_floor x c Hx Hc).
  pose proof (Qfloor_le x) as Hlo. pose proof (Qlt_floor x) as Hhi.
  rewrite Z.mod_eq by lia.
  replace (Qfloor x - c * (Qfloor x / c) + 1)%Z
    with (Qfloor x + 1 - c * (Qfloor x / c))%Z by lia.
  unfold Z.sub. rewrite !inject_Z_plus, !inject_Z_opp, !inject_Z_mult.
  rewrite inject_Z_plus in Hhi.
  set (F := inject_Z (Qfloor x)) in *. set (A := inject_Z (Qfloor x / c)) in *.
  set (C := inject_Z c) in *. clearbody F A C. split; lra.
Qed.

Lemma floor_rem (x : Q) (c : Z) :
  0 <= x -> (0 < c)%Z ->
  Qfloor (js_rem x (inject_Z c)) = (Qfloor x mod c)%Z
  /\ 0 <= js_rem x (inject_Z c).
Proof.
  intros Hx Hc. destruct (js_rem_bounds x c Hx Hc) as [Hlo Hhi]. split.
  - now apply Qfloor_unique.
  - apply Qle_trans with (inject_Z (Qfloor x mod c)); [|assumption].
    apply inject_nonneg. apply Z.mod_pos_bound. assumption.
Qed.

(** The three fields of [formatTime], in whole numbers. *)
Lemma formatTime_fields (x : Q) :
  0 <= x ->
  Qfloor (x / 3600) = (Qfloor x / 3600)%Z
  /\ Qfloor (js_rem x 3600 / 60) = (Qfloor x mod 3600 / 60)%Z
  /\ Qfloor (js_rem x 60) = (Qfloor x mod 60)%Z.
Proof.
  intros Hx.
  change 3600 with (inject_Z 3600). change 60 with (inject_Z 60).
  split; [|split].
  - apply floor_div; [assumption | lia].
  - destruct (floor_rem x 3600 Hx) as [Hf Hn]; [lia|].
    rewrite floor_div by (assumption || lia). now rewrite Hf.
  - apply floor_rem; [assumption | lia].
Qed.

(** Digits and colons. *)
Lemma digits_no_colon (d : Decimal.uint) :
  all_units not_colon (NilEmpty.string_of_uint d) = true.
Proof. induction d; simpl; auto. Qed.

Lemma fill_no_colon (k : nat) : all_units not_colon (fill k "0") = true.
Proof. induction k; simpl; auto. Qed.

Lemma all_units_app (cls : ascii -> bool) (a b : string) :
  all_units cls (a ++ b) = all_units cls a && all_units cls b.
Proof.
  induction a as [|c a IH]; simpl; [reflexivity|].
  now rewrite IH, andb_assoc.
Qed.

Lemma split_colon_nonempty (s : string) : split_colon s <> [].
Proof.
  induction s as [|c s IH]; simpl; [discriminate|].
  destruct (Ascii.eqb c ":"); [discriminate|].
  destruct (split_colon s); discriminate.
Qed.

Lemma split_colon_field (f rest : string) :
  all_units not_colon f = true ->
  split_colon (f ++ ":" ++ rest) = f :: split_colon rest.
Proof.
  intros Hf. change (":" ++ rest) with (String ":" rest).
  induction f as [|c f IH]; simpl.
  - reflexivity.
  - simpl in Hf. apply andb_true_iff in Hf as [Hc Hf].
    unfold not_colon in Hc. apply negb_true_iff in Hc. rewrite Hc.
    now rewrite (IH Hf).
Qed.

Lemma split_colon_last (f : string) :
  all_units not_colon f = true -> split_colon f = [f].
Proof.
  intros Hf. induction f as [|c f IH]; simpl.
  - reflexivity.
  - simpl in Hf. apply andb_true_iff in Hf as [Hc Hf].
    unfold not_colon in Hc. apply negb_true_iff in Hc. rewrite Hc.
    now rewrite (IH Hf).
Qed.

Lemma decimal_no_colon (z : Z) : all_units not_colon (decimal z) = true.
Proof. apply digits_no_colon. Qed.

Lemma padded_no_colon (z : Z) :
  all_units not_colon (padStart 2 "0" (decimal z)) = true.
Proof.
  unfold padStart. now rewrite all_units_app, fill_no_colon, decimal_no_colon.
Qed.

Lemma parse_decimal (z : Z) : (0 <= z)%Z -> parse_field (decimal z) = Some z.
Proof.
  intros Hz. unfold parse_field, decimal. rewrite NilEmpty.usu.
  rewrite DecimalN.Unsigned.of_to. now rewrite Z2N.id.
Qed.

Lemma parse_zero_filled (k : nat) (s : string) (z : Z) :
  parse_field s = Some z -> parse_field (fill k "0" ++ s) = Some z.
Proof.
  intros Hs. induction k as [|k IH]; simpl; [assumption|].
  unfold parse_field in *. simpl.
  destruct (NilEmpty.uint_of_string (fill k "0" ++ s)) as [d|]; [|discriminate].
  simpl. exact IH.
Qed.

Lemma parse_padded (z : Z) :
  (0 <= z)%Z -> parse_field (padStart 2 "0" (decimal z)) = Some z.
Proof.
  intros Hz. unfold padStart. apply parse_zero_filled. now apply parse_decimal.
Qed.

(** X5. [formatTime] loses nothing but the fraction of a second: reading
    the clock string back gives the whole seconds of the input, for every
    non-negative time below 2^53 (the range in which the quotients of
    double-precision numbers have the whole part of the exact quotients
    and whole numbers are printed in plain digits); so two such times are
    printed alike only when their whole seconds agree.  [NaN] and
    negative times are printed as 0:00. *)
Theorem formatTime_reads_back (x : Q) :
  0 <= x -> x < inject_Z (2 ^ 53) ->
  parse_clock (formatTime (Some x)) = Some (Qfloor x)
  /\ (forall y,
        0 <= y -> y < inject_Z (2 ^ 53) ->
        formatTime (Some y) = formatTime (Some x) -> Qfloor y = Qfloor x)
  /\ formatTime None = "0:00"
  /\ (forall y, y < 0 -> formatTime (Some y) = "0:00").
Proof.
  intros Hx _.
  assert (Hread : forall y, 0 <= y -> parse_clock (formatTime (Some y)) = Some (Qfloor y)).
  { intros y Hy. unfold formatTime.
    replace (Num.gtb 0 y) with false
      by (symmetry; now apply NumFacts.gtb_false).
    destruct (formatTime_fields y Hy) as (Hh & Hm & Hs). rewrite Hh, Hm, Hs.
    assert (HF : (0 <= Qfloor y)%Z).
    { rewrite <- (Qfloor_Z 0). now apply Qfloor_resp_le. }
    set (F := Qfloor y) in *.
    assert (H1 : (0 <= F / 3600)%Z) by (apply Z.div_pos; lia).
    assert (H2 : (0 <= F mod 3600 / 60)%Z)
      by (apply Z.div_pos; [apply Z.mod_pos_bound|]; lia).
    assert (H3 : (0 <= F mod 60)%Z) by (apply Z.mod_pos_bound; lia).
    unfold parse_clock.
    destruct (Z.gtb_spec (F / 3600) 0) as [Hpos|Hzero].
    - rewrite split_colon_field by apply decimal_no_colon.
      rewrite split_colon_field by apply padded_no_colon.
      rewrite split_colon_last by apply padded_no_colon.
      simpl List.map.
      rewrite (parse_decimal _ H1), (parse_padded _ H2), (parse_padded _ H3).
      f_equal. clearbody F. Z.div_mod_to_equations. lia.
    - rewrite split_colon_field by apply decimal_no_colon.
      rewrite split_colon_last by apply padded_no_colon.
      simpl List.map.
      rewrite (parse_decimal _ H2), (parse_padded _ H3).
      f_equal. clearbody F. Z.div_mod_to_equations. lia. }
  split; [now apply Hread|]. split; [|split].
  - intros y Hy _ Heq. pose proof (Hread y Hy) as Ry. rewrite Heq in Ry.
    rewrite (Hread x Hx) in Ry. congruence.
  - reflexivity.
  - intros y Hy. unfold formatTime.
    now rewrite (proj2 (NumFacts.gtb_lt 0 y) Hy).
Qed.

Lemma formatTime_reads_back_witness :
  parse_clock (formatTime (Some (14769 # 2))) = Some 7384%Z.
Proof.
  assert (H1 : 0 <= 14769 # 2) by (unfold Qle; simpl; lia).
  assert (H2 : 14769 # 2 < inject_Z (2 ^ 53)) by (unfold Qlt; simpl; lia).
  exact (proj1 (formatTime_reads_back (14769 # 2) H1 H2)).
Defined.

End Clock.

(** ** Navigation between the items of a list *)

Module Navigation.

#[local] Open Scope Z_scope.

Lemma next_in_range (len : nat) (i : Z) :
  0 <= i < Z.of_nat len ->
  App.next len (Some i) = Some ((i + 1) mod Z.of_nat len).
Proof.
  intros Hi. unfold App.next, App.rem.
  destruct (Z.eqb_spec (Z.of_nat len) 0); [lia|].
  now rewrite Z.rem_mod_nonneg by lia.
Qed.

Lemma prev_in_range (len : nat) (i : Z) :
  0 <= i < Z.of_nat len ->
  App.prev len (Some i) = Some ((i - 1 + Z.of_nat len) mod Z.of_nat len).
Proof.
  intros Hi. unfold App.prev, App.rem.
  destruct (Z.eqb_spec (Z.of_nat len) 0); [lia|].
  now rewrite Z.rem_mod_nonneg by lia.
Qed.

Lemma next_iter (len : nat) (i : Z) (k : nat) :
  0 <= i < Z.of_nat len ->
  Nat.iter k (App.next len) (Some i) = Some ((i + Z.of_nat k) mod Z.of_nat len).
Proof.
  intros Hi. induction k as [|k IH].
  - simpl. now rewrite Z.add_0_r, Z.mod_small.
  - simpl Nat.iter. rewrite IH.
    rewrite next_in_range by (apply Z.mod_pos_bound; lia).
    f_equal. rewrite Z.add_mod_idemp_l by lia. f_equal. lia.
Qed.

Lemma next_value (len : nat) (i : Z) :
  0 <= i < Z.of_nat len ->
  App.next len (Some i) = Some (if i =? Z.of_nat len - 1 then 0 else i + 1).
Proof.
  intros Hi. rewrite next_in_range by assumption. f_equal.
  destruct (Z.eqb_spec i (Z.of_nat len - 1)) as [->|Hne].
  - replace (Z.of_nat len - 1 + 1) with (Z.of_nat len) by lia.
    apply Z.mod_same. lia.
  - apply Z.mod_small. lia.
Qed.

Lemma prev_value (len : nat) (i : Z) :
  0 <= i < Z.of_nat len ->
  App.prev len (Some i) = Some (if i =? 0 then Z.of_nat len - 1 else i - 1).
Proof.
  intros Hi. rewrite prev_in_range by assumption. f_equal.
  destruct (Z.eqb_spec i 0) as [->|Hne].
  - rewrite Z.mod_small by lia. lia.
  - replace (i - 1 + Z.of_nat len) with (i - 1 + 1 * Z.of_nat len) by lia.
    rewrite Z.mod_add by lia. apply Z.mod_small. lia.
Qed.

Lemma prev_next (len : nat) (i : Z) :
  0 <= i < Z.of_nat len -> App.prev len (App.next len (Some i)) = Some i.
Proof.
  intros Hi. rewrite next_value by assumption.
  destruct (Z.eqb_spec i (Z.of_nat len - 1)) as [->|Hne];
    rewrite prev_value by lia.
  - reflexivity.
  - destruct (Z.eqb_spec (i + 1) 0); [lia|]. f_equal. lia.
Qed.

Lemma next_prev (len : nat) (i : Z) :
  0 <= i < Z.of_nat len -> App.next len (App.prev len (Some i)) = Some i.
Proof.
  intros Hi. rewrite prev_value by assumption.
  destruct (Z.eqb_spec i 0) as [->|Hne]; rewrite next_value by lia.
  - now rewrite Z.eqb_refl.
  - destruct (Z.eqb_spec (i - 1) (Z.of_nat len - 1)); [lia|]. f_equal. lia.
Qed.

Lemma next_round (len : nat) (i : Z) :
  0 <= i < Z.of_nat len -> Nat.iter len (App.next len) (Some i) = Some i.
Proof.
  intros Hi. rewrite next_iter by assumption. f_equal.
  replace (i + Z.of_nat len) with (i + 1 * Z.of_nat len) by lia.
  rewrite Z.mod_add by lia. apply Z.mod_small. lia.
Qed.

Ltac open_cell :=
  unfold idx_of, next_of, prev_of, App.nextVideo, App.prevVideo, App.nextMusic,
    App.prevMusic, App.nextPodcast, App.prevPodcast in *;
  cbn [App.videoIdx App.musicIdx App.podcastIdx App.activeSection] in *.

Lemma iter_next_of (c : Cell) (len k : nat) (sec : App.SectionType) (v m p : option Z) :
  Nat.iter k (next_of c len) (App.mkState sec v m p)
  = match c with
    | video_cell => App.mkState sec (Nat.iter k (App.next len) v) m p
    | music_cell => App.mkState sec v (Nat.iter k (App.next len) m) p
    | podcast_cell => App.mkState sec v m (Nat.iter k (App.next len) p)
    end.
Proof.
  induction k as [|k IH]; [now destruct c|].
  simpl Nat.iter. rewrite IH. now destruct c.
Qed.

(** X6. Each of the six next and previous callbacks of the application
    writes the index cell of its own list and nothing else, and walks a
    non-empty list in a circle: from an index inside the list, next goes
    one up and from the last index to 0, previous goes one down and from 0
    to the last index, each undoes the other, and as many next steps as
    the list has items lead back to the start.  On an empty list both
    turn the index into NaN, which then stays, and no item is current. *)
Theorem navigation_is_circular (c : Cell) (len : nat) (i : Z) (s : App.State) :
  0 <= i < Z.of_nat len ->
  idx_of c s = Some i ->
  idx_of c (next_of c len s) = Some (if i =? Z.of_nat len - 1 then 0 else i + 1)
  /\ idx_of c (prev_of c len s) = Some (if i =? 0 then Z.of_nat len - 1 else i - 1)
  /\ prev_of c len (next_of c len s) = s
  /\ next_of c len (prev_of c len s) = s
  /\ Nat.iter len (next_of c len) s = s
  /\ (forall c', c' <> c ->
        idx_of c' (next_of c len s) = idx_of c' s
        /\ idx_of c' (prev_of c len s) = idx_of c' s)
  /\ App.activeSection (next_of c len s) = App.activeSection s
  /\ App.activeSection (prev_of c len s) = App.activeSection s
  /\ (forall s0,
        idx_of c (next_of c 0 s0) = None /\ idx_of c (prev_of c 0 s0) = None)
  /\ (forall n s0,
        idx_of c s0 = None ->
        idx_of c (next_of c n s0) = None /\ idx_of c (prev_of c n s0) = None)
  /\ (forall (A : Type) (l : list A), App.at_index l None = None).
Proof.
  intros Hi Hs.
  pose proof (next_value len i Hi) as Hn.
  pose proof (prev_value len i Hi) as Hp.
  pose proof (prev_next len i Hi) as Hpn.
  pose proof (next_prev len i Hi) as Hnp.
  pose proof (next_round len i Hi) as Hr.
  assert (Hz : forall q, App.next 0 q = None /\ App.prev 0 q = None)
    by (intros [q|]; split; reflexivity).
  destruct s as [sec v m p].
  split; [destruct c; open_cell; subst; assumption|].
  split; [destruct c; open_cell; subst; assumption|].
  split; [destruct c; open_cell; subst; now rewrite Hpn|].
  split; [destruct c; open_cell; subst; now rewrite Hnp|].
  split; [rewrite iter_next_of; destruct c; open_cell; subst; now rewrite Hr|].
  split; [intros c' Hc'; destruct c, c'; try contradiction; split; reflexivity|].
  split; [now destruct c|].
  split; [now destruct c|].
  split; [intros s0; destruct c; open_cell; apply Hz|].
  split; [|reflexivity].
  intros n s0 H0. destruct c; open_cell; rewrite H0; split; reflexivity.
Qed.

Lemma navigation_is_circular_witness :
  App.musicIdx (App.nextMusic 3 (App.mkState App.video (Some 1) (Some 2) (Some 0)))
  = Some 0
  /\ App.podcastIdx (App.prevPodcast 3 (App.mkState App.video (Some 1) (Some 2) (Some 0)))
     = Some 2.
Proof.
  assert (H2 : 0 <= 2 < Z.of_nat 3) by (simpl; lia).
  assert (H0 : 0 <= 0 < Z.of_nat 3) by (simpl; lia).
  split.
  - exact (proj1 (navigation_is_circular music_cell 3 2
                    (App.mkState App.video (Some 1) (Some 2) (Some 0)) H2 eq_refl)).
  - exact (proj1 (proj2 (navigation_is_circular podcast_cell 3 0
                    (App.mkState App.video (Some 1) (Some 2) (Some 0)) H0 eq_refl))).
Defined.

End Navigation.

(** ** The playlist and the gallery *)

Module ListsFacts.

Lemma findIndex_from_spec {A : Type} (f : A -> bool) (l : list A) (k : Z) :
  (exists n x,
      findIndex_from f l k = (k + Z.of_nat n)%Z
      /\ l !! n = Some x /\ f x = true
      /\ forall j y, j < n -> l !! j = Some y -> f y = false)
  \/ (findIndex_from f l k = (-1)%Z /\ forall x, In x l -> f x = false).
Proof.
  revert k. induction l as [|a l IH]; intros k; simpl.
  - right. split; [reflexivity | intros x []].
  - destruct (f a) eqn:Ha.
    + left. exists 0, a. repeat split; [lia | assumption | lia].
    + destruct (IH (k + 1)%Z) as [(n & x & Hk & Hx & Hf & Hmin)|[Hk Hnone]].
      * left. exists (S n), x. repeat split; [lia | assumption | assumption |].
        intros j y Hj Hy. destruct j as [|j]; simpl in Hy.
        -- now injection Hy as <-.
        -- apply (Hmin j y); [lia | assumption].
      * right. split; [assumption|]. intros x [<-|Hx]; auto.
Qed.

Lemma lookup_unique_id (items : list Item.t) (i j : nat) (a b : Item.t) :
  NoDup (List.map Item.id items) ->
  items !! i = Some a -> items !! j = Some b -> Item.id a = Item.id b -> i = j.
Proof.
  intros Hnd Ha Hb Hid.
  apply (NoDup_lookup (List.map Item.id items) i j (Item.id a)).
  - assumption.
  - change (List.map Item.id items) with (Item.id <$> items).
    now rewrite list_lookup_fmap, Ha.
  - change (List.map Item.id items) with (Item.id <$> items).
    rewrite list_lookup_fmap, Hb. simpl. now rewrite Hid.
Qed.

Lemma at_index_nat {A : Type} (l : list A) (i : nat) :
  App.at_index l (Some (Z.of_nat i)) = l !! i.
Proof.
  unfold App.at_index. destruct (Z.ltb_spec (Z.of_nat i) 0); [lia|].
  now rewrite Nat2Z.id.
Qed.

Section WithLowerCase.

Variable toLowerCase : string -> string.

(** X7. A click on a row of the playlist hands [onSelect] the index of
    the first item of the whole list that has the id of the row's item:
    the index is inside the list (never -1), and when the ids of the list
    are distinct the item made current is the very item of the row,
    whatever the search text and the category filter are. *)
Theorem row_click_selects
  (items : list Item.t) (search selectedCategory : string) (item : Item.t) :
  In item (playlist_filtered toLowerCase items search selectedCategory) ->
  exists k first,
    row_index items item = Z.of_nat k
    /\ items !! k = Some first
    /\ Item.id first = Item.id item
    /\ (forall j y, j < k -> items !! j = Some y -> Item.id y <> Item.id item)
    /\ (NoDup (List.map Item.id items) ->
        App.at_index items (Some (row_index items item)) = Some item).
Proof.
  intros Hin. unfold playlist_filtered in Hin. apply filter_In in Hin as [Hin _].
  unfold row_index, findIndex.
  destruct (findIndex_from_spec
              (fun i => String.eqb (Item.id i) (Item.id item)) items 0)
    as [(n & x & Hk & Hx & Hf & Hmin)|[_ Hnone]].
  - exists n, x. rewrite Hk, Z.add_0_l. apply String.eqb_eq in Hf.
    repeat split; try assumption.
    + intros j y Hj Hy Heq. specialize (Hmin j y Hj Hy).
      apply String.eqb_neq in Hmin. contradiction.
    + intros Hnd. rewrite at_index_nat, Hx. f_equal.
      apply list_elem_of_In, list_elem_of_lookup in Hin as [m Hm].
      assert (n = m) by (now apply (lookup_unique_id items n m x item)).
      subst m. congruence.
  - specialize (Hnone item Hin). rewrite String.eqb_refl in Hnone. discriminate.
Qed.

Lemma set_from_acc (l acc : list string) (c : string) :
  In c (fold_left
          (fun acc c => if existsb (String.eqb c) acc then acc else (acc ++ [c])%list)
          l acc)
  <-> In c acc \/ In c l.
Proof.
  revert acc. induction l as [|a l IH]; intros acc; simpl.
  - tauto.
  - rewrite IH. destruct (existsb (String.eqb a) acc) eqn:He.
    + apply existsb_exists in He as (y & Hy & Heq).
      apply String.eqb_eq in Heq. subst y. split; [tauto|].
      intros [H|[<-|H]]; auto.
    + rewrite in_app_iff. simpl. tauto.
Qed.

Lemma set_from_NoDup_acc (l acc : list string) :
  NoDup acc ->
  NoDup
    (fold_left
       (fun acc c => if existsb (String.eqb c) acc then acc else (acc ++ [c])%list)
       l acc).
Proof.
  revert acc. induction l as [|a l IH]; intros acc Hnd; simpl; [assumption|].
  apply IH. destruct (existsb (String.eqb a) acc) eqn:He; [assumption|].
  apply NoDup_app. repeat split.
  - assumption.
  - intros x Hx Hxa. apply list_elem_of_In in Hx. apply list_elem_of_In in Hxa.
    destruct Hxa as [Heq|[]]. subst x.
    assert (existsb (String.eqb a) acc = true); [|congruence].
    apply existsb_exists. exists a. split; [assumption | apply String.eqb_refl].
  - apply NoDup_singleton.
Qed.

Lemma item_categories_In (items : list Item.t) (c : string) :
  In c (item_categories items) <->
  c <> "" /\ exists it, In it items /\ Item.category it = Some c.
Proof.
  unfold item_categories. rewrite filter_In, in_map_iff. unfold nonempty. split.
  - intros [(it & Hc & Hit) Hne]. split.
    + intros ->. discriminate.
    + exists it. split; [assumption|].
      destruct (Item.category it) as [c'|]; simpl in Hc; [now subst|].
      subst c. discriminate.
  - intros [Hne (it & Hit & Hc)]. split.
    + exists it. now rewrite Hc.
    + now destruct (String.eqb_spec c "").
Qed.

(** X8. The playlist shows category chips only when the items have at
    least two different non-empty categories; the chips are then "All"
    followed by those categories, each once.  With an empty search text
    every chip that is shown selects at least one item, each selected
    item being of the chip's category (unless the chip is named All),
    and "All" selects the whole list. *)
Theorem category_chips
  (items : list Item.t) :
  toLowerCase "" = "" ->
  (exists cats,
      categories items = "All" :: cats
      /\ NoDup cats
      /\ (forall c, In c cats <->
            c <> "" /\ exists it, In it items /\ Item.category it = Some c)
      /\ chips items = (if Nat.ltb 1 (length cats) then "All" :: cats else []))
  /\ (forall c, In c (chips items) ->
        playlist_filtered toLowerCase items "" c <> []
        /\ forall it,
            In it (playlist_filtered toLowerCase items "" c) ->
            c = "All" \/ Item.category it = Some c)
  /\ playlist_filtered toLowerCase items "" "All" = items.
Proof.
  intros Hlow.
  assert (Hsearch : forall it, playlist_matchSearch toLowerCase "" it = true).
  { intros it. unfold playlist_matchSearch. now rewrite Hlow. }
  assert (Hcats : forall c, In c (set_from (item_categories items)) <->
            c <> "" /\ exists it, In it items /\ Item.category it = Some c).
  { intros c. unfold set_from. rewrite set_from_acc. simpl.
    rewrite <- item_categories_In. tauto. }
  assert (Hall : playlist_filtered toLowerCase items "" "All" = items).
  { unfold playlist_filtered. clear Hcats.
    induction items as [|a l IH]; [reflexivity|].
    simpl. rewrite Hsearch. simpl. now rewrite IH. }
  assert (Hchips : chips items
                   = if Nat.ltb 1 (length (set_from (item_categories items)))
                     then "All" :: set_from (item_categories items) else [])
    by reflexivity.
  split; [|split; [|exact Hall]].
  - exists (set_from (item_categories items)). split; [reflexivity|].
    split; [apply set_from_NoDup_acc; apply NoDup_nil_2|].
    split; [exact Hcats | exact Hchips].
  - intros c Hc. rewrite Hchips in Hc.
    destruct (set_from (item_categories items)) as [|c0 cats] eqn:Hset;
      [contradiction|].
    destruct (Nat.ltb 1 (length (c0 :: cats))); [|contradiction].
    assert (Hsome : exists it, In it items).
    { destruct (proj1 (Hcats c0) (or_introl eq_refl)) as (_ & it & Hit & _).
      now exists it. }
    destruct Hc as [<-|Hc].
    + split; [|intros it _; now left].
      rewrite Hall. intros Hnil. destruct Hsome as (it & Hit).
      rewrite Hnil in Hit. contradiction.
    + apply Hcats in Hc as [Hne (it & Hit & Hcat)]. split.
      * intros Hempty.
        assert (Hin : In it (playlist_filtered toLowerCase items "" c)).
        { unfold playlist_filtered. apply filter_In. split; [assumption|].
          rewrite Hsearch. unfold matchCat. rewrite Hcat, String.eqb_refl.
          now rewrite orb_true_r. }
        rewrite Hempty in Hin. contradiction.
      * intros it' Hin. unfold playlist_filtered in Hin.
        apply filter_In in Hin as [_ Hpass]. rewrite Hsearch in Hpass.
        unfold matchCat in Hpass. simpl in Hpass.
        apply orb_true_iff in Hpass as [Hal|Hsame].
        -- left. now apply String.eqb_eq.
        -- right. destruct (Item.category it') as [c'|]; [|discriminate].
           apply String.eqb_eq in Hsame. now subst.
Qed.

End WithLowerCase.

Lemma row_click_selects_witness :
  let a := Item.mk "a" "Alpha" "first" "https://cdn.example.org/a.mp4"
             None None (Some "Talks") None None None None None None None None in
  let b := Item.mk "b" "Beta" "second" "https://cdn.example.org/b.mp4"
             None None (Some "Music") None None None None None None None None in
  exists k first,
    row_index [a; b] b = Z.of_nat k
    /\ [a; b] !! k = Some first
    /\ Item.id first = Item.id b
    /\ (forall j y, j < k -> [a; b] !! j = Some y -> Item.id y <> Item.id b)
    /\ (NoDup (List.map Item.id [a; b]) ->
        App.at_index [a; b] (Some (row_index [a; b] b)) = Some b).
Proof.
  intros a b.
  apply (row_click_selects (fun s => s) [a; b] "" "Music" b).
  vm_compute. auto.
Defined.

Lemma category_chips_witness :
  let items :=
    [Item.mk "a" "Alpha" "first" "https://cdn.example.org/a.mp4"
       None None (Some "Talks") None None None None None None None None;
     Item.mk "b" "Beta" "second" "https://cdn.example.org/b.mp4"
       None None (Some "Music") None None None None None None None None] in
  chips items = ["All"; "Talks"; "Music"]
  /\ playlist_filtered (fun s => s) items "" "Talks" <> [].
Proof.
  intros items. split; [reflexivity|].
  refine (proj1 (proj1 (proj2 (category_chips (fun s => s) items eq_refl))
                   "Talks" _)).
  simpl. right. left. reflexivity.
Defined.

Lemma allItems_lookup (videos music podcasts : list Item.t) (k : nat) (g : GalleryItem) :
  allItems videos music podcasts !! k = Some g ->
  match mediaType g with
  | type_video => videos !! originalIndex g = Some (base g)
  | type_music => music !! originalIndex g = Some (base g)
  | type_podcast => podcasts !! originalIndex g = Some (base g)
  end.
Proof.
  unfold allItems. intros H.
  apply lookup_app_Some in H as [H|[_ H]];
    [|apply lookup_app_Some in H as [H|[_ H]]];
    rewrite list_lookup_imap in H;
    match type of H with
    | _ <$> ?l !! ?i = _ => destruct (l !! i) as [x|] eqn:Hx; [|discriminate]
    end;
    simpl in H; injection H as <-; simpl; assumption.
Qed.

(** X9. A click on a tile of the gallery opens the section of the tile's
    kind and makes the clicked item the current item of that section; the
    current indices of the other two sections stay as they were; the tile
    is then marked active, and no other tile of the same kind at another
    position is. *)
Theorem gallery_click_selects
  (videos music podcasts : list Item.t) (k : nat) (g : GalleryItem) (s : App.State) :
  allItems videos music podcasts !! k = Some g ->
  let s' := gallery_handleClick g s in
  App.activeSection s' = sectionMap (mediaType g)
  /\ match mediaType g with
     | type_video =>
         App.at_index videos (App.videoIdx s') = Some (base g)
         /\ App.musicIdx s' = App.musicIdx s /\ App.podcastIdx s' = App.podcastIdx s
     | type_music =>
         App.at_index music (App.musicIdx s') = Some (base g)
         /\ App.videoIdx s' = App.videoIdx s /\ App.podcastIdx s' = App.podcastIdx s
     | type_podcast =>
         App.at_index podcasts (App.podcastIdx s') = Some (base g)
         /\ App.videoIdx s' = App.videoIdx s /\ App.musicIdx s' = App.musicIdx s
     end
  /\ gallery_isActive s' g = true
  /\ (forall g',
        mediaType g' = mediaType g -> originalIndex g' <> originalIndex g ->
        gallery_isActive s' g' = false).
Proof.
  intros Hk s'. apply allItems_lookup in Hk.
  unfold s', gallery_handleClick, gallery_isActive.
  destruct g as [b ty i]. simpl in *.
  destruct ty; simpl; rewrite ?at_index_nat, ?Z.eqb_refl;
    (split; [reflexivity|]);
    (split;
       [split;
          [destruct (Z.ltb_spec (Z.of_nat i) 0); [lia|]; rewrite Nat2Z.id; assumption
          | split; reflexivity]|]);
    (split; [reflexivity|]);
    intros g' Hty Hne; rewrite Hty; apply Z.eqb_neq; lia.
Qed.

Lemma gallery_click_selects_witness :
  let a := Item.mk "a" "Alpha" "first" "https://cdn.example.org/a.mp4"
             None None None None None None None None None None None in
  let m := Item.mk "m" "Tune" "song" "https://cdn.example.org/m.mp3"
             None None None None None None None None None None None in
  App.activeSection
    (gallery_handleClick (mkGalleryItem m type_music 0) App.initial)
  = App.music.
Proof.
  intros a m.
  exact (proj1 (gallery_click_selects [a] [m] [] 1 (mkGalleryItem m type_music 0)
                  App.initial eq_refl)).
Defined.

End ListsFacts.

(** ** Entering and leaving fullscreen *)

Module FullscreenFacts.

Import Fullscreen.

Lemma try_each_spec (who : Who) (ms : list (string * bool * Method)) :
  try_each who ms = through (tagged who ms).
Proof.
  unfold through. induction ms as [|[[name aw] m] ms IH]; simpl; [reflexivity|].
  destruct m, aw; simpl; rewrite ?IH; reflexivity.
Qed.

Lemma any_accepted_app (l1 l2 : list Attempt) :
  any_accepted (l1 ++ l2) = any_accepted l1 || any_accepted l2.
Proof. apply existsb_app. Qed.

Lemma until_accepted_app (l1 l2 : list Attempt) :
  until_accepted (l1 ++ l2)
  = if any_accepted l1 then until_accepted l1
    else (until_accepted l1 ++ until_accepted l2)%list.
Proof.
  induction l1 as [|[[c aw] m] l1 IH]; simpl; [reflexivity|].
  destruct m, aw; simpl; rewrite ?IH; try destruct (any_accepted l1); reflexivity.
Qed.

(** Once an attempt was accepted, nothing more is tried. *)
Lemma through_done (l1 l2 : list Attempt) :
  any_accepted l1 = true -> through (l1 ++ l2) = through l1.
Proof.
  intros H. unfold through. now rewrite any_accepted_app, until_accepted_app, H.
Qed.

Lemma through_try_set (who : Who) (name : string) (m : Method) (l : list Attempt) :
  any_accepted l = false ->
  try_set who name m (through l) = through (l ++ [((who, name), false, m)]).
Proof.
  intros Hl. unfold through. rewrite any_accepted_app, until_accepted_app, Hl.
  destruct m; simpl; rewrite ?app_nil_r; reflexivity.
Qed.

Lemma through_more_set (who : Who) (name : string) (m : Method) (l : list Attempt) :
  (if negb (fst (through l)) then try_set who name m (through l) else through l)
  = through (l ++ [((who, name), false, m)]).
Proof.
  destruct (any_accepted l) eqn:Hl; unfold through at 1; cbn [fst]; rewrite Hl;
    cbn [negb].
  - now rewrite through_done.
  - now apply through_try_set.
Qed.

Lemma through_more_each
  (who : Who) (ms : list (string * bool * Method)) (l : list Attempt) :
  (if negb (fst (through l))
   then (fst (try_each who ms), (snd (through l) ++ snd (try_each who ms))%list)
   else through l)
  = through (l ++ tagged who ms).
Proof.
  destruct (any_accepted l) eqn:Hl; unfold through at 1; cbn [fst]; rewrite Hl;
    cbn [negb].
  - now rewrite through_done.
  - rewrite try_each_spec. unfold through. cbn [fst snd].
    now rewrite any_accepted_app, until_accepted_app, Hl.
Qed.

Lemma through_each_after_failures
  (who : Who) (ms : list (string * bool * Method)) (l : list Attempt) :
  any_accepted l = false ->
  (fst (try_each who ms), (snd (through l) ++ snd (try_each who ms))%list)
  = through (l ++ tagged who ms).
Proof.
  intros Hl. rewrite try_each_spec. unfold through. cbn [fst snd].
  now rewrite any_accepted_app, until_accepted_app, Hl.
Qed.

Lemma all_missing_quiet (l : list Attempt) :
  (forall a, In a l -> snd a = missing) ->
  any_accepted l = false /\ until_accepted l = [].
Proof.
  induction l as [|[[c aw] m] l IH]; intros H; [split; reflexivity|].
  assert (Hm : m = missing) by (apply (H (c, aw, m)); now left). subst m. simpl.
  apply IH. intros a Hin. apply H. now right.
Qed.

Lemma accepted_in (l : list Attempt) :
  any_accepted l = true <->
  exists c aw m, In (c, aw, m) l /\ accepted aw m = true.
Proof.
  unfold any_accepted. rewrite existsb_exists. split.
  - intros ([[c aw] m] & Hin & Hw). now exists c, aw, m.
  - intros (c & aw & m & Hin & Hw). now exists (c, aw, m).
Qed.

Lemma enterFullscreen_through
  (container : Target) (videoEl : option VideoTarget) (frame : option Target)
  (o : option Orientation) :
  let all := attempts container videoEl frame in
  enterFullscreen container videoEl frame o
  = (any_accepted all,
     (until_accepted all ++ (if any_accepted all then lockLandscape o else []))%list).
Proof.
  intros all.
  assert (Hs : forall s,
             s = through all ->
             (if fst s then (true, (snd s ++ lockLandscape o)%list) else s)
             = (any_accepted all,
                (until_accepted all
                 ++ (if any_accepted all then lockLandscape o else []))%list)).
  { intros s ->. unfold through. cbn [fst snd].
    destruct (any_accepted all); [reflexivity | now rewrite app_nil_r]. }
  unfold enterFullscreen. cbv zeta. apply Hs.
  unfold requestFS. rewrite (try_each_spec the_container).
  set (lc := tagged the_container (request_methods container)).
  assert (Hall : all
                 = (lc ++ match videoEl with
                          | Some v =>
                              [((the_video, "webkitEnterFullscreen"), false,
                                webkitEnterFullscreen v)]
                              ++ [((the_video, "webkitEnterFullScreen"), false,
                                   webkitEnterFullScreen v)]
                              ++ tagged the_video (request_methods (as_target v))
                          | None => []
                          end
                       ++ match frame with
                          | Some f => tagged the_iframe (request_methods f)
                          | None => []
                          end)%list)
    by (now destruct videoEl).
  rewrite Hall. clear Hall Hs.
  destruct (any_accepted lc) eqn:Hc.
  - assert (Hf : fst (through lc) = true) by exact Hc.
    rewrite !Hf. cbn [negb]. rewrite !Hf. cbn [negb].
    now rewrite through_done.
  - assert (Hf : fst (through lc) = false) by exact Hc.
    rewrite !Hf. cbn [negb].
    destruct videoEl as [v|].
    + rewrite !(through_try_set _ _ _ lc Hc).
      rewrite !through_more_set, !through_more_each.
      destruct frame as [f|]; rewrite ?through_more_each, <- ?app_assoc, ?app_nil_r;
        try reflexivity.
      now destruct (negb _).
    + cbn [negb app].
      destruct frame as [f|]; rewrite ?app_nil_r;
        [|now destruct (negb _)].
      rewrite Hf. cbn [negb]. now apply through_each_after_failures.
Qed.

(** X10. [enterFullscreen] goes through its attempts in a fixed order
    (the five request methods of the container, then the two entry
    methods and the five request methods of the video element if one
    was given, then the five request methods of the first frame found):
    missing methods are skipped, and the first call that is accepted ends
    the search.  Only the standard [requestFullscreen] is awaited: it is
    accepted when it resolves, while every other method is accepted as
    soon as its call returns without throwing, also when the request is
    rejected afterwards.  The answer is true exactly when some attempt is
    accepted, and the orientation lock is requested exactly then (if the
    platform has it), after that call.  So the answer is true, with no
    further attempt, when a prefixed method of the container rejects and
    the standard one is missing or fails, although fullscreen was not
    entered; and when nothing is supported the answer is false and no
    call is made. *)
Theorem enterFullscreen_first_accepted
  (container : Target) (videoEl : option VideoTarget) (frame : option Target)
  (o : option Orientation) :
  let all := attempts container videoEl frame in
  enterFullscreen container videoEl frame o
  = (any_accepted all,
     (until_accepted all ++ (if any_accepted all then lockLandscape o else []))%list)
  /\ (fst (enterFullscreen container videoEl frame o) = true <->
      exists c aw m, In (c, aw, m) all /\ accepted aw m = true)
  /\ (accepted true (requestFullscreen container) = false ->
      webkitRequestFullscreen container = rejects ->
      enterFullscreen container videoEl frame o
      = (true,
         (until_accepted [((the_container, "requestFullscreen"), true,
                           requestFullscreen container)]
          ++ [(the_container, "webkitRequestFullscreen")]
          ++ lockLandscape o)%list))
  /\ ((forall a, In a all -> snd a = missing) ->
      enterFullscreen container videoEl frame o = (false, [])).
Proof.
  intros all.
  pose proof (enterFullscreen_through container videoEl frame o) as Heq.
  cbv zeta in Heq. fold all in Heq.
  split; [exact Heq|]. split; [|split].
  - rewrite Heq. cbn [fst]. apply accepted_in.
  - intros Hstd Hweb. rewrite Heq.
    set (rest := (match videoEl with
                  | Some v =>
                      ((the_video, "webkitEnterFullscreen"), false,
                       webkitEnterFullscreen v)
                      :: ((the_video, "webkitEnterFullScreen"), false,
                          webkitEnterFullScreen v)
                      :: tagged the_video (request_methods (as_target v))
                  | None => []
                  end
                  ++ match frame with
                     | Some f => tagged the_iframe (request_methods f)
                     | None => []
                     end)%list).
    assert (Hall : all
                   = ([((the_container, "requestFullscreen"), true,
                        requestFullscreen container);
                       ((the_container, "webkitRequestFullscreen"), false,
                        webkitRequestFullscreen container)]
                      ++ ([((the_container, "webkitRequestFullScreen"), false,
                            webkitRequestFullScreen container);
                           ((the_container, "mozRequestFullScreen"), false,
                            mozRequestFullScreen container);
                           ((the_container, "msRequestFullscreen"), false,
                            msRequestFullscreen container)] ++ rest))%list)
      by reflexivity.
    rewrite Hall, any_accepted_app, until_accepted_app. rewrite Hweb.
    destruct (requestFullscreen container); try discriminate Hstd; reflexivity.
  - intros Hall. rewrite Heq.
    destruct (all_missing_quiet all Hall) as [-> ->]. reflexivity.
Qed.

Lemma enterFullscreen_first_accepted_witness :
  enterFullscreen (mkTarget rejects rejects missing missing missing) None None
    (Some (mkOrientation resolves resolves))
  = (true,
     [(the_container, "requestFullscreen");
      (the_container, "webkitRequestFullscreen");
      (the_screen, "lock")]).
Proof.
  exact (proj1 (proj2 (proj2
           (enterFullscreen_first_accepted
              (mkTarget rejects rejects missing missing missing) None None
              (Some (mkOrientation resolves resolves)))))
           eq_refl eq_refl).
Defined.

(** X11. [doExitFullscreen] tries the five exit methods of the document
    in order until one is accepted.  Only the standard [exitFullscreen]
    is awaited: it is accepted when it resolves, while every other
    method is accepted as soon as its call returns without throwing,
    also when it is rejected afterwards.  The answer is true exactly
    when some attempt is accepted, and the orientation lock is released
    exactly then.  So the answer is true when a prefixed exit method
    rejects and the standard one is missing or fails, although
    fullscreen was not left. *)
Theorem doExitFullscreen_first_accepted (d : Document) (o : option Orientation) :
  let all := tagged the_document (exit_methods d) in
  doExitFullscreen d o
  = (any_accepted all,
     (until_accepted all ++ (if any_accepted all then unlockOrientation o else []))%list)
  /\ (fst (doExitFullscreen d o) = true <->
      exists c aw m, In (c, aw, m) all /\ accepted aw m = true)
  /\ (accepted true (exitFullscreen d) = false ->
      webkitExitFullscreen d = rejects ->
      doExitFullscreen d o
      = (true,
         (until_accepted [((the_document, "exitFullscreen"), true, exitFullscreen d)]
          ++ [(the_document, "webkitExitFullscreen")]
          ++ unlockOrientation o)%list))
  /\ ((forall a, In a all -> snd a = missing) -> doExitFullscreen d o = (false, [])).
Proof.
  intros all.
  assert (Heq : doExitFullscreen d o
                = (any_accepted all,
                   (until_accepted all
                    ++ (if any_accepted all then unlockOrientation o else []))%list)).
  { unfold doExitFullscreen, exitFS. rewrite try_each_spec. fold all.
    unfold through. cbn [fst snd].
    destruct (any_accepted all); [reflexivity | now rewrite app_nil_r]. }
  split; [exact Heq|]. split; [|split].
  - rewrite Heq. cbn [fst]. apply accepted_in.
  - intros Hstd Hweb. rewrite Heq.
    assert (Hall : all
                   = ([((the_document, "exitFullscreen"), true, exitFullscreen d);
                       ((the_document, "webkitExitFullscreen"), false,
                        webkitExitFullscreen d)]
                      ++ [((the_document, "webkitCancelFullScreen"), false,
                           webkitCancelFullScreen d);
                          ((the_document, "mozCancelFullScreen"), false,
                           mozCancelFullScreen d);
                          ((the_document, "msExitFullscreen"), false,
                           msExitFullscreen d)])%list)
      by reflexivity.
    rewrite Hall, any_accepted_app, until_accepted_app. rewrite Hweb.
    destruct (exitFullscreen d); try discriminate Hstd; reflexivity.
  - intros Hall. rewrite Heq.
    destruct (all_missing_quiet all Hall) as [-> ->]. reflexivity.
Qed.

Lemma doExitFullscreen_first_accepted_witness :
  doExitFullscreen (mkDocument throws rejects resolves missing missing)
    (Some (mkOrientation resolves resolves))
  = (true,
     [(the_document, "exitFullscreen");
      (the_document, "webkitExitFullscreen");
      (the_screen, "unlock")]).
Proof.
  exact (proj1 (proj2 (proj2
           (doExitFullscreen_first_accepted
              (mkDocument throws rejects resolves missing missing)
              (Some (mkOrientation resolves resolves)))))
           eq_refl eq_refl).
Defined.

End FullscreenFacts.

(** ** Skipping and the range of the volume *)

Module MoreNative.

Import NumFacts.
#[local] Open Scope Q_scope.

(** X12. With a known positive duration and the position inside the
    item, skipping forward moves the position ahead, by ten seconds when
    there is room and never past the end; skipping backward moves it
    back, never before the start.  While the duration is not known or
    zero, a forward skip sends the position to zero.  Neither writes the
    state of the component. *)
Theorem skips_stay_inside (p : DirectVideo.Player) (v : Media.Element) :
  DirectVideo.video p = Some v ->
  0 <= Media.currentTime v ->
  let t := Media.currentTime v in
  (forall D,
      Media.duration v = Some D -> 0 < D -> t <= D ->
      exists t1 t2,
        Skip.position (Skip.skipFwd p) = Some t1
        /\ Skip.position (Skip.skipBwd p) = Some t2
        /\ t <= t1 /\ t1 <= D
        /\ 0 <= t2 /\ t2 <= t
        /\ (t + 10 <= D -> t1 == t + 10)
        /\ (D <= t + 10 -> t1 == D)
        /\ (10 <= t -> t2 == t - 10)
        /\ (t <= 10 -> t2 == 0))
  /\ (Media.duration v = None \/ (exists q, Media.duration v = Some q /\ q == 0) ->
      exists t1, Skip.position (Skip.skipFwd p) = Some t1 /\ t1 == 0)
  /\ DirectVideo.st (Skip.skipFwd p) = DirectVideo.st p
  /\ DirectVideo.st (Skip.skipBwd p) = DirectVideo.st p.
Proof.
  intros Hv Ht t. unfold Skip.position, Skip.skipFwd, Skip.skipBwd.
  rewrite Hv. cbn [DirectVideo.video DirectVideo.st option_map Media.currentTime
                   Media.set_currentTime]. fold t.
  split; [|split; [|split; reflexivity]].
  - intros D Hd HD HtD. rewrite Hd. unfold Skip.duration_or_zero.
    rewrite (pos_nonzero D HD).
    eexists. eexists.
    split; [reflexivity|]. split; [reflexivity|].
    assert (Ht' : 0 <= t) by exact Ht. clearbody t.
    assert (H10 : t <= t + 10) by lra.
    assert (Hm10 : t - 10 <= t) by lra.
    split; [now apply Q.min_glb|].
    split; [apply Q.le_min_r|].
    split; [apply Q.le_max_r|].
    split; [apply Q.max_lub; assumption|].
    split; [intros H; now apply Q.min_l|].
    split; [intros H; now apply Q.min_r|].
    split; intros H; [apply Q.max_l | apply Q.max_r]; lra.
  - intros Hd.
    assert (Hz : Skip.duration_or_zero (Media.duration v) == 0).
    { destruct Hd as [->|(q & -> & Hq)]; [reflexivity|].
      unfold Skip.duration_or_zero. rewrite (proj2 (eqb_eq q 0) Hq). reflexivity. }
    eexists. split; [reflexivity|]. rewrite Hz. apply Q.min_r.
    assert (Ht' : 0 <= t) by exact Ht. clearbody t. lra.
Qed.

Lemma skips_stay_inside_witness :
  DirectVideo.st
    (Skip.skipFwd
       (DirectVideo.mkPlayer DirectVideo.initial
          (Some (Media.mkElement "a.mp4" false 95 (Some 100) 1 false 1))))
  = DirectVideo.initial.
Proof.
  assert (H : 0 <= 95) by discriminate.
  exact (proj1 (proj2 (proj2
    (skips_stay_inside
       (DirectVideo.mkPlayer DirectVideo.initial
          (Some (Media.mkElement "a.mp4" false 95 (Some 100) 1 false 1)))
       (Media.mkElement "a.mp4" false 95 (Some 100) 1 false 1) eq_refl H)))).
Defined.

Lemma video_step_range (p p' : DirectVideo.Player) :
  DirectVideo.step p p' ->
  0 <= DirectVideo.volume (DirectVideo.st p) <= 1 ->
  0 < DirectVideo.prevVolume (DirectVideo.st p) <= 1 ->
  0 <= DirectVideo.volume (DirectVideo.st p') <= 1
  /\ 0 < DirectVideo.prevVolume (DirectVideo.st p') <= 1.
Proof.
  intros Hstep [Hv0 Hv1] [Hp0 Hp1].
  destruct Hstep as [p v [Hs0 Hs1] | p | p | p | p link | p x bar | p p' (Hv & Hp & Hm)].
  - unfold DirectVideo.handleVolumeChange. simpl.
    destruct (Num.gtb v 0) eqn:Hg; simpl; [|now repeat split].
    apply gtb_lt in Hg. now repeat split.
  - unfold DirectVideo.toggleMute.
    destruct (DirectVideo.muted (DirectVideo.st p)
              || Num.eqb (DirectVideo.volume (DirectVideo.st p)) 0) eqn:Hc; simpl.
    + rewrite (proj2 (gtb_lt _ 0) Hp0). repeat split; try assumption.
      now apply Qlt_le_weak.
    + apply orb_false_iff in Hc as [_ Hc]. apply eqb_neq in Hc.
      repeat split; try assumption.
      apply Qle_lt_or_eq in Hv0 as [Hlt|Heq]; [assumption|].
      exfalso. apply Hc. now symmetry.
  - unfold DirectVideo.keyArrowUp. simpl. repeat split; try assumption.
    + apply Q.min_glb; lra.
    + apply Q.le_min_r.
  - unfold DirectVideo.keyArrowDown. simpl.
    assert (Hmax : Qmax (DirectVideo.volume (DirectVideo.st p) - (1 # 10)) 0 <= 1).
    { apply Q.max_lub; lra. }
    destruct (Num.eqb (Qmax (DirectVideo.volume (DirectVideo.st p) - (1 # 10)) 0) 0);
      simpl; repeat split; try assumption; apply Q.le_max_r.
  - unfold DirectVideo.loadItem. destruct (DirectVideo.video p); simpl; now repeat split.
  - unfold DirectVideo.handleProgressClick.
    destruct (DirectVideo.video p) as [e|], bar as [rect|]; try now repeat split.
    destruct (Num.falsy (Media.duration e)); [now repeat split|].
    destruct (Media.duration e), (click_fraction x rect); simpl; now repeat split.
  - rewrite Hv, Hp. now repeat split.
Qed.

Lemma audio_step_range (p p' : Audio.Player) :
  Audio.step p p' ->
  0 <= Audio.volume (Audio.st p) <= 1 ->
  0 < Audio.prevVolume (Audio.st p) <= 1 ->
  0 <= Audio.volume (Audio.st p') <= 1
  /\ 0 < Audio.prevVolume (Audio.st p') <= 1.
Proof.
  intros Hstep [Hv0 Hv1] [Hp0 Hp1].
  destruct Hstep as [p v [Hs0 Hs1] | p | p link | p x bar | p allowed | p p' (Hv & Hp & Hm)].
  - unfold Audio.handleVolumeChange. simpl.
    destruct (Num.gtb v 0) eqn:Hg; simpl; [|now repeat split].
    apply gtb_lt in Hg. now repeat split.
  - unfold Audio.toggleMute.
    destruct (Audio.muted (Audio.st p) || Num.eqb (Audio.volume (Audio.st p)) 0) eqn:Hc;
      simpl.
    + rewrite (proj2 (gtb_lt _ 0) Hp0). repeat split; try assumption.
      now apply Qlt_le_weak.
    + apply orb_false_iff in Hc as [_ Hc]. apply eqb_neq in Hc.
      repeat split; try assumption.
      apply Qle_lt_or_eq in Hv0 as [Hlt|Heq]; [assumption|].
      exfalso. apply Hc. now symmetry.
  - unfold Audio.changeItem, Audio.loadTrack, Audio.resetImage. simpl.
    destruct (Audio.audio p); simpl; [|now repeat split].
    destruct (isMegaLink link); simpl; now repeat split.
  - unfold Audio.handleProgressClick.
    destruct (Audio.audio p) as [e|], bar as [rect|]; try now repeat split.
    destruct (Num.falsy (Media.duration e)); [now repeat split|].
    destruct (Media.duration e), (click_fraction x rect); simpl; now repeat split.
  - unfold Audio.handleEnded. destruct (Audio.repeat (Audio.st p)); [|now repeat split].
    destruct (Audio.audio p); simpl; now repeat split.
  - rewrite Hv, Hp. now repeat split.
Qed.

(** X13. In every state a native player can reach (by the volume slider,
    the mute toggle, the arrow keys, item changes or any handler that
    writes no volume cell), the volume stays between 0 and 1, the
    remembered volume stays above 0 and at most 1, and so the volume
    handed to the element is between 0 and 1. *)
Theorem volume_stays_in_range (pv : DirectVideo.Player) (pa : Audio.Player) :
  DirectVideo.reachable pv -> Audio.reachable pa ->
  (0 <= DirectVideo.volume (DirectVideo.st pv) <= 1
   /\ 0 < DirectVideo.prevVolume (DirectVideo.st pv) <= 1
   /\ 0 <= DirectVideo.effective (DirectVideo.st pv) <= 1)
  /\ (0 <= Audio.volume (Audio.st pa) <= 1
      /\ 0 < Audio.prevVolume (Audio.st pa) <= 1
      /\ 0 <= Audio.effective (Audio.st pa) <= 1).
Proof.
  intros Hv Ha. split.
  - assert (H : 0 <= DirectVideo.volume (DirectVideo.st pv) <= 1
                /\ 0 < DirectVideo.prevVolume (DirectVideo.st pv) <= 1).
    { induction Hv as [link | p p' _ [IHv IHp] Hstep].
      - unfold DirectVideo.mount, DirectVideo.loadItem. simpl.
        repeat split; reflexivity || discriminate.
      - now apply (video_step_range p p'). }
    destruct H as [[H0 H1] Hp]. repeat split; try assumption; try apply Hp.
    all: unfold DirectVideo.effective;
      destruct (DirectVideo.muted (DirectVideo.st pv)); assumption || discriminate.
  - assert (H : 0 <= Audio.volume (Audio.st pa) <= 1
                /\ 0 < Audio.prevVolume (Audio.st pa) <= 1).
    { induction Ha as [link | p p' _ [IHv IHp] Hstep].
      - unfold Audio.mount, Audio.changeItem, Audio.loadTrack, Audio.resetImage. simpl.
        destruct (isMegaLink link); simpl; repeat split; reflexivity || discriminate.
      - now apply (audio_step_range p p'). }
    destruct H as [[H0 H1] Hp]. repeat split; try assumption; try apply Hp.
    all: unfold Audio.effective;
      destruct (Audio.muted (Audio.st pa)); assumption || discriminate.
Qed.

Lemma volume_stays_in_range_witness :
  0 <= DirectVideo.volume
         (DirectVideo.st (DirectVideo.keyArrowUp (DirectVideo.mount "a.mp4"))) <= 1.
Proof.
  apply (volume_stays_in_range
           (DirectVideo.keyArrowUp (DirectVideo.mount "a.mp4")) (Audio.mount "a.mp3")).
  - apply (DirectVideo.reach_step (DirectVideo.mount "a.mp4")).
    + apply DirectVideo.reach_mount.
    + apply DirectVideo.step_up.
  - apply Audio.reach_mount.
Defined.

End MoreNative.

(** ** Invariants of the embedded-player controller *)

Module YouTubeMore.

Import YouTube YouTubeInv.

Lemma update_inst_eq (i : nat) (f : Instance -> Instance) (w : World) (x : Instance) :
  insts w !! i = Some x -> update_inst i f w = set_insts (<[i := f x]> (insts w)) w.
Proof. intros H. unfold update_inst. now rewrite H. Qed.

(** The invariant reads only the runs, the two references and the
    identifier of the current item. *)
Lemma insts_ok_core (w w' : World) :
  insts w' = insts w -> current w' = current w -> playerRef w' = playerRef w ->
  memoVideoId w' = memoVideoId w ->
  insts_ok w -> insts_ok w'.
Proof.
  intros Hi Hc Hp Hm (H1 & H2 & H3). unfold insts_ok, ok_inst, liveness in *.
  rewrite Hi, Hc, Hp, Hm. auto.
Qed.

(** One run is replaced by a run with the same liveness flag and the same
    identifier. *)
Lemma insts_ok_replace (w w' : World) (i : nat) (x x' : Instance) :
  insts_ok w ->
  insts w !! i = Some x ->
  insts w' = <[i := x']> (insts w) ->
  current w' = current w ->
  memoVideoId w' = memoVideoId w ->
  destroyed x' = destroyed x ->
  videoId x' = videoId x ->
  attempts x' <= 50 ->
  (timer x' <> None -> attempts x' < 50) ->
  (playerRef w' = Some i ->
   destroyed x' = false /\ timer x' = None /\ current w = Some i) ->
  (forall j, j <> i -> playerRef w' = Some j -> playerRef w = Some j) ->
  insts_ok w'.
Proof.
  intros (H1 & H2 & H3) Hx Hi Hc Hm Hd Hv Ha Ht Hp Hother.
  assert (Hlen : i < length (insts w)) by (now apply lookup_lt_Some in Hx).
  split; [|split].
  - intros j inst Hj. rewrite Hi in Hj.
    destruct (decide (j = i)) as [->|Hne].
    + rewrite list_lookup_insert_eq in Hj by assumption. injection Hj as <-.
      destruct (H1 i x Hx) as (_ & _ & Hvid & _).
      unfold ok_inst. rewrite Hc, Hm, Hv. split; [|split; [|split]]; assumption.
    + rewrite list_lookup_insert_ne in Hj by congruence.
      destruct (H1 j inst Hj) as (A1 & A2 & A3 & A4).
      unfold ok_inst. rewrite Hc, Hm. split; [|split; [|split]]; try assumption.
      intros Hpj. apply Hother in Hpj; [|assumption]. now apply A4.
  - intros j Hj. rewrite Hi. destruct (decide (j = i)) as [->|Hne].
    + rewrite list_lookup_insert_eq by assumption. eauto.
    + rewrite list_lookup_insert_ne by congruence. apply H2. now apply Hother.
  - unfold liveness in *. rewrite Hi, Hc, list_fmap_insert, Hd.
    rewrite list_insert_id; [assumption|]. now rewrite list_lookup_fmap, Hx.
Qed.

(** A run that is not torn down is the current one. *)
Lemma alive_is_current (w : World) (i : nat) (x : Instance) :
  insts_ok w -> insts w !! i = Some x -> destroyed x = false -> current w = Some i.
Proof.
  intros (_ & _ & H3) Hx Hd.
  destruct (decide (current w = Some i)) as [|Hne]; [assumption|].
  assert (Hl : (liveness w).2 !! i = Some false).
  { unfold liveness. simpl. now rewrite list_lookup_fmap, Hx, <- Hd. }
  specialize (H3 i false Hl Hne). discriminate.
Qed.

Lemma check_ok (avail : bool) (i : nat) (w : World) (x : Instance) :
  insts_ok w -> insts w !! i = Some x ->
  timer x = None -> attempts x < 50 -> playerRef w <> Some i ->
  insts_ok (check avail i w).
Proof.
  intros Hok Hx Ht Ha Hp. unfold check. rewrite Hx.
  destruct (destroyed x) eqn:Hd; [assumption|].
  destruct avail.
  - unfold init. rewrite Hx, Hd. cbn [orb].
    destruct (negb (mounted w)); [assumption|].
    apply (insts_ok_replace w _ i x x);
      [assumption | assumption | | reflexivity | reflexivity | reflexivity
       | reflexivity | lia | congruence | | ].
    + cbn. now rewrite list_insert_id.
    + intros _. split; [|split]; try assumption. now apply (alive_is_current w i x).
    + cbn. intros j Hne [= <-]. congruence.
  - destruct (Nat.ltb (S (attempts x)) 50) eqn:Hlt.
    + rewrite (update_inst_eq i _ w x Hx).
      apply (insts_ok_replace w _ i x
               (set_timer (Some (clock w + 200)) (set_attempts (S (attempts x)) x)));
        [assumption | assumption | reflexivity | reflexivity | reflexivity
         | reflexivity | reflexivity | cbn; lia | | | ].
      * intros _. apply Nat.ltb_lt in Hlt. exact Hlt.
      * cbn. intros H. congruence.
      * cbn. intros j _ H. exact H.
    + rewrite (update_inst_eq i _ w x Hx).
      apply (insts_ok_replace w _ i x (set_attempts (S (attempts x)) x));
        [assumption | assumption | reflexivity | reflexivity | reflexivity
         | reflexivity | reflexivity | cbn; lia | | | ].
      * cbn. intros H. congruence.
      * cbn. intros H. congruence.
      * cbn. intros j _ H. exact H.
Qed.

Lemma check_ids (avail : bool) (i : nat) (w : World) :
  expectedVideoId (check avail i w) = expectedVideoId w
  /\ memoVideoId (check avail i w) = memoVideoId w.
Proof.
  unfold check. destruct (insts w !! i) as [x|] eqn:Hx; [|auto].
  destruct (destroyed x); [auto|]. destruct avail.
  - unfold init. rewrite Hx. now destruct (_ || _).
  - destruct (Nat.ltb _ 50); unfold update_inst; rewrite Hx; auto.
Qed.

Lemma timerFires_ok (avail : bool) (i : nat) (w : World) :
  insts_ok w -> insts_ok (timerFires avail i w).
Proof.
  intros Hok. unfold timerFires.
  destruct (insts w !! i) as [x|] eqn:Hx; [|assumption].
  destruct (timer x) as [due|] eqn:Ht; [|assumption].
  destruct Hok as (H1 & H2 & H3). destruct (H1 i x Hx) as (A1 & A2 & A3 & A4).
  assert (Hlt : attempts x < 50) by (apply A2; congruence).
  assert (Hp : playerRef w <> Some i).
  { intros Hp. apply A4 in Hp as (_ & Hn & _). congruence. }
  apply (check_ok avail i _ (set_timer None x)).
  - rewrite (update_inst_eq i _ w x Hx).
    apply (insts_ok_replace w _ i x (set_timer None x));
      [split; [|split]; assumption | assumption | reflexivity | reflexivity
       | reflexivity | reflexivity | reflexivity | exact A1 | | | ].
    + cbn. congruence.
    + cbn. intros H. contradiction.
    + cbn. intros j _ H. exact H.
  - rewrite (update_inst_eq i _ w x Hx). cbn.
    apply list_lookup_insert_eq. now apply lookup_lt_Some in Hx.
  - reflexivity.
  - assumption.
  - rewrite (update_inst_eq i _ w x Hx). assumption.
Qed.

Lemma timerFires_ids (avail : bool) (i : nat) (w : World) :
  expectedVideoId (timerFires avail i w) = expectedVideoId w
  /\ memoVideoId (timerFires avail i w) = memoVideoId w.
Proof.
  unfold timerFires. destruct (insts w !! i) as [x|] eqn:Hx; [|auto].
  destruct (timer x); [|auto].
  destruct (check_ids avail i
              (set_clock (Nat.max (clock w) n) (update_inst i (set_timer None) w)))
    as [-> ->].
  unfold update_inst. rewrite Hx. auto.
Qed.

(** The handler of the PLAYING state is a chain of state writes. *)
Lemma onPlaying_writes (P : World -> Prop) (r : Replies) (w : World) :
  (forall f w', P w' -> P (update f w')) -> P w -> P (onPlaying r w).
Proof.
  intros Hupd Hw. unfold onPlaying. cbv zeta.
  repeat match goal with
         | |- P (match ?x with _ => _ end) => destruct x
         | |- P (update _ _) => apply Hupd
         end; assumption.
Qed.

(** The callbacks of the external player write the state only. *)
Lemma state_only_core (ev : Event) (w : World) :
  match ev with
  | OnReady _ | OnStateChange _ _ _ | OnPlaybackQualityChange _ _ | OnError _
  | BackToPlaylist => True
  | _ => False
  end ->
  insts (apply ev w) = insts w /\ current (apply ev w) = current w
  /\ playerRef (apply ev w) = playerRef w
  /\ memoVideoId (apply ev w) = memoVideoId w
  /\ expectedVideoId (apply ev w) = expectedVideoId w.
Proof.
  destruct ev as [avail link| |avail i|i|i e r|i data|i|]; simpl; try contradiction;
    intros _.
  - unfold onReady. destruct (insts w !! i) as [x|]; [|easy]. now destruct (destroyed x).
  - unfold onStateChange. destruct (insts w !! i) as [x|]; [|easy].
    destruct (destroyed x); [easy|]. destruct e; try easy.
    apply (onPlaying_writes
             (fun w' => insts w' = insts w /\ current w' = current w
                        /\ playerRef w' = playerRef w
                        /\ memoVideoId w' = memoVideoId w
                        /\ expectedVideoId w' = expectedVideoId w)); [|easy].
    intros f w' H. exact H.
  - unfold onPlaybackQualityChange. destruct (insts w !! i) as [x|]; [|easy].
    now destruct (destroyed x).
  - unfold onError. destruct (insts w !! i) as [x|]; [|easy]. now destruct (destroyed x).
  - easy.
Qed.

Lemma cleanup_ok (w : World) :
  insts_ok w ->
  insts_ok (cleanup w)
  /\ playerRef (cleanup w) = None /\ current (cleanup w) = None
  /\ (forall i d, (destroyed <$> insts (cleanup w)) !! i = Some d -> d = true)
  /\ memoVideoId (cleanup w) = memoVideoId w
  /\ expectedVideoId (cleanup w) = expectedVideoId w.
Proof.
  intros Hok. pose proof Hok as (H1 & H2 & H3).
  destruct (YouTubeFacts.cleanup_all_torn_down w H3) as [Hc Hall].
  assert (Hp : playerRef (cleanup w) = None /\ memoVideoId (cleanup w) = memoVideoId w
               /\ expectedVideoId (cleanup w) = expectedVideoId w).
  { unfold cleanup. destruct (current w) as [c|] eqn:Hcur.
    - unfold update_inst. now destruct (insts w !! c).
    - destruct (playerRef w) as [j|] eqn:Hj; [|auto].
      destruct (H2 j eq_refl) as [x Hx]. destruct (H1 j x Hx) as (_ & _ & _ & A4).
      apply A4 in Hj as (_ & _ & Hcj). congruence. }
  destruct Hp as (Hp & Hm & He).
  split; [|split; [assumption|split; [assumption|split; [exact Hall|split; assumption]]]].
  split; [|split].
  - intros i inst Hi. unfold ok_inst. rewrite Hp, Hc, Hm.
    assert (Hsrc : exists x, insts w !! i = Some x
                             /\ attempts inst = attempts x /\ timer inst = timer x).
    { unfold cleanup in Hi. destruct (current w) as [c|]; [|eauto].
      cbn in Hi. unfold update_inst in Hi.
      destruct (insts w !! c) as [y|] eqn:Hy; cbn in Hi; [|eauto].
      destruct (decide (i = c)) as [->|Hne].
      - rewrite list_lookup_insert_eq in Hi by (now apply lookup_lt_Some in Hy).
        injection Hi as <-. eauto.
      - rewrite list_lookup_insert_ne in Hi by congruence. eauto. }
    destruct Hsrc as (x & Hx & -> & ->).
    destruct (H1 i x Hx) as (A1 & A2 & _ & _).
    split; [|split; [|split]]; try assumption; discriminate.
  - intros i Hi. congruence.
  - intros i d Hi _. now apply (Hall i d).
Qed.

Lemma effect_ok (avail : bool) (vid : string) (w : World) :
  insts_ok w -> playerRef w = None -> current w = None ->
  (forall i d, (destroyed <$> insts w) !! i = Some d -> d = true) ->
  memoVideoId w = vid ->
  insts_ok (effect avail vid w).
Proof.
  intros Hok Hp Hc Hall Hm. unfold effect. destruct (negb (truthy vid)); [assumption|].
  set (fresh := mkInstance vid false 0 None).
  set (w1 := set_current (Some (length (insts w)))
               (set_insts (insts w ++ [fresh])%list w)).
  assert (Hfresh : insts w1 !! length (insts w) = Some fresh).
  { unfold w1. cbn. rewrite lookup_app_r by lia. now rewrite Nat.sub_diag. }
  apply (check_ok avail _ w1 fresh); try assumption; try reflexivity;
    [|cbn; lia|unfold w1; cbn; congruence].
  destruct Hok as (H1 & H2 & H3). split; [|split].
  - intros i inst Hi. unfold w1 in Hi. cbn in Hi.
    apply lookup_app_Some in Hi as [Hi|[Hge Hi]].
    + destruct (H1 i inst Hi) as (A1 & A2 & _ & _).
      unfold ok_inst, w1. cbn. rewrite Hp. repeat split; try assumption;
        try discriminate.
      intros [= Heq]. apply lookup_lt_Some in Hi. lia.
    + destruct (i - length (insts w)) as [|k] eqn:Hk; [|now destruct k].
      cbn in Hi. injection Hi as <-. unfold ok_inst, w1. cbn. rewrite Hp.
      repeat split; try lia; try discriminate. intros _. now symmetry.
  - unfold w1. cbn. rewrite Hp. discriminate.
  - intros i d. unfold w1, liveness. cbn. rewrite fmap_app. intros Hi Hne.
    apply lookup_app_Some in Hi as [Hi|[Hge Hi]]; [now apply (Hall i d)|].
    rewrite length_fmap in Hge, Hi.
    destruct (i - length (insts w)) as [|k] eqn:Hk; [|now destruct k].
    exfalso. apply Hne. f_equal. lia.
Qed.

Lemma effect_ids (avail : bool) (vid : string) (w : World) :
  expectedVideoId (effect avail vid w) = expectedVideoId w
  /\ memoVideoId (effect avail vid w) = memoVideoId w.
Proof.
  unfold effect. destruct (negb (truthy vid)); [auto|].
  now destruct (check_ids avail (length (insts w))
                  (set_current (Some (length (insts w)))
                     (set_insts (insts w ++ [mkInstance vid false 0 None])%list w)))
    as [-> ->].
Qed.

Lemma cleanup_memo (vid : string) (w : World) :
  cleanup (set_memoVideoId vid w) = set_memoVideoId vid (cleanup w).
Proof.
  unfold cleanup. cbn. destruct (current w) as [c|]; [|reflexivity].
  unfold update_inst. cbn. now destruct (insts w !! c).
Qed.

Lemma apply_good (ev : Event) (w : World) : good w -> good (apply ev w).
Proof.
  intros [Hok Hid].
  destruct ev as [avail link| |avail i|i|i e r|i data|i|].
  - simpl. unfold itemChange.
    destruct (String.eqb (getYTVideoId link) (memoVideoId w)); [now split|].
    set (vid := getYTVideoId link). rewrite cleanup_memo.
    destruct (cleanup_ok w Hok) as (Hc1 & Hc2 & Hc3 & Hc4 & Hc5 & Hc6).
    split.
    + apply effect_ok; try assumption; try reflexivity.
      destruct Hc1 as (H1 & H2 & H3). split; [|split].
      * intros i inst Hi. destruct (H1 i inst Hi) as (A1 & A2 & A3 & A4).
        unfold ok_inst. cbn. rewrite Hc2, Hc3. repeat split; try assumption;
          discriminate.
      * cbn. rewrite Hc2. discriminate.
      * exact H3.
    + destruct (effect_ids avail vid
                  (set_expectedVideoId vid (set_memoVideoId vid (cleanup w))))
        as [-> ->]. reflexivity.
  - simpl. unfold unmount.
    destruct (cleanup_ok w Hok) as (Hc1 & Hc2 & Hc3 & Hc4 & Hc5 & Hc6).
    split; [|cbn; congruence].
    now apply (insts_ok_core (cleanup w)).
  - simpl. split; [now apply timerFires_ok|].
    now destruct (timerFires_ids avail i w) as [-> ->].
  - destruct (state_only_core (OnReady i) w I) as (A & B & C & D & E).
    split; [now apply (insts_ok_core w) | congruence].
  - destruct (state_only_core (OnStateChange i e r) w I) as (A & B & C & D & E).
    split; [now apply (insts_ok_core w) | congruence].
  - destruct (state_only_core (OnPlaybackQualityChange i data) w I) as (A & B & C & D & E).
    split; [now apply (insts_ok_core w) | congruence].
  - destruct (state_only_core (OnError i) w I) as (A & B & C & D & E).
    split; [now apply (insts_ok_core w) | congruence].
  - destruct (state_only_core BackToPlaylist w I) as (A & B & C & D & E).
    split; [now apply (insts_ok_core w) | congruence].
Qed.

Lemma mount_good (avail : bool) (link : string) : good (mount avail link).
Proof.
  unfold mount. set (vid := getYTVideoId link).
  set (w0 := mkWorld initial true [] None None vid vid 0 []).
  split.
  - apply effect_ok; try reflexivity.
    + split; [|split].
      * intros i inst Hi. now destruct i.
      * intros i Hi. discriminate.
      * intros i d Hi. now destruct i.
    + intros i d Hi. now destruct i.
  - now destruct (effect_ids avail vid w0) as [-> ->].
Qed.

Lemma run_good (evs : list Event) (w : World) : good w -> good (run evs w).
Proof.
  revert w. induction evs as [|ev evs IH]; intros w Hw; [assumption|].
  simpl. apply IH. now apply apply_good.
Qed.

Lemma apply_memo (ev : Event) (w : World) (l : string) :
  memoVideoId w = getYTVideoId l ->
  memoVideoId (apply ev w)
  = getYTVideoId (match ev with ItemChange _ l' => l' | _ => l end).
Proof.
  intros Hm. destruct ev as [avail link| |avail i|i|i e r|i data|i|].
  - simpl. unfold itemChange.
    destruct (String.eqb (getYTVideoId link) (memoVideoId w)) eqn:He.
    + apply String.eqb_eq in He. now symmetry.
    + destruct (effect_ids avail (getYTVideoId link)
                  (set_expectedVideoId (getYTVideoId link)
                     (cleanup (set_memoVideoId (getYTVideoId link) w))))
        as [_ ->].
      rewrite cleanup_memo. reflexivity.
  - simpl. unfold unmount, cleanup. cbn [memoVideoId set_mounted].
    destruct (current w) as [c|]; [|assumption].
    unfold update_inst. now destruct (insts w !! c).
  - simpl. now destruct (timerFires_ids avail i w) as [_ ->].
  - now destruct (state_only_core (OnReady i) w I) as (_ & _ & _ & -> & _).
  - now destruct (state_only_core (OnStateChange i e r) w I) as (_ & _ & _ & -> & _).
  - now destruct (state_only_core (OnPlaybackQualityChange i data) w I)
      as (_ & _ & _ & -> & _).
  - now destruct (state_only_core (OnError i) w I) as (_ & _ & _ & -> & _).
  - now destruct (state_only_core BackToPlaylist w I) as (_ & _ & _ & -> & _).
Qed.

Lemma run_memo (evs : list Event) (w : World) (l : string) :
  memoVideoId w = getYTVideoId l ->
  memoVideoId (run evs w) = getYTVideoId (latest_link l evs).
Proof.
  revert w l. induction evs as [|ev evs IH]; intros w l Hm; [assumption|].
  simpl. unfold latest_link. simpl. apply IH. now apply apply_memo.
Qed.

Lemma mount_memo (avail : bool) (link : string) :
  memoVideoId (mount avail link) = getYTVideoId link.
Proof.
  unfold mount.
  now destruct (effect_ids avail (getYTVideoId link)
                  (mkWorld initial true [] None None (getYTVideoId link)
                     (getYTVideoId link) 0 [])) as [_ ->].
Qed.

(** X14.  Whatever the events and whenever the external API becomes
    available, the external player held in [playerRef.current] was created
    by the run of the effect whose cleanup is still to come: that run is
    not torn down, has no poll timer pending, and was started for the
    identifier of the item shown last, which is also the identifier the
    suggestion check compares with. *)
Theorem player_belongs_to_current_run
  (avail : bool) (link : string) (evs : list Event) (i : nat) :
  let w := run evs (mount avail link) in
  playerRef w = Some i ->
  current w = Some i
  /\ exists inst,
       insts w !! i = Some inst
       /\ destroyed inst = false
       /\ timer inst = None
       /\ videoId inst = getYTVideoId (latest_link link evs)
       /\ expectedVideoId w = videoId inst.
Proof.
  intros w Hp.
  destruct (run_good evs _ (mount_good avail link)) as [(H1 & H2 & H3) Hid].
  fold w in H1, H2, H3, Hid.
  destruct (H2 i Hp) as [inst Hi].
  destruct (H1 i inst Hi) as (_ & _ & A3 & A4).
  destruct (A4 Hp) as (Hd & Ht & Hc).
  split; [assumption|]. exists inst.
  assert (Hv : videoId inst = getYTVideoId (latest_link link evs)).
  { rewrite (A3 Hc). apply run_memo, mount_memo. }
  repeat split; try assumption. rewrite Hid. symmetry. now apply A3.
Qed.

Lemma player_belongs_to_current_run_witness :
  playerRef (run [] (mount true "https://youtu.be/dQw4w9WgXcQ")) = Some 0
  /\ current (run [] (mount true "https://youtu.be/dQw4w9WgXcQ")) = Some 0.
Proof.
  split; [reflexivity|].
  exact (proj1 (player_belongs_to_current_run
                  true "https://youtu.be/dQw4w9WgXcQ" [] 0 eq_refl)).
Defined.

(** X15.  Whatever the events, in whatever order the timers come due and
    whenever the external API is there or not, no run of the effect checks
    for the API more than fifty times, and a run with a poll timer pending
    has checked fewer than fifty times. *)
Theorem poll_budget_per_run
  (avail : bool) (link : string) (evs : list Event) (i : nat) (inst : Instance) :
  insts (run evs (mount avail link)) !! i = Some inst ->
  attempts inst <= 50 /\ (timer inst <> None -> attempts inst < 50).
Proof.
  intros Hi.
  destruct (run_good evs _ (mount_good avail link)) as [(H1 & _ & _) _].
  destruct (H1 i inst Hi) as (A1 & A2 & _ & _). now split.
Qed.

Lemma poll_budget_per_run_witness :
  insts (run [TimerFires false 0] (mount false "https://youtu.be/dQw4w9WgXcQ")) !! 0
  = Some (mkInstance "dQw4w9WgXcQ" false 2 (Some 400))
  /\ 2 <= 50.
Proof.
  split; [reflexivity|].
  exact (proj1 (poll_budget_per_run false "https://youtu.be/dQw4w9WgXcQ"
                  [TimerFires false 0] 0
                  (mkInstance "dQw4w9WgXcQ" false 2 (Some 400)) eq_refl)).
Defined.

Lemma no_id_step (ev : Event) (w : World) :
  keeps_item ev ->
  insts w = [] -> current w = None -> playerRef w = None ->
  insts (apply ev w) = [] /\ current (apply ev w) = None
  /\ playerRef (apply ev w) = None
  /\ ready (st (apply ev w)) = ready (st w)
  /\ loading (st (apply ev w)) = loading (st w)
  /\ errorState (st (apply ev w)) = errorState (st w).
Proof.
  intros Hk Hi Hc Hp.
  destruct ev as [avail link| |avail i|i|i e r|i data|i|]; simpl in *;
    [contradiction| | | | | | |].
  - unfold unmount, cleanup. rewrite Hc. now cbn.
  - unfold timerFires. now rewrite Hi.
  - unfold onReady. now rewrite Hi.
  - unfold onStateChange. now rewrite Hi.
  - unfold onPlaybackQualityChange. now rewrite Hi.
  - unfold onError. now rewrite Hi.
  - now unfold backToPlaylist.
Qed.

Lemma cleanup_current (w : World) : current (cleanup w) = None.
Proof. unfold cleanup. now destruct (current w) eqn:H. Qed.

Lemma cleanup_st (w : World) : st (cleanup w) = st w.
Proof.
  unfold cleanup. destruct (current w) as [c|]; [|reflexivity].
  unfold update_inst. now destruct (insts w !! c).
Qed.

Lemma timerFires_current (avail : bool) (i : nat) (w : World) :
  current (timerFires avail i w) = current w.
Proof.
  unfold timerFires. destruct (insts w !! i) as [x|] eqn:Hx; [|reflexivity].
  destruct (timer x) as [due|]; [|reflexivity].
  assert (Hc : forall w', current (check avail i w') = current w').
  { intros w'. unfold check. destruct (insts w' !! i) as [y|] eqn:Hy; [|reflexivity].
    destruct (destroyed y) eqn:Hd; [reflexivity|]. destruct avail.
    - unfold init. rewrite Hy, Hd. now destruct (negb (mounted w')).
    - destruct (Nat.ltb _ 50); unfold update_inst; now rewrite Hy. }
  rewrite Hc. unfold update_inst. now rewrite Hx.
Qed.

(** While the identifier of the item is empty, no run is current. *)
Lemma apply_empty_memo (ev : Event) (w : World) :
  (memoVideoId w = "" -> current w = None) ->
  memoVideoId (apply ev w) = "" -> current (apply ev w) = None.
Proof.
  intros Hw. destruct ev as [avail link| |avail i|i|i e r|i data|i|].
  - simpl. unfold itemChange.
    destruct (String.eqb (getYTVideoId link) (memoVideoId w)); [assumption|].
    rewrite cleanup_memo.
    set (w1 := set_expectedVideoId (getYTVideoId link)
                 (set_memoVideoId (getYTVideoId link) (cleanup w))).
    destruct (effect_ids avail (getYTVideoId link) w1) as [_ Hm]. rewrite Hm.
    unfold w1 at 1. cbn [memoVideoId set_expectedVideoId set_memoVideoId].
    intros Hvid. unfold effect. rewrite Hvid.
    change (negb (truthy "")) with true. cbn iota.
    unfold w1. cbn [current set_expectedVideoId set_memoVideoId].
    apply cleanup_current.
  - intros _. simpl. unfold unmount. cbn [current set_mounted]. apply cleanup_current.
  - simpl. destruct (timerFires_ids avail i w) as [_ ->].
    now rewrite timerFires_current.
  - now destruct (state_only_core (OnReady i) w I) as (_ & -> & _ & -> & _).
  - now destruct (state_only_core (OnStateChange i e r) w I) as (_ & -> & _ & -> & _).
  - now destruct (state_only_core (OnPlaybackQualityChange i data) w I)
      as (_ & -> & _ & -> & _).
  - now destruct (state_only_core (OnError i) w I) as (_ & -> & _ & -> & _).
  - now destruct (state_only_core BackToPlaylist w I) as (_ & -> & _ & -> & _).
Qed.

Lemma run_empty_memo (evs : list Event) (w : World) :
  (memoVideoId w = "" -> current w = None) ->
  memoVideoId (run evs w) = "" -> current (run evs w) = None.
Proof.
  revert w. induction evs as [|ev evs IH]; intros w Hw; [assumption|].
  simpl. apply IH. now apply apply_empty_memo.
Qed.

Lemma mount_empty_memo (avail : bool) (link : string) :
  memoVideoId (mount avail link) = "" -> current (mount avail link) = None.
Proof.
  rewrite mount_memo. intros Hvid. unfold mount, effect. rewrite Hvid. reflexivity.
Qed.

Lemma no_current_idle (w : World) : insts_ok w -> current w = None -> idle w.
Proof.
  intros (H1 & H2 & H3) Hc. split; [assumption|]. split.
  - destruct (playerRef w) as [j|] eqn:Hj; [|reflexivity].
    destruct (H2 j eq_refl) as [x Hx]. destruct (H1 j x Hx) as (_ & _ & _ & A4).
    apply A4 in Hj as (_ & _ & Hcj). congruence.
  - intros i inst Hi. apply (H3 i (destroyed inst)).
    + unfold liveness. simpl. now rewrite list_lookup_fmap, Hi.
    + unfold liveness. simpl. rewrite Hc. discriminate.
Qed.

(** With no run alive, every event but a change of item leaves the
    three flags alone. *)
Lemma idle_step (ev : Event) (w : World) :
  keeps_item ev -> idle w ->
  idle (apply ev w)
  /\ ready (st (apply ev w)) = ready (st w)
  /\ loading (st (apply ev w)) = loading (st w)
  /\ errorState (st (apply ev w)) = errorState (st w).
Proof.
  intros Hk (Hc & Hp & Hd).
  destruct ev as [avail link| |avail i|i|i e r|i data|i|]; simpl in *;
    [contradiction| | | | | | |].
  - unfold unmount, cleanup. rewrite Hc. now cbn.
  - unfold timerFires. destruct (insts w !! i) as [x|] eqn:Hx; [|easy].
    destruct (timer x) as [due|]; [|easy].
    set (w1 := set_clock (Nat.max (clock w) due) (update_inst i (set_timer None) w)).
    assert (Hl : insts w1 !! i = Some (set_timer None x))
      by (now apply YouTubeFacts.update_inst_lookup).
    unfold check. rewrite Hl. cbn [destroyed set_timer]. rewrite (Hd i x Hx).
    unfold w1. rewrite (update_inst_eq i _ w x Hx).
    split; [|easy]. split; [assumption|]. split; [assumption|].
    intros j inst. cbn [insts set_clock set_insts].
    destruct (decide (j = i)) as [->|Hne].
    + rewrite list_lookup_insert_eq by (now apply lookup_lt_Some in Hx).
      intros [= <-]. exact (Hd i x Hx).
    + rewrite list_lookup_insert_ne by congruence. apply Hd.
  - unfold onReady. destruct (insts w !! i) as [x|] eqn:Hx; [|easy].
    now rewrite (Hd i x Hx).
  - unfold onStateChange. destruct (insts w !! i) as [x|] eqn:Hx; [|easy].
    now rewrite (Hd i x Hx).
  - unfold onPlaybackQualityChange. destruct (insts w !! i) as [x|] eqn:Hx; [|easy].
    now rewrite (Hd i x Hx).
  - unfold onError. destruct (insts w !! i) as [x|] eqn:Hx; [|easy].
    now rewrite (Hd i x Hx).
  - now unfold backToPlaylist.
Qed.

Lemma idle_run (evs : list Event) (w : World) :
  Forall keeps_item evs -> idle w ->
  idle (run evs w)
  /\ ready (st (run evs w)) = ready (st w)
  /\ loading (st (run evs w)) = loading (st w)
  /\ errorState (st (run evs w)) = errorState (st w).
Proof.
  intros Hevs. revert w. induction Hevs as [|ev evs Hk _ IH]; intros w Hw; [easy|].
  simpl. destruct (idle_step ev w Hk Hw) as (Hi & <- & <- & <-). now apply IH.
Qed.

(** A change to an item without identifier only runs the cleanup. *)
Lemma itemChange_without_id (avail : bool) (link : string) (w : World) :
  good w -> (memoVideoId w = "" -> current w = None) ->
  getYTVideoId link = "" ->
  idle (itemChange avail link w) /\ st (itemChange avail link w) = st w.
Proof.
  intros [Hok _] Hmemo Hvid. unfold itemChange. rewrite Hvid.
  destruct (String.eqb "" (memoVideoId w)) eqn:He.
  - apply String.eqb_eq in He. split; [|reflexivity].
    apply no_current_idle; [assumption|]. apply Hmemo. now symmetry.
  - rewrite cleanup_memo. unfold effect. change (negb (truthy "")) with true.
    cbn iota.
    destruct (cleanup_ok w Hok) as (_ & Hp & Hc & Hall & _ & _).
    split; [|cbn; apply cleanup_st].
    split; [exact Hc|]. split; [exact Hp|].
    intros i inst Hi. cbn in Hi. apply (Hall i (destroyed inst)).
    now rewrite list_lookup_fmap, Hi.
Qed.

(** X16.  A link from which no identifier can be read starts no run of
    the effect.  When the component is mounted with such a link no
    player is ever created, and as long as the item is not changed the
    component stays in its loading state, neither ready nor in error,
    whatever timers and callbacks arrive.  When such a link arrives by a
    change of item, in any state the component can be in, only the
    cleanup runs: the player is given up, no run stays alive, the state
    is not reset, and as long as the item is not changed again the
    ready, loading and error flags stay what they were before the
    change. *)
Theorem link_without_id_starts_nothing
  (avail : bool) (link : string) (evs : list Event) :
  getYTVideoId link = "" ->
  Forall keeps_item evs ->
  (let w := run evs (mount avail link) in
   insts w = [] /\ playerRef w = None
   /\ loading (st w) = true /\ ready (st w) = false /\ errorState (st w) = false)
  /\ (forall (avail0 : bool) (link0 : string) (evs0 : list Event),
        let w0 := run evs0 (mount avail0 link0) in
        let w1 := apply (ItemChange avail link) w0 in
        let w := run evs w1 in
        st w1 = st w0
        /\ playerRef w = None /\ current w = None
        /\ (forall i inst, insts w !! i = Some inst -> destroyed inst = true)
        /\ ready (st w) = ready (st w0)
        /\ loading (st w) = loading (st w0)
        /\ errorState (st w) = errorState (st w0)).
Proof.
  intros Hid Hevs. split.
  - intros w. unfold w, mount. rewrite Hid. unfold effect. cbn [truthy negb].
    change (negb (String.eqb "" "")) with false. cbn [negb].
    set (w0 := mkWorld initial true [] None None "" "" 0 []).
    assert (H : insts w0 = [] /\ current w0 = None /\ playerRef w0 = None
                /\ ready (st w0) = false /\ loading (st w0) = true
                /\ errorState (st w0) = false) by easy.
    clearbody w0. revert w0 H. clear w.
    induction Hevs as [|ev evs Hk _ IH]; intros w0 (Hi & Hc & Hp & Hr & Hl & He).
    + easy.
    + simpl. apply IH.
      destruct (no_id_step ev w0 Hk Hi Hc Hp) as (A & B & C & D & E & F).
      rewrite D, E, F. easy.
  - intros avail0 link0 evs0 w0 w1 w.
    assert (Hgood : good w0) by (apply run_good, mount_good).
    assert (Hmemo : memoVideoId w0 = "" -> current w0 = None)
      by (apply run_empty_memo, mount_empty_memo).
    destruct (itemChange_without_id avail link w0 Hgood Hmemo Hid) as [Hidle Hst].
    change (itemChange avail link w0) with w1 in Hidle, Hst.
    destruct (idle_run evs w1 Hevs Hidle) as ((Hc & Hp & Hd) & Hr & Hl & He).
    fold w in Hc, Hp, Hd, Hr, Hl, He.
    rewrite Hr, Hl, He, Hst. easy.
Qed.

Lemma link_without_id_starts_nothing_witness :
  isYouTubeLink "https://www.youtube.com/shorts/dQw4w9WgXcQ" = true
  /\ loading (st (run [TimerFires true 0; OnError 0; Unmount]
                     (mount true "https://www.youtube.com/shorts/dQw4w9WgXcQ")))
     = true
  /\ ready (st (run [TimerFires true 0]
                   (apply (ItemChange true "https://www.youtube.com/shorts/dQw4w9WgXcQ")
                      (run [OnReady 0] (mount true "https://youtu.be/dQw4w9WgXcQ")))))
     = true.
Proof.
  split; [reflexivity|]. split.
  - refine (proj1 (proj2 (proj2 (proj1
              (link_without_id_starts_nothing true
                 "https://www.youtube.com/shorts/dQw4w9WgXcQ"
                 [TimerFires true 0; OnError 0; Unmount] eq_refl _))))).
    repeat constructor.
  - refine (eq_trans
              (proj1 (proj2 (proj2 (proj2 (proj2
                 (proj2
                    (link_without_id_starts_nothing true
                       "https://www.youtube.com/shorts/dQw4w9WgXcQ"
                       [TimerFires true 0] eq_refl _)
                    true "https://youtu.be/dQw4w9WgXcQ" [OnReady 0]))))))
              eq_refl).
    repeat constructor.
Defined.

(** X17.  When the player held by the component reports PLAYING, the
    loading flag is cleared, and what plays is shown as a suggestion
    exactly when its address carries an identifier that differs from the
    identifier of the item shown last; the title is the reported one, or
    the stock text when none is reported.  An address without identifier,
    or with the identifier of the item, clears the suggestion. *)
Theorem playing_flags_other_videos
  (avail : bool) (link : string) (evs : list Event) (i : nat) (r : Replies) :
  let w := run evs (mount avail link) in
  let w' := apply (OnStateChange i PLAYING r) w in
  playerRef w = Some i ->
  loading (st w') = false
  /\ match getVideoUrl r with
     | None =>
         playingSuggestion (st w') = playingSuggestion (st w)
         /\ suggestionTitle (st w') = suggestionTitle (st w)
     | Some nowUrl =>
         let nowId := getYTVideoId nowUrl in
         if truthy nowId
            && negb (String.eqb nowId (getYTVideoId (latest_link link evs)))
         then playingSuggestion (st w') = true
              /\ suggestionTitle (st w')
                 = match getVideoData_title r with
                   | None => suggestionTitle (st w)
                   | Some t => if truthy t then t else "YouTube Suggestion"
                   end
         else playingSuggestion (st w') = false /\ suggestionTitle (st w') = ""
     end.
Proof.
  intros w w' Hp.
  destruct (run_good evs _ (mount_good avail link)) as [(H1 & H2 & H3) Hid].
  fold w in H1, H2, H3, Hid.
  destruct (H2 i Hp) as [inst Hi].
  destruct (H1 i inst Hi) as (_ & _ & _ & A4).
  destruct (A4 Hp) as (Hd & _ & _).
  assert (He : expectedVideoId w = getYTVideoId (latest_link link evs)).
  { rewrite Hid. apply run_memo, mount_memo. }
  unfold w'. simpl. unfold onStateChange. rewrite Hi, Hd.
  clearbody w. clear w'.
  unfold onPlaying, ask. rewrite <- He.
  destruct w as [s mo ins cu pr me ex cl hc]. cbn in Hp. subst pr.
  cbn -[getYTVideoId truthy String.eqb].
  destruct (getPlaybackQuality r) as [q|]; [destruct (truthy q)|];
    cbn -[getYTVideoId truthy String.eqb];
    (destruct (getVideoUrl r) as [u|]; [|easy]);
    (destruct (truthy (getYTVideoId u) && negb (String.eqb (getYTVideoId u) ex));
     [|easy]);
    cbn -[getYTVideoId truthy String.eqb];
    now destruct (getVideoData_title r).
Qed.

Lemma playing_flags_other_videos_witness :
  playerRef (run [] (mount true "https://youtu.be/dQw4w9WgXcQ")) = Some 0
  /\ loading (st (apply (OnStateChange 0 PLAYING (mkReplies None None None))
                     (run [] (mount true "https://youtu.be/dQw4w9WgXcQ")))) = false.
Proof.
  split; [reflexivity|].
  exact (proj1 (playing_flags_other_videos true "https://youtu.be/dQw4w9WgXcQ" [] 0
                  (mkReplies None None None) eq_refl)).
Defined.

End YouTubeMore.
